(** * martiensk/wordpuzzle: the word-search generator of [script.js]

    A shallow embedding of [generateWordSearch], [canPlaceWord], [placeWord],
    [fillEmptyCells] and of the word-list column split of the renderers,
    followed by the properties of the generator.

    Conventions of the embedding.
    - JavaScript numbers that hold integers are [Z]; loop counters that only
      count up from 0 are [nat] and are injected with [Z.of_nat].
    - A JavaScript string is a [string]; [word[i]] is a one-character string
      or [undefined].
    - Arrays of words live in a heap of arrays and are passed by reference
      ([loc]), because [sort] and [push] mutate their receiver.  The grid is
      an array of freshly built rows owned by one call; it is threaded through
      the code as a value.
    - [Math.random] is an oracle: the k-th call of a run returns [rnd k], a
      double of the half-open unit interval.  The product of such a double
      and an integer is rounded to a double again, as the multiplication of
      two Numbers is, before [Math.floor] is taken.  [console.warn] appends
      to a log kept in the state. *)

From Stdlib Require Import ZArith Ascii String.
From stdpp Require Import base numbers list strings sorting.

Local Open Scope Z_scope.
#[local] Set Warnings "-clear-no-such-hyp".

(** ** The JavaScript fragment the program uses *)

Inductive js_error : Set :=
| RangeError    (* Array(n) with n not an array length *)
| TypeError     (* property access on undefined, or spreading undefined *)
| Unsupported.  (* a write that would grow a row or add a non-index property *)

Inductive result (A : Type) : Type :=
| Ok (a : A)
| Err (e : js_error).
Arguments Ok {A} a.
Arguments Err {A} e.

(** The values a grid cell can hold. *)
Inductive jsval : Set :=
| Undefined
| Str (s : string).

#[global] Instance jsval_eq_dec : EqDecision jsval.
Proof. solve_decision. Defined.

(** [a !== b] on the values above. *)
Definition strict_neq (a b : jsval) : bool := bool_decide (a ≠ b).

(** [l[i]] for an array [l]: [None] stands for [undefined]. *)
Definition js_index {A : Type} (l : list A) (i : Z) : option A :=
  if i <? 0 then None else l !! Z.to_nat i.

(** [s[i]] for a string [s]. *)
Definition string_index (s : string) (i : Z) : jsval :=
  if i <? 0 then Undefined
  else match String.get (Z.to_nat i) s with
       | Some c => Str (String c EmptyString)
       | None => Undefined
       end.

(** The two skip signals written with [console.warn]. *)
Inductive warning : Set :=
| WarnTooLong (word : string)
| WarnNotPlaced (word : string) (maxAttempts : Z).

(** A value returned by [Math.random()]: a double at least 0 and below 1,
    that is [mantissa * 2 ^ (exponent - 1074)] with a mantissa of at most 53
    bits; [2 ^ -1074] is the smallest positive double. *)
Record unit_sample : Set := UnitSample {
  mantissa : Z;
  exponent : Z;
  in_unit : (0 <=? mantissa) && (mantissa <? 2 ^ 53) && (0 <=? exponent)
            && (mantissa * 2 ^ exponent <? 2 ^ 1074) = true
}.

(** The sample as the fraction [num / den]. *)
Definition num (u : unit_sample) : Z := mantissa u * 2 ^ exponent u.
Definition den (u : unit_sample) : Z := 2 ^ 1074.

(** [a / 2 ^ k] rounded to the nearest integer, a tie to the even one. *)
Definition round_half_even (a k : Z) : Z :=
  let q := Z.shiftr a k in
  match 2 * Z.land a (Z.ones k) ?= 2 ^ k with
  | Lt => q
  | Gt => q + 1
  | Eq => if Z.even q then q else q + 1
  end.

(** The double nearest to [p * 2 ^ -1074], as a multiple of [2 ^ -1074]:
    [p] rounded to 53 significant bits.  A product of a sample and an
    integer is far from the largest double and is a multiple of the smallest
    one, so nothing else happens to it. *)
Definition round_to_double (p : Z) : Z :=
  let a := Z.abs p in
  let k := Z.max 0 (Z.log2 a - 52) in
  Z.sgn p * Z.shiftl (round_half_even a k) k.

(** [Math.floor(u * n)] for an integer [n]: the product is a double, the
    exact product rounded, and [Math.floor] is taken of that. *)
Definition Math_floor_mul (u : unit_sample) (n : Z) : Z :=
  Z.shiftr (round_to_double (num u * n)) 1074.

(** [Math.ceil(n / d)] for a positive [d]. *)
Definition Math_ceil_div (n d : Z) : Z := - ((- n) / d).

(** The sample [(m mod 2 ^ bits) / 2 ^ bits], for at most 53 bits. *)
Program Definition sample (m : Z) (bits : nat) : unit_sample :=
  let b := Z.min (Z.of_nat bits) 53 in
  {| mantissa := m mod 2 ^ b; exponent := 1074 - b |}.
Next Obligation.
  intros m bits b.
  assert (Hb : 0 <= b <= 53) by (unfold b; lia).
  pose proof (Z.mod_pos_bound m (2 ^ b) ltac:(apply Z.pow_pos_nonneg; lia)) as Hm.
  assert (2 ^ b <= 2 ^ 53) by (apply Z.pow_le_mono_r; lia).
  assert (Hp : 2 ^ 1074 = 2 ^ b * 2 ^ (1074 - b)).
  { rewrite <- Z.pow_add_r by lia. f_equal. lia. }
  assert (0 < 2 ^ (1074 - b)) by (apply Z.pow_pos_nonneg; lia).
  repeat (apply andb_true_iff; split); try apply Z.leb_le; try apply Z.ltb_lt; try lia.
  rewrite Hp. apply Z.mul_lt_mono_pos_r; lia.
Qed.

Definition loc := nat.

Record state : Type := State {
  heap : list (list string);   (* the arrays of words, by reference *)
  random_calls : nat;          (* calls of Math.random so far *)
  console : list warning       (* what console.warn has printed *)
}.

Definition set_heap (h : list (list string)) (s : state) : state :=
  {| heap := h; random_calls := random_calls s; console := console s |}.

Definition tick (k : nat) (s : state) : state :=
  {| heap := heap s; random_calls := (random_calls s + k)%nat; console := console s |}.

Definition log (w : warning) (s : state) : state :=
  {| heap := heap s; random_calls := random_calls s; console := console s ++ [w] |}.

(** How a computation ends, and the state it ends in. *)
Inductive outcome (A : Type) : Type :=
| Returned (a : A) (s : state)
| Thrown (e : js_error) (s : state).
Arguments Returned {A} a s.
Arguments Thrown {A} e s.

Definition final_state {A : Type} (o : outcome A) : state :=
  match o with
  | Returned _ s => s
  | Thrown _ s => s
  end.

Definition M (A : Type) : Type := state → outcome A.

#[global] Instance M_ret : MRet M := λ A a s, Returned a s.
#[global] Instance M_bind : MBind M := λ A B f m s,
  match m s with
  | Returned a s' => f a s'
  | Thrown e s' => Thrown e s'
  end.

Definition throw {A : Type} (e : js_error) : M A := λ s, Thrown e s.

Definition lift {A : Type} (r : result A) : M A :=
  match r with
  | Ok a => mret a
  | Err e => throw e
  end.

(** [[...xs]] and [[]]: a new array. *)
Definition array_new (xs : list string) : M loc := λ s,
  Returned (length (heap s)) (set_heap (heap s ++ [xs]) s).

(** Reading through a reference; a reference to nothing stands for
    [undefined]. *)
Definition array_read (l : loc) : M (list string) := λ s,
  match heap s !! l with
  | Some xs => Returned xs s
  | None => Thrown TypeError s
  end.

(** Replacing the contents of an array that was read before. *)
Definition array_write (l : loc) (xs : list string) : M unit := λ s,
  Returned tt (set_heap (<[l := xs]> (heap s)) s).

(** [[...a]]. *)
Definition spread (a : loc) : M loc :=
  xs ← array_read a; array_new xs.

(** [a.push(x)]. *)
Definition Array_push (a : loc) (x : string) : M unit :=
  xs ← array_read a; array_write a (xs ++ [x]).

(** [Array.prototype.sort] is stable (ECMAScript 2019): an element goes in
    front of the first element it does not have to follow. *)
Fixpoint sort_insert {A : Type} (cmp : A → A → Z) (x : A) (l : list A) : list A :=
  match l with
  | [] => [x]
  | y :: l' => if cmp x y <=? 0 then x :: y :: l' else y :: sort_insert cmp x l'
  end.

Definition stable_sort {A : Type} (cmp : A → A → Z) (l : list A) : list A :=
  foldr (sort_insert cmp) [] l.

(** [a.sort(cmp)]: sorts [a] in place and returns [a]. *)
Definition Array_sort (cmp : string → string → Z) (a : loc) : M loc :=
  xs ← array_read a; _ ← array_write a (stable_sort cmp xs); mret a.

(** [a.slice(start, end)], [end] optional. *)
Definition slice_bound (len k : Z) : Z :=
  if k <? 0 then Z.max (len + k) 0 else Z.min k len.

Definition Array_slice {A : Type} (l : list A) (start : Z) (end_ : option Z) : list A :=
  let len := Z.of_nat (length l) in
  let k := slice_bound len start in
  let final := match end_ with Some e => slice_bound len e | None => len end in
  take (Z.to_nat (final - k)) (drop (Z.to_nat k) l).

Definition console_warn (w : warning) : M unit := λ s,
  Returned tt (log w s).

(** ** The generator *)

Abbreviation grid := (list (list jsval)).

(** [Array(size).fill(0).map(() => Array(size).fill(''))]: [size] rows, each
    a new array of [size] empty strings.  [Array(n)] throws a [RangeError]
    unless [n] is an array length. *)
Definition new_grid (size : Z) : M grid :=
  if (size <? 0) || (2 ^ 32 <=? size) then throw RangeError
  else mret (replicate (Z.to_nat size) (replicate (Z.to_nat size) (Str ""))).

Definition directions : list (Z * Z) :=
  [ (0, 1);     (* right *)
    (1, 0);     (* down *)
    (1, 1);     (* diagonal down-right *)
    (1, -1);    (* diagonal down-left *)
    (0, -1);    (* left *)
    (-1, 0);    (* up *)
    (-1, 1);    (* diagonal up-right *)
    (-1, -1) ]. (* diagonal up-left *)

Definition maxAttempts : Z := 100.

Definition letters : string := "ABCDEFGHIJKLMNOPQRSTUVWXYZ".

(** [word.length] *)
Definition word_length (word : string) : Z := Z.of_nat (String.length word).

(** The body of the loop of [canPlaceWord] for the letter indices [idxs]. *)
Fixpoint canPlaceWord_loop (g : grid) (word : string)
    (startX startY dx dy size : Z) (idxs : list nat) : result bool :=
  match idxs with
  | [] => Ok true
  | i :: rest =>
    let x := startX + Z.of_nat i * dx in
    let y := startY + Z.of_nat i * dy in
    if (x <? 0) || (x >=? size) || (y <? 0) || (y >=? size) then Ok false
    else
      match js_index g y with
      | None => Err TypeError
      | Some row =>
        let cell := default Undefined (js_index row x) in
        if strict_neq cell (Str "") && strict_neq cell (string_index word (Z.of_nat i))
        then Ok false
        else canPlaceWord_loop g word startX startY dx dy size rest
      end
  end.

Definition canPlaceWord (g : grid) (word : string)
    (startX startY dx dy size : Z) : result bool :=
  canPlaceWord_loop g word startX startY dx dy size (seq 0 (String.length word)).

(** [grid[y][x] = v].  The row must exist; a column outside the row would
    grow the row or add a property to it, which the embedding does not
    follow. *)
Definition grid_set (g : grid) (x y : Z) (v : jsval) : result grid :=
  match js_index g y with
  | None => Err TypeError
  | Some row =>
    if (0 <=? x) && (x <? Z.of_nat (length row))
    then Ok (<[Z.to_nat y := <[Z.to_nat x := v]> row]> g)
    else Err Unsupported
  end.

Fixpoint placeWord_loop (g : grid) (word : string)
    (startX startY dx dy : Z) (idxs : list nat) : result grid :=
  match idxs with
  | [] => Ok g
  | i :: rest =>
    let x := startX + Z.of_nat i * dx in
    let y := startY + Z.of_nat i * dy in
    match grid_set g x y (string_index word (Z.of_nat i)) with
    | Ok g' => placeWord_loop g' word startX startY dx dy rest
    | Err e => Err e
    end
  end.

Definition placeWord (g : grid) (word : string) (startX startY dx dy : Z) : result grid :=
  placeWord_loop g word startX startY dx dy (seq 0 (String.length word)).

Section Generator.

(** The random source: the value of the k-th call of [Math.random]. *)
Variable rnd : nat → unit_sample.

Definition Math_random : M unit_sample := λ s,
  Returned (rnd (random_calls s)) (tick 1 s).

(** [Math.floor(Math.random() * n)] *)
Definition random_below (n : Z) : M Z :=
  u ← Math_random; mret (Math_floor_mul u n).

(** One cell of [fillEmptyCells]. *)
Definition fill_cell (cell : jsval) : M jsval :=
  if bool_decide (cell = Str "") then
    randomIndex ← random_below (word_length letters);
    mret (string_index letters randomIndex)
  else mret cell.

(** The inner loop of [fillEmptyCells]: [x] runs over the cells of a row. *)
Fixpoint fill_row (row : list jsval) : M (list jsval) :=
  match row with
  | [] => mret []
  | cell :: rest =>
    cell' ← fill_cell cell; rest' ← fill_row rest; mret (cell' :: rest')
  end.

(** The outer loop: [y] runs over the rows. *)
Fixpoint fillEmptyCells (g : grid) : M grid :=
  match g with
  | [] => mret []
  | row :: rest =>
    row' ← fill_row row; rest' ← fillEmptyCells rest; mret (row' :: rest')
  end.

(** The [while (!placed && attempts < maxAttempts)] loop for one word;
    [remaining] is [maxAttempts - attempts].  It returns the grid and the
    final values of [placed] and [attempts]. *)
Fixpoint attempt_loop (placedWords : loc) (size : Z) (word : string)
    (remaining : nat) (attempts : Z) (g : grid) : M (grid * bool * Z) :=
  match remaining with
  | O => mret (g, false, attempts)
  | S remaining' =>
    let attempts := attempts + 1 in
    dirIndex ← random_below (Z.of_nat (length directions));
    match js_index directions dirIndex with
    | None => throw TypeError
    | Some (dx, dy) =>
      startX ← random_below size;
      startY ← random_below size;
      ok ← lift (canPlaceWord g word startX startY dx dy size);
      if ok : bool then
        g' ← lift (placeWord g word startX startY dx dy);
        _ ← Array_push placedWords word;
        mret (g', true, attempts)
      else attempt_loop placedWords size word remaining' attempts g
    end
  end.

(** The body of [for (const word of sortedWords)]. *)
Definition place_one (placedWords : loc) (size : Z) (g : grid) (word : string) : M grid :=
  if word_length word >? size then
    _ ← console_warn (WarnTooLong word); mret g
  else
    r ← attempt_loop placedWords size word (Z.to_nat (maxAttempts - 0)) 0 g;
    let '(g', placed, _) := r in
    if negb placed then
      _ ← console_warn (WarnNotPlaced word maxAttempts); mret g'
    else mret g'.

Fixpoint place_words (placedWords : loc) (size : Z) (words : list string) (g : grid) : M grid :=
  match words with
  | [] => mret g
  | word :: rest =>
    g' ← place_one placedWords size g word;
    place_words placedWords size rest g'
  end.

(** [generateWordSearch(words, size)]; the result is the pair
    [{ grid, placedWords }].  The array [sortedWords] is not written after
    it is sorted, so the loop runs over its contents at that point. *)
Definition generateWordSearch (words : loc) (size : Z) : M (grid * loc) :=
  g ← new_grid size;
  placedWords ← array_new [];
  copy ← spread words;
  sortedWords ← Array_sort (λ a b, word_length b - word_length a) copy;
  sorted ← array_read sortedWords;
  g ← place_words placedWords size sorted g;
  g ← fillEmptyCells g;
  mret (g, placedWords).

End Generator.

(** The default value of the parameter [size]. *)
Definition default_size : Z := 15.

(** The calls of [generateWordSearch] that the loops of [createHTMLFile] and
    [createPDFDirectly] make: one per word list, in order, with the default
    size.  Each loop then renders the puzzle it got; the rendering is not part
    of this definition. *)
Fixpoint generate_each (rnd : nat → unit_sample) (wordLists : list loc)
    : M (list (grid * loc)) :=
  match wordLists with
  | [] => mret []
  | words :: rest =>
    puzzle ← generateWordSearch rnd words default_size;
    puzzles ← generate_each rnd rest;
    mret (puzzle :: puzzles)
  end.

(** ** The word-list columns of the renderers *)

(** [createPuzzleHTML] *)
Definition createPuzzleHTML_columns (placedWords : list string) : list string * list string :=
  let midPoint := Math_ceil_div (Z.of_nat (length placedWords)) 2 in
  let leftColumnWords := Array_slice placedWords 0 (Some midPoint) in
  let rightColumnWords := Array_slice placedWords midPoint None in
  (leftColumnWords, rightColumnWords).

(** [createHTMLFile] *)
Definition createHTMLFile_columns (placedWords : list string) : list string * list string :=
  let midPoint := Math_ceil_div (Z.of_nat (length placedWords)) 2 in
  let leftColumnWords := Array_slice placedWords 0 (Some midPoint) in
  let rightColumnWords := Array_slice placedWords midPoint None in
  (leftColumnWords, rightColumnWords).

(** [createPDFDirectly] *)
Definition createPDFDirectly_columns (placedWords : list string) : list string * list string :=
  let midPoint := Math_ceil_div (Z.of_nat (length placedWords)) 2 in
  let leftColumnWords := Array_slice placedWords 0 (Some midPoint) in
  let rightColumnWords := Array_slice placedWords midPoint None in
  (leftColumnWords, rightColumnWords).

(** ** Reading the word lists *)

Definition newline : ascii := "010"%char.
Definition comma : ascii := ","%char.

(** [s.split(sep)] for a separator of one character: the pieces between the
    separators, at least one. *)
Fixpoint String_split (sep : ascii) (s : string) : list string :=
  match s with
  | EmptyString => [EmptyString]
  | String c s' =>
    if Ascii.eqb c sep then EmptyString :: String_split sep s'
    else match String_split sep s' with
         | piece :: pieces => String c piece :: pieces
         | [] => [String c EmptyString]
         end
  end.

(** The ASCII characters that [trim] removes: tab, line feed, vertical tab,
    form feed, carriage return and space. *)
Definition js_whitespace (c : ascii) : bool :=
  match N_of_ascii c with
  | 9 | 10 | 11 | 12 | 13 | 32 => true
  | _ => false
  end%N.

Fixpoint String_trimStart (s : string) : string :=
  match s with
  | EmptyString => EmptyString
  | String c s' => if js_whitespace c then String_trimStart s' else s
  end.

Fixpoint String_trimEnd (s : string) : string :=
  match s with
  | EmptyString => EmptyString
  | String c s' =>
    match String_trimEnd s' with
    | EmptyString => if js_whitespace c then EmptyString else String c EmptyString
    | rest => String c rest
    end
  end.

(** [s.trim()] *)
Definition String_trim (s : string) : string := String_trimEnd (String_trimStart s).

(** [toUpperCase] on an ASCII character: the letters a to z move to A to Z. *)
Definition upper_char (c : ascii) : ascii :=
  let n := N_of_ascii c in
  if ((97 <=? n) && (n <=? 122))%N then ascii_of_N (n - 32) else c.

(** [s.toUpperCase()] *)
Fixpoint String_toUpperCase (s : string) : string :=
  match s with
  | EmptyString => EmptyString
  | String c s' => String (upper_char c) (String_toUpperCase s')
  end.

(** Every character of the string passes the test. *)
Fixpoint string_forall (P : ascii → bool) (s : string) : bool :=
  match s with
  | EmptyString => true
  | String c s' => P c && string_forall P s'
  end.

(** Text made of ASCII characters only. *)
Definition ascii_text (s : string) : bool :=
  string_forall (λ c, (N_of_ascii c <? 128)%N) s.

(** The words of one line: [line.split(',')], each piece trimmed and put in
    upper case, the empty ones dropped. *)
Definition line_words (line : string) : list string :=
  filter (λ word, word ≠ EmptyString)
         ((λ word, String_toUpperCase (String_trim word)) <$> String_split comma line).

(** [readWordLists], from the contents of the file on: the lines that are
    not blank, each turned into its words.  Outside ASCII [trim] and
    [toUpperCase] follow the Unicode tables, which the embedding does not. *)
Definition readWordLists (fileContent : string) : result (list (list string)) :=
  if ascii_text fileContent then
    Ok (line_words <$>
        filter (λ line, String_trim line ≠ EmptyString) (String_split newline fileContent))
  else Err Unsupported.

(** ** Running the generator on concrete inputs *)

(** A caller's state: the word list is the only array. *)
Definition initial_state (ws : list string) : state :=
  {| heap := [ws]; random_calls := 0; console := [] |}.

(** A random source that walks through the sixteenths of the unit interval. *)
Definition rnd16 (k : nat) : unit_sample := sample (Z.of_nat k * 7 + 3) 4.

(** The sixteenths of [rnd16], written as thirty-seconds. *)
Definition rnd32 (k : nat) : unit_sample := sample (2 * ((Z.of_nat k * 7 + 3) mod 16)) 5.

(** The source [rnd] seeded again after [c] calls: call [c] returns what
    call 0 of [rnd] returns, and so on. *)
Definition reseeded (rnd : nat → unit_sample) (c : nat) (k : nat) : unit_sample :=
  rnd (k - c)%nat.

(** A source that always returns 0. *)
Definition rnd_zero (k : nat) : unit_sample := sample 0 0.

(** The doubles that the literals [0.7] and [0.6] denote. *)
Definition seven_tenths : unit_sample :=
  {| mantissa := 6305039478318694; exponent := 1021; in_unit := eq_refl |}.

Definition six_tenths : unit_sample :=
  {| mantissa := 5404319552844595; exponent := 1021; in_unit := eq_refl |}.

(** The largest double below 1. *)
Definition almost_one : unit_sample :=
  {| mantissa := 2 ^ 53 - 1; exponent := 1021; in_unit := eq_refl |}.

Definition demo_words : list string := ["CAT"; "DOG"; "ELEPHANT"; "HORSE"].

(** A state later in the life of a caller: another array was made before the
    word list, a warning was printed and seven random numbers were drawn. *)
Definition later_state : state :=
  {| heap := [["OLD"]; demo_words]; random_calls := 7;
     console := [WarnTooLong "SUPERCALIFRAGILISTIC"] |}.

(** The words of the returned [placedWords] array. *)
Definition placed_of (o : outcome (grid * loc)) : option (list string) :=
  match o with
  | Returned (_, placedWords) s => heap s !! placedWords
  | Thrown _ _ => None
  end.

(** What was printed during a run. *)
Definition warnings_of (o : outcome (grid * loc)) : list warning :=
  match o with
  | Returned _ s => console s
  | Thrown _ _ => []
  end.

Definition grid_of (o : outcome (grid * loc)) : grid :=
  match o with
  | Returned (g, _) _ => g
  | Thrown _ _ => []
  end.

(** ** Vocabulary of the properties *)

(** The value of the cell in column [x] of row [y], when there is one. *)
Definition cell_at (g : grid) (x y : Z) : option jsval :=
  row ← js_index g y; js_index row x.

(** The lengths of the rows. *)
Definition shape (g : grid) : list nat := length <$> g.

(** A [size] by [size] grid. *)
Definition square (size : Z) (g : grid) : Prop :=
  shape g = replicate (Z.to_nat size) (Z.to_nat size).

Definition in_bounds (size x y : Z) : Prop :=
  0 <= x < size ∧ 0 <= y < size.

(** The cell that letter [i] of a candidate placement goes to. *)
Definition target (startX startY dx dy : Z) (i : nat) : Z * Z :=
  (startX + Z.of_nat i * dx, startY + Z.of_nat i * dy).

(** Letter [i] of the word fits: its cell is inside the grid and is empty or
    already holds that letter. *)
Definition target_ok (g : grid) (word : string)
    (startX startY dx dy size : Z) (i : nat) : Prop :=
  let '(x, y) := target startX startY dx dy i in
  in_bounds size x y ∧
  (cell_at g x y = Some (Str "") ∨ cell_at g x y = Some (string_index word (Z.of_nat i))).

(** Every cell that holds something other than the empty string in [g]
    holds the same value in [g']. *)
Definition preserved (g g' : grid) : Prop :=
  ∀ x y v, cell_at g x y = Some v → v ≠ Str "" → cell_at g' x y = Some v.

(** The word can be read off the grid as a straight run. *)
Definition traceable (size : Z) (g : grid) (word : string) : Prop :=
  ∃ x y dx dy,
    in_bounds size x y ∧ (dx, dy) ∈ directions ∧
    ∀ i : nat, (i < String.length word)%nat →
      cell_at g (x + Z.of_nat i * dx) (y + Z.of_nat i * dy)
      = Some (string_index word (Z.of_nat i)).

Definition is_upper (c : ascii) : bool :=
  ((65 <=? N_of_ascii c) && (N_of_ascii c <=? 90))%N.

(** One uppercase letter from A to Z. *)
Definition uppercase_letter (v : jsval) : bool :=
  match v with
  | Str (String c EmptyString) => is_upper c
  | _ => false
  end.

Fixpoint uppercase_word (w : string) : bool :=
  match w with
  | EmptyString => true
  | String c w' => is_upper c && uppercase_word w'
  end.

(** What one round of the loop of [canPlaceWord] decides for letter [i]. *)
Definition check_target (g : grid) (word : string)
    (startX startY dx dy size : Z) (i : nat) : result bool :=
  canPlaceWord_loop g word startX startY dx dy size [i].

(** A target outside the grid, or one that holds another value, makes the
    round answer [false]. *)
Definition target_bad (g : grid) (word : string)
    (startX startY dx dy size : Z) (i : nat) : Prop :=
  let '(x, y) := target startX startY dx dy i in
  ¬ in_bounds size x y ∨
  ∃ c, cell_at g x y = Some c ∧ c ≠ Str "" ∧ c ≠ string_index word (Z.of_nat i).

(** The candidate of the attempt whose first draw is call number [c] of
    [Math.random]: a direction and a start cell. *)
Definition candidate (rnd : nat → unit_sample) (size : Z) (c : nat) : option (Z * Z * Z * Z) :=
  d ← js_index directions (Math_floor_mul (rnd c) (Z.of_nat (length directions)));
  Some (d.1, d.2, Math_floor_mul (rnd (c + 1)%nat) size, Math_floor_mul (rnd (c + 2)%nat) size).

(** That candidate passes the validity check on grid [g]. *)
Definition valid_attempt (rnd : nat → unit_sample) (g : grid) (word : string)
    (size : Z) (c : nat) : bool :=
  match candidate rnd size c with
  | Some (dx, dy, x, y) =>
    match canPlaceWord g word x y dx dy size with
    | Ok true => true
    | _ => false
    end
  | None => false
  end.

(** What processing one word does to the grid and the state: the three ways
    the body of the [for] loop can end. *)
Inductive word_step (rnd : nat → unit_sample) (p : loc) (size : Z)
    (g : grid) (word : string) (s : state) : grid → state → Prop :=
| step_too_long :
    word_length word > size →
    word_step rnd p size g word s g (log (WarnTooLong word) s)
| step_placed (k : nat) (dx dy x y : Z) (pw : list string) (g' : grid) :
    word_length word <= size →
    (k < 100)%nat →
    (∀ j, (j < k)%nat → valid_attempt rnd g word size (random_calls s + 3 * j) = false) →
    candidate rnd size (random_calls s + 3 * k) = Some (dx, dy, x, y) →
    (dx, dy) ∈ directions →
    canPlaceWord g word x y dx dy size = Ok true →
    placeWord g word x y dx dy = Ok g' →
    heap s !! p = Some pw →
    word_step rnd p size g word s g'
      (set_heap (<[p := pw ++ [word]]> (heap s)) (tick (3 * S k) s))
| step_not_placed :
    word_length word <= size →
    (∀ j, (j < 100)%nat → valid_attempt rnd g word size (random_calls s + 3 * j) = false) →
    word_step rnd p size g word s g
      (log (WarnNotPlaced word maxAttempts) (tick 300 s)).

(** How [fillEmptyCells] relates a cell before and after. *)
Definition filled (c c' : jsval) : Prop :=
  if decide (c = Str "") then uppercase_letter c' = true else c' = c.

(** Every cell is an uppercase letter or still empty. *)
Definition letter_or_empty (v : jsval) : Prop :=
  v = Str "" ∨ uppercase_letter v = true.

(** The runs of the [for] loop: one [word_step] per word, in order. *)
Inductive words_run (rnd : nat → unit_sample) (p : loc) (size : Z) :
    grid → list string → state → grid → state → Prop :=
| run_done g s : words_run rnd p size g [] s g s
| run_word g word rest s g1 s1 g2 s2 :
    word_step rnd p size g word s g1 s1 →
    words_run rnd p size g1 rest s1 g2 s2 →
    words_run rnd p size g (word :: rest) s g2 s2.

(** The comparator of the sort: [(a, b) => b.length - a.length]. *)
Definition by_length_desc (a b : string) : Z := word_length b - word_length a.

(** The grid at the start of the loop over the words. *)
Definition empty_grid (size : Z) : grid :=
  replicate (Z.to_nat size) (replicate (Z.to_nat size) (Str "")).

(** The state at the start of the loop: [placedWords] is the new empty
    array at [length (heap s)], [sortedWords] the sorted copy after it. *)
Definition loop_entry (ws : list string) (s : state) : state :=
  set_heap ((heap s ++ [[]]) ++ [stable_sort by_length_desc ws]) s.

(** Descending order of the keys. *)
Definition descending {A : Type} (key : A → Z) (a b : A) : Prop := key b <= key a.

(** A word can be placed on grid [g] when it fits the grid and one of its
    100 candidates, drawn from call [c] of [Math.random] on, is valid. *)
Definition placeable (rnd : nat → unit_sample) (g : grid) (word : string)
    (size : Z) (c : nat) : bool :=
  (word_length word <=? size) &&
  existsb (λ j, valid_attempt rnd g word size (c + 3 * j)) (seq 0 100).

(** The words placed successfully, in processing order: walk the words as
    the loop does and keep those that can be placed when their turn comes. *)
Fixpoint successfully_placed (rnd : nat → unit_sample) (p : loc) (size : Z)
    (ws : list string) (g : grid) (s : state) : list string :=
  match ws with
  | [] => []
  | word :: rest =>
    match place_one rnd p size g word s with
    | Returned g' s' =>
      (if placeable rnd g word size (random_calls s) then [word] else [])
      ++ successfully_placed rnd p size rest g' s'
    | Thrown _ _ => []
    end
  end.

(** The word a warning is about. *)
Definition warned_word (w : warning) : string :=
  match w with
  | WarnTooLong word => word
  | WarnNotPlaced word _ => word
  end.

(** A warning agrees with the length of its word. *)
Definition warning_fits (size : Z) (w : warning) : Prop :=
  match w with
  | WarnTooLong word => word_length word > size
  | WarnNotPlaced word n => word_length word <= size ∧ n = maxAttempts
  end.

(** The number of empty cells of a row and of a grid. *)
Definition empty_in_row (row : list jsval) : nat :=
  length (filter (λ c, c = Str "") row).

Definition empty_cells (g : grid) : nat := sum_list (empty_in_row <$> g).

(** The words that are not too long for the grid. *)
Definition fitting (size : Z) (ws : list string) : list string :=
  filter (λ w, word_length w <= size) ws.

(** The value is a letter of one of the words. *)
Definition from_words (ws : list string) (v : jsval) : Prop :=
  ∃ word (i : nat), word ∈ ws ∧ (i < String.length word)%nat ∧
                    v = string_index word (Z.of_nat i).

(** From call [c1] of [rnd1] and call [c2] of [rnd2] on, the two sources
    return the same fractions. *)
Definition same_stream (rnd1 : nat → unit_sample) (c1 : nat)
    (rnd2 : nat → unit_sample) (c2 : nat) : Prop :=
  ∀ k, num (rnd1 (c1 + k)%nat) * den (rnd2 (c2 + k)%nat)
       = num (rnd2 (c2 + k)%nat) * den (rnd1 (c1 + k)%nat).

(** Two states in step: the random sources continue alike, and the array
    [p1] of the first holds what the array [p2] of the second holds. *)
Definition aligned (rnd1 rnd2 : nat → unit_sample) (p1 p2 : loc) (s1 s2 : state) : Prop :=
  same_stream rnd1 (random_calls s1) rnd2 (random_calls s2) ∧
  ∃ pw, heap s1 !! p1 = Some pw ∧ heap s2 !! p2 = Some pw.

(** The states [s1] and [s2] are what the same draws and the same warnings
    make of the states [b1] and [b2]. *)
Definition same_effects (b1 b2 s1 s2 : state) : Prop :=
  ∃ (draws : nat) (warns : list warning),
    random_calls s1 = (random_calls b1 + draws)%nat ∧
    random_calls s2 = (random_calls b2 + draws)%nat ∧
    console s1 = console b1 ++ warns ∧ console s2 = console b2 ++ warns.

(** Two runs in step: in the states [s1] and [s2], reached from [b1] and
    [b2]. *)
Definition in_step (rnd1 rnd2 : nat → unit_sample) (p1 p2 : loc)
    (b1 b2 s1 s2 : state) : Prop :=
  aligned rnd1 rnd2 p1 p2 s1 s2 ∧ same_effects b1 b2 s1 s2.

(** Two outcomes that end alike: the same value in states related by [R],
    or the same error. *)
Definition agree {A : Type} (R : state → state → Prop) (o1 o2 : outcome A) : Prop :=
  match o1, o2 with
  | Returned a1 s1, Returned a2 s2 => a1 = a2 ∧ R s1 s2
  | Thrown e1 _, Thrown e2 _ => e1 = e2
  | _, _ => False
  end.

(** The string holds no character [c]. *)
Definition lacks (c : ascii) (s : string) : bool :=
  string_forall (λ d, negb (Ascii.eqb d c)) s.

(** A string of white space only. *)
Definition blank (s : string) : bool := string_forall js_whitespace s.

(** A word as [readWordLists] returns them: not empty, ASCII, with no white
    space at either end, no lower-case letter, no comma and no line feed. *)
Definition clean_word (w : string) : bool :=
  negb (String.eqb w EmptyString) && ascii_text w &&
  String.eqb (String_trim w) w && String.eqb (String_toUpperCase w) w &&
  lacks comma w && lacks newline w.

(** Lists of clean words, none of them empty. *)
Definition clean_lists (lists : list (list string)) : bool :=
  forallb (λ l, negb (bool_decide (l = [])) && forallb clean_word l) lists.

(** The text with one line per list and commas between the words. *)
Definition joined (lists : list (list string)) : string :=
  String.concat (String newline EmptyString)
                (String.concat (String comma EmptyString) <$> lists).

(** White space that stays on its line, and commas. *)
Definition comma_or_space (c : ascii) : bool :=
  Ascii.eqb c comma || (js_whitespace c && negb (Ascii.eqb c newline)).

(** The first character, if any, is not white space. *)
Definition starts_clean (s : string) : Prop :=
  match s with
  | EmptyString => True
  | String c _ => js_whitespace c = false
  end.

(** Every array of [s] is in [s'] with the same contents. *)
Definition kept (s s' : state) : Prop :=
  ∀ (a : loc) xs, heap s !! a = Some xs → heap s' !! a = Some xs.

(** ** Arithmetic of the random draws *)

Lemma den_pos (u : unit_sample) : 0 < den u.
Proof. unfold den. by apply Z.pow_pos_nonneg. Qed.

Lemma den_split (u : unit_sample) : den u = 2 ^ 53 * 2 ^ 1021.
Proof. unfold den. by rewrite <- Z.pow_add_r. Qed.

Lemma unit_sample_bounds (u : unit_sample) : 0 <= num u < den u.
Proof.
  destruct u as [m e H]. unfold num, den. simpl.
  repeat (apply andb_true_iff in H as [H ?]).
  apply Z.leb_le in H. rewrite Z.leb_le in *. rewrite Z.ltb_lt in *.
  split; [|done]. apply Z.mul_nonneg_nonneg; [done|]. by apply Z.pow_nonneg.
Qed.

(** The largest double below 1 is [1 - 2^-53]. *)
Lemma unit_sample_top (u : unit_sample) : num u + 2 ^ 1021 <= den u.
Proof.
  rewrite den_split.
  destruct u as [m e H]. unfold num. simpl.
  repeat (apply andb_true_iff in H as [H ?]).
  apply Z.leb_le in H. rewrite Z.leb_le in *. rewrite Z.ltb_lt in *.
  assert (H1021 : 0 < 2 ^ 1021) by by apply Z.pow_pos_nonneg.
  destruct (Z.le_gt_cases e 1021) as [He|He].
  - assert (0 < 2 ^ e <= 2 ^ 1021).
    { split; [by apply Z.pow_pos_nonneg|]. apply Z.pow_le_mono_r; lia. }
    assert (m * 2 ^ e <= (2 ^ 53 - 1) * 2 ^ 1021); [|lia].
    apply Z.mul_le_mono_nonneg; lia.
  - destruct (decide (m = 0)) as [->|Hm0]; [lia|].
    assert (0 < 2 ^ e) by by apply Z.pow_pos_nonneg.
    assert (e < 1074).
    { apply (Z.pow_lt_mono_r_iff 2); [lia..|]. nia. }
    assert (Hs : 2 ^ 1074 = 2 ^ (1074 - e) * 2 ^ e).
    { rewrite <- Z.pow_add_r by lia. f_equal. lia. }
    assert (2 ^ 1021 <= 2 ^ e) by (apply Z.pow_le_mono_r; lia).
    assert (m < 2 ^ (1074 - e)).
    { apply (Z.mul_lt_mono_pos_r (2 ^ e)); [lia|]. by rewrite <- Hs. }
    assert (m * 2 ^ e <= (2 ^ (1074 - e) - 1) * 2 ^ e).
    { apply Z.mul_le_mono_nonneg_r; lia. }
    assert (Hs' : 2 ^ 1074 = 2 ^ 53 * 2 ^ 1021) by by rewrite <- Z.pow_add_r.
    lia.
Qed.

Lemma round_half_even_spec (a k : Z) :
  0 <= a → 0 <= k →
  Z.abs (2 * (round_half_even a k * 2 ^ k) - 2 * a) <= 2 ^ k ∧
  a / 2 ^ k <= round_half_even a k.
Proof.
  intros Ha Hk. unfold round_half_even.
  rewrite Z.shiftr_div_pow2, Z.land_ones by done.
  assert (HP : 0 < 2 ^ k) by by apply Z.pow_pos_nonneg.
  pose proof (Z.div_mod a (2 ^ k) ltac:(lia)) as Hdm.
  pose proof (Z.mod_pos_bound a (2 ^ k) HP) as Hmod.
  set (q := a / 2 ^ k) in *. set (r := a mod 2 ^ k) in *. set (P := 2 ^ k) in *.
  destruct (Z.compare_spec (2 * r) P); [destruct (Z.even q)|..]; nia.
Qed.

Lemma round_half_even_0 (a : Z) : round_half_even a 0 = a.
Proof.
  unfold round_half_even. rewrite Z.shiftr_0_r. simpl Z.ones. by rewrite Z.land_0_r.
Qed.

(** Rounding to a double moves a product by at most one part in [2^53],
    leaves a product of at most 53 bits as it is, and never goes below a
    multiple of [2^j], [j <= 1074], that the product has reached. *)
Lemma round_to_double_spec (p : Z) :
  0 <= p →
  2 ^ 53 * Z.abs (round_to_double p - p) <= p ∧
  (p < 2 ^ 53 → round_to_double p = p).
Proof.
  intros Hp. unfold round_to_double. rewrite (Z.abs_eq p) by done.
  destruct (decide (p = 0)) as [->|Hp0]; [split; [by vm_compute|done]|].
  rewrite Z.sgn_pos, Z.mul_1_l by lia.
  pose proof (Z.log2_spec p ltac:(lia)) as [Hlo Hhi].
  destruct (Z.max_spec 0 (Z.log2 p - 52)) as [[Hk ->]|[Hk ->]].
  - set (k := Z.log2 p - 52) in *.
    rewrite Z.shiftl_mul_pow2 by lia.
    destruct (round_half_even_spec p k Hp ltac:(lia)) as [Herr _].
    assert (HP : 0 < 2 ^ (k - 1)) by (apply Z.pow_pos_nonneg; lia).
    assert (Hk1 : 2 ^ k = 2 * 2 ^ (k - 1)).
    { rewrite <- (Z.pow_succ_r 2 (k - 1)) by lia. f_equal. lia. }
    assert (Hl : 2 ^ Z.log2 p = 2 ^ 53 * 2 ^ (k - 1)).
    { rewrite <- Z.pow_add_r by lia. f_equal. lia. }
    split.
    + rewrite Hk1 in Herr. rewrite Hk1. lia.
    + intros Hlt. lia.
  - rewrite round_half_even_0, Z.shiftl_0_r, Z.sub_diag. simpl. split; [lia|done].
Qed.

(** Rounding never goes below a multiple of [2^j] that the product has
    reached, when [j] bits or fewer are rounded away. *)
Lemma round_to_double_floor (p c j : Z) :
  0 <= p → Z.log2 p - 52 <= j → 0 <= j →
  c * 2 ^ j <= p → c * 2 ^ j <= round_to_double p.
Proof.
  intros Hp Hkj Hj Hc. unfold round_to_double. rewrite (Z.abs_eq p) by done.
  destruct (decide (p = 0)) as [->|Hp0].
  { assert (0 < 2 ^ j) by by apply Z.pow_pos_nonneg. simpl. nia. }
  rewrite Z.sgn_pos, Z.mul_1_l by lia.
  set (k := Z.max 0 (Z.log2 p - 52)).
  assert (Hk : 0 <= k <= j) by (unfold k; lia).
  rewrite Z.shiftl_mul_pow2 by lia.
  destruct (round_half_even_spec p k Hp ltac:(lia)) as [_ Hq].
  assert (HP : 0 < 2 ^ k) by (apply Z.pow_pos_nonneg; lia).
  assert (Hs : 2 ^ j = 2 ^ (j - k) * 2 ^ k).
  { rewrite <- Z.pow_add_r by lia. f_equal. lia. }
  assert (c * 2 ^ (j - k) <= p / 2 ^ k).
  { apply Z.div_le_lower_bound; [done|]. rewrite Hs in Hc. lia. }
  rewrite Hs. nia.
Qed.

Lemma Math_floor_mul_div (u : unit_sample) (n : Z) :
  Math_floor_mul u n = round_to_double (num u * n) / den u.
Proof. unfold Math_floor_mul, den. by rewrite Z.shiftr_div_pow2. Qed.

Lemma Math_floor_mul_range (u : unit_sample) (n : Z) :
  0 < n → 0 <= Math_floor_mul u n < n.
Proof.
  intros Hn. rewrite Math_floor_mul_div.
  pose proof (unit_sample_bounds u) as [H0 H1].
  pose proof (unit_sample_top u) as Htop. pose proof (den_split u) as Hd.
  assert (Hp : 0 <= num u * n) by nia.
  destruct (round_to_double_spec _ Hp) as [Herr _].
  assert (H1021 : 0 < 2 ^ 1021) by by apply Z.pow_pos_nonneg.
  set (r := round_to_double (num u * n)) in *.
  set (h := 2 ^ 1021) in *. set (d := den u) in *.
  assert (Hnh : num u * n <= (2 ^ 53 - 1) * (n * h)) by nia.
  split.
  - apply Z.div_pos; lia.
  - apply Z.div_lt_upper_bound; [lia|]. nia.
Qed.

(** Two samples that are the same fraction give the same draw. *)
Lemma Math_floor_mul_ext (u v : unit_sample) (n : Z) :
  num u * den v = num v * den u → Math_floor_mul u n = Math_floor_mul v n.
Proof.
  intros E. pose proof (den_pos u). unfold Math_floor_mul.
  replace (num v) with (num u); [done|]. unfold den in *. nia.
Qed.

(** The draw that a sample gives is the floor of the exact product, or one
    more when the product is within one part in [2^53] of the next integer:
    the samples that give the draw [i] fill the interval from [i / n] to
    [(i + 1) / n], up to that rounding. *)
Lemma Math_floor_mul_near (u : unit_sample) (n : Z) :
  0 < n <= 2 ^ 53 →
  num u * n < (Math_floor_mul u n + 1) * den u ∧
  2 ^ 53 * (Math_floor_mul u n * den u) <= (2 ^ 53 + 1) * (num u * n).
Proof.
  intros Hn. rewrite Math_floor_mul_div.
  pose proof (unit_sample_bounds u) as [H0 H1]. pose proof (den_pos u) as Hd.
  assert (Hp : 0 <= num u * n) by nia.
  destruct (round_to_double_spec _ Hp) as [Herr _].
  pose proof (Z.div_mod (round_to_double (num u * n)) (den u) ltac:(lia)) as Hdm.
  pose proof (Z.mod_pos_bound (round_to_double (num u * n)) (den u) Hd) as Hmod.
  split; [|lia].
  pose proof (Z.div_mod (num u * n) (den u) ltac:(lia)) as Hdm'.
  pose proof (Z.mod_pos_bound (num u * n) (den u) Hd) as Hmod'.
  assert (Hfl : num u * n / den u * 2 ^ 1074 <= round_to_double (num u * n)).
  { apply round_to_double_floor; [done| |done|unfold den in *; lia].
    destruct (decide (num u * n = 0)) as [->|Hne]; [done|].
    assert (Z.log2 (num u * n) < 1127); [|lia].
    apply Z.log2_lt_pow2; [lia|].
    replace (2 ^ 1127) with (2 ^ 53 * den u) by (unfold den; by rewrite <- Z.pow_add_r).
    nia. }
  unfold den in *. lia.
Qed.

Lemma num_sample_53 (j : Z) : 0 <= j < 2 ^ 53 → num (sample j 53) = j * 2 ^ 1021.
Proof.
  intros Hj. unfold num, sample. simpl mantissa. simpl exponent.
  change (Z.min (Z.of_nat 53) 53) with 53. change (1074 - 53) with 1021.
  by rewrite Z.mod_small.
Qed.

(** Every draw below [n] is the draw of some sample. *)
Lemma Math_floor_mul_onto (n i : Z) :
  0 < n <= 2 ^ 52 → 0 <= i < n → ∃ u, Math_floor_mul u n = i.
Proof.
  intros Hn Hi. set (j := (2 * i + 1) * 2 ^ 52 / n).
  pose proof (Z.div_mod ((2 * i + 1) * 2 ^ 52) n ltac:(lia)) as Hdm.
  pose proof (Z.mod_pos_bound ((2 * i + 1) * 2 ^ 52) n ltac:(lia)) as Hmod.
  fold j in Hdm.
  assert (Hj : 0 <= j < 2 ^ 53).
  { split; [apply Z.div_pos; lia|]. apply Z.div_lt_upper_bound; lia. }
  exists (sample j 53).
  destruct (Math_floor_mul_near (sample j 53) n ltac:(lia)) as [Hlo Hhi].
  rewrite num_sample_53, den_split in * by done.
  assert (Hh : 0 < 2 ^ 1021) by by apply Z.pow_pos_nonneg.
  set (r := Math_floor_mul (sample j 53) n) in *. set (h := 2 ^ 1021) in *.
  assert (Hlo' : j * n < (r + 1) * 2 ^ 53).
  { apply (Z.mul_lt_mono_pos_r h); [done|]. lia. }
  assert (Hhi' : 2 ^ 53 * (r * 2 ^ 53) <= (2 ^ 53 + 1) * (j * n)).
  { apply (Z.mul_le_mono_pos_r _ _ h); [done|]. lia. }
  lia.
Qed.

(** A number of at most 53 significant bits is a double already. *)
Lemma round_to_double_exact (m j : Z) :
  0 <= m < 2 ^ 53 → 0 <= j → round_to_double (m * 2 ^ j) = m * 2 ^ j.
Proof.
  intros Hm Hj. assert (HJ : 0 < 2 ^ j) by by apply Z.pow_pos_nonneg.
  destruct (decide (m = 0)) as [->|Hm0]; [done|].
  unfold round_to_double. rewrite Z.abs_eq, Z.sgn_pos, Z.mul_1_l by nia.
  assert (Hlog : Z.log2 (m * 2 ^ j) = j + Z.log2 m) by (apply Z.log2_mul_pow2; lia).
  assert (Z.log2 m < 53) by (apply Z.log2_lt_pow2; lia).
  set (k := Z.max 0 (Z.log2 (m * 2 ^ j) - 52)).
  assert (Hk : 0 <= k <= j) by (unfold k; lia).
  assert (HK : 0 < 2 ^ k) by (apply Z.pow_pos_nonneg; lia).
  assert (Hs : m * 2 ^ j = m * 2 ^ (j - k) * 2 ^ k).
  { rewrite <- Z.mul_assoc, <- Z.pow_add_r by lia. do 2 f_equal. lia. }
  assert (Hdiv : m * 2 ^ j / 2 ^ k = m * 2 ^ (j - k)) by (rewrite Hs; apply Z.div_mul; lia).
  assert (Hmod : (m * 2 ^ j) mod 2 ^ k = 0) by (rewrite Hs; apply Z.mod_mul; lia).
  unfold round_half_even.
  rewrite Z.shiftl_mul_pow2, Z.shiftr_div_pow2, Z.land_ones, Hdiv, Hmod by lia.
  replace (2 * 0 ?= 2 ^ k) with Lt by (symmetry; apply Z.compare_lt_iff; lia).
  lia.
Qed.

(** Multiplying by a power of two is exact: the draw is the floor of the
    exact product. *)
Lemma Math_floor_mul_pow2 (u : unit_sample) (j : Z) :
  0 <= j → Math_floor_mul u (2 ^ j) = num u * 2 ^ j / den u.
Proof.
  intros Hj. rewrite Math_floor_mul_div. f_equal.
  destruct u as [m e H]. unfold num. simpl.
  repeat (apply andb_true_iff in H as [H ?]).
  apply Z.leb_le in H. rewrite Z.leb_le in *. rewrite Z.ltb_lt in *.
  rewrite <- Z.mul_assoc, <- Z.pow_add_r by lia.
  apply round_to_double_exact; lia.
Qed.

(** The two ways of writing the sixteenths give the same samples. *)
Lemma rnd32_rnd16 (k : nat) : num (rnd32 k) = num (rnd16 k).
Proof.
  unfold num, rnd32, rnd16, sample. simpl mantissa. simpl exponent.
  change (Z.min (Z.of_nat 5) 53) with 5. change (Z.min (Z.of_nat 4) 53) with 4.
  change (1074 - 5) with 1069. change (1074 - 4) with (Z.succ 1069).
  rewrite Z.pow_succ_r by done.
  change (2 ^ 5) with 32. change (2 ^ 4) with 16.
  pose proof (Z.mod_pos_bound (Z.of_nat k * 7 + 3) 16 eq_refl).
  rewrite (Z.mod_small (2 * _) 32) by lia. lia.
Qed.

(** From here on a draw is used through the lemmas above. *)
Opaque Math_floor_mul round_to_double.

(** ** Arrays and cells *)

Lemma js_index_Some {A : Type} (l : list A) (i : Z) (a : A) :
  js_index l i = Some a ↔ 0 <= i ∧ l !! Z.to_nat i = Some a.
Proof.
  unfold js_index. destruct (Z.ltb_spec i 0); split; intros; try lia; intuition congruence.
Qed.

Lemma cell_at_Some (g : grid) (x y : Z) (v : jsval) :
  cell_at g x y = Some v ↔
  ∃ row, 0 <= y ∧ g !! Z.to_nat y = Some row ∧ 0 <= x ∧ row !! Z.to_nat x = Some v.
Proof.
  unfold cell_at. split.
  - intros H. apply bind_Some in H as (row & Hr & Hc).
    apply js_index_Some in Hr as [? ?]. apply js_index_Some in Hc as [? ?]. eauto 6.
  - intros (row & ? & Hr & ? & Hc). apply bind_Some. exists row.
    split; apply js_index_Some; auto.
Qed.

Lemma grid_set_Ok (g : grid) (x y : Z) (v c : jsval) :
  cell_at g x y = Some c →
  ∃ g', grid_set g x y v = Ok g' ∧ shape g' = shape g ∧
        cell_at g' x y = Some v ∧
        ∀ x' y', (x', y') ≠ (x, y) → cell_at g' x' y' = cell_at g x' y'.
Proof.
  intros H. apply cell_at_Some in H as (row & Hy & Hr & Hx & Hc).
  pose proof (lookup_lt_Some _ _ _ Hr) as Hly.
  pose proof (lookup_lt_Some _ _ _ Hc) as Hlx.
  unfold grid_set. replace (js_index g y) with (Some row)
    by (symmetry; apply js_index_Some; auto).
  replace ((0 <=? x) && (x <? Z.of_nat (length row))) with true
    by (symmetry; apply andb_true_iff; split; [apply Z.leb_le | apply Z.ltb_lt]; lia).
  eexists. split; [reflexivity|]. split; [|split].
  - unfold shape. rewrite list_fmap_insert, length_insert.
    apply list_insert_id. by rewrite list_lookup_fmap, Hr.
  - apply cell_at_Some. exists (<[Z.to_nat x := v]> row).
    repeat split; auto.
    + by apply list_lookup_insert_eq.
    + by apply list_lookup_insert_eq.
  - intros x' y' Hne. unfold cell_at, js_index.
    destruct (Z.ltb_spec y' 0); [done|].
    destruct (decide (Z.to_nat y' = Z.to_nat y)) as [Ey|Ey].
    + rewrite Ey, list_lookup_insert_eq, Hr by done. simpl.
      destruct (Z.ltb_spec x' 0); [done|].
      apply list_lookup_insert_ne. intros Ex. apply Hne. f_equal; lia.
    + by rewrite list_lookup_insert_ne by done.
Qed.

(** ** Letters of a word *)

Lemma string_get_lt (w : string) (i : nat) :
  (i < String.length w)%nat → ∃ c, String.get i w = Some c.
Proof.
  revert i. induction w as [|a w IH]; intros i Hi; simpl in *; [lia|].
  destruct i as [|i]; [eauto|]. apply IH. lia.
Qed.

Lemma string_index_lt (w : string) (i : nat) :
  (i < String.length w)%nat →
  ∃ c, String.get i w = Some c ∧ string_index w (Z.of_nat i) = Str (String c EmptyString).
Proof.
  intros Hi. destruct (string_get_lt w i Hi) as [c Hc]. exists c. split; [done|].
  unfold string_index. destruct (Z.ltb_spec (Z.of_nat i) 0); [lia|].
  by rewrite Nat2Z.id, Hc.
Qed.

Lemma string_index_nonempty (w : string) (i : nat) :
  (i < String.length w)%nat →
  string_index w (Z.of_nat i) ≠ Str "" ∧ string_index w (Z.of_nat i) ≠ Undefined.
Proof.
  intros Hi. destruct (string_index_lt w i Hi) as (c & _ & ->). split; discriminate.
Qed.

Lemma uppercase_word_index (w : string) (i : nat) :
  uppercase_word w = true → (i < String.length w)%nat →
  uppercase_letter (string_index w (Z.of_nat i)) = true.
Proof.
  intros Hw Hi. destruct (string_index_lt w i Hi) as (c & Hc & ->). simpl.
  revert i Hi Hc. induction w as [|a w IH]; intros i Hi Hc; simpl in *; [lia|].
  apply andb_true_iff in Hw as [Ha Hw].
  destruct i as [|i]; [congruence|]. apply (IH Hw i); [lia|done].
Qed.

Lemma letters_index_upper (i : Z) :
  0 <= i < 26 → uppercase_letter (string_index letters i) = true.
Proof.
  intros Hi.
  assert (Hn : (Z.to_nat i < 26)%nat) by lia.
  replace i with (Z.of_nat (Z.to_nat i)) by lia.
  generalize dependent (Z.to_nat i). clear i Hi. intros n Hn.
  do 26 (destruct n as [|n]; [reflexivity|]). lia.
Qed.

(** ** The validity check *)

Lemma canPlaceWord_loop_cons g word x y dx dy size i rest :
  canPlaceWord_loop g word x y dx dy size (i :: rest) =
  match check_target g word x y dx dy size i with
  | Ok true => canPlaceWord_loop g word x y dx dy size rest
  | r => r
  end.
Proof.
  unfold check_target. simpl.
  repeat (match goal with |- context [if ?b then _ else _] => destruct b end; try done).
  destruct (js_index g _); [|done].
  by destruct (_ && _).
Qed.

Lemma bounds_test (size x y : Z) :
  (x <? 0) || (x >=? size) || (y <? 0) || (y >=? size) = false ↔ in_bounds size x y.
Proof.
  unfold in_bounds. rewrite !orb_false_iff, !Z.ltb_ge, !Z.geb_leb, !Z.leb_gt. lia.
Qed.

Lemma check_target_true g word x y dx dy size i :
  (i < String.length word)%nat →
  check_target g word x y dx dy size i = Ok true ↔ target_ok g word x y dx dy size i.
Proof.
  intros Hi. destruct (string_index_nonempty word i Hi) as [Hne Hnu].
  unfold check_target, target_ok, target. simpl.
  set (cx := x + Z.of_nat i * dx). set (cy := y + Z.of_nat i * dy).
  destruct ((cx <? 0) || (cx >=? size) || (cy <? 0) || (cy >=? size)) eqn:Hb.
  { split; [done|]. intros [Hin _]. apply bounds_test in Hin. congruence. }
  apply bounds_test in Hb. unfold cell_at.
  destruct (js_index g cy) as [row|]; simpl.
  2:{ split; [done|]. intros [_ [?|?]]; done. }
  unfold strict_neq.
  destruct (js_index row cx) as [c|]; simpl.
  - destruct (decide (c = Str "")) as [->|E1].
    + rewrite bool_decide_eq_false_2 by naive_solver. simpl. naive_solver.
    + rewrite (bool_decide_eq_true_2 (c ≠ Str "")) by done. simpl.
      destruct (decide (c = string_index word (Z.of_nat i))) as [->|E2].
      * rewrite bool_decide_eq_false_2 by naive_solver. naive_solver.
      * rewrite bool_decide_eq_true_2 by done. naive_solver.
  - rewrite !bool_decide_eq_true_2 by done. simpl. naive_solver.
Qed.

Lemma check_target_false g word x y dx dy size i :
  target_bad g word x y dx dy size i →
  check_target g word x y dx dy size i = Ok false.
Proof.
  unfold check_target, target_bad, target. simpl.
  set (cx := x + Z.of_nat i * dx). set (cy := y + Z.of_nat i * dy).
  destruct ((cx <? 0) || (cx >=? size) || (cy <? 0) || (cy >=? size)) eqn:Hb; [done|].
  apply bounds_test in Hb. intros [?|(c & Hc & H1 & H2)]; [done|].
  unfold cell_at in Hc. destruct (js_index g cy) as [row|]; [|done]. simpl in Hc.
  rewrite Hc. simpl. unfold strict_neq. by rewrite !bool_decide_eq_true_2.
Qed.

(** On a square grid the round never throws. *)
Lemma check_target_square g word x y dx dy size i :
  square size g → ∃ b, check_target g word x y dx dy size i = Ok b.
Proof.
  intros Hsq. unfold check_target. simpl.
  set (cx := x + Z.of_nat i * dx). set (cy := y + Z.of_nat i * dy).
  destruct ((cx <? 0) || (cx >=? size) || (cy <? 0) || (cy >=? size)) eqn:Hb; [eauto|].
  apply bounds_test in Hb as [_ Hy].
  assert (Hlen : length g = Z.to_nat size).
  { unfold square, shape in Hsq. apply (f_equal length) in Hsq.
    by rewrite length_fmap, length_replicate in Hsq. }
  destruct (lookup_lt_is_Some_2 g (Z.to_nat cy)) as [row Hrow]; [lia|].
  replace (js_index g cy) with (Some row) by (symmetry; apply js_index_Some; split; [lia|done]).
  destruct (_ && _); eauto.
Qed.

Lemma canPlaceWord_loop_true g word x y dx dy size idxs :
  Forall (λ i, (i < String.length word)%nat) idxs →
  canPlaceWord_loop g word x y dx dy size idxs = Ok true ↔
  Forall (target_ok g word x y dx dy size) idxs.
Proof.
  induction 1 as [|i rest Hi _ IH]; [by split; [constructor|]|].
  rewrite canPlaceWord_loop_cons, Forall_cons, <- IH, <- check_target_true by done.
  destruct (check_target _ _ _ _ _ _ _ i) as [[]|]; naive_solver.
Qed.

Lemma canPlaceWord_loop_false g word x y dx dy size l1 i l2 :
  Forall (λ i, (i < String.length word)%nat) l1 →
  Forall (target_ok g word x y dx dy size) l1 →
  target_bad g word x y dx dy size i →
  canPlaceWord_loop g word x y dx dy size (l1 ++ i :: l2) = Ok false.
Proof.
  intros Hl1 Hok Hbad. induction Hl1 as [|j l1 Hj _ IH]; simpl app.
  - by rewrite canPlaceWord_loop_cons, check_target_false.
  - apply Forall_cons in Hok as [Hokj Hok].
    rewrite canPlaceWord_loop_cons.
    apply check_target_true in Hokj; [|done]. rewrite Hokj. by apply IH.
Qed.

Lemma canPlaceWord_loop_square g word x y dx dy size idxs :
  square size g → ∃ b, canPlaceWord_loop g word x y dx dy size idxs = Ok b.
Proof.
  intros Hsq. induction idxs as [|i rest IH]; [by exists true|].
  rewrite canPlaceWord_loop_cons.
  destruct (check_target_square g word x y dx dy size i Hsq) as [[] ->]; eauto.
Qed.

Lemma seq_lt_Forall (n : nat) : Forall (λ i, (i < n)%nat) (seq 0 n).
Proof. apply Forall_forall. intros i Hi. apply elem_of_seq in Hi. lia. Qed.

(** ** Writing a word *)

Lemma target_inj x y dx dy i j :
  (dx, dy) ≠ (0, 0) → target x y dx dy i = target x y dx dy j → i = j.
Proof.
  unfold target. intros Hd [= Hx Hy].
  destruct (decide (i = j)) as [|Hij]; [done|]. exfalso. apply Hd.
  assert (Z.of_nat i - Z.of_nat j ≠ 0) by lia.
  f_equal; nia.
Qed.

Lemma directions_nonzero dx dy : (dx, dy) ∈ directions → (dx, dy) ≠ (0, 0).
Proof.
  unfold directions. rewrite !elem_of_cons, elem_of_nil.
  intros H [= -> ->]. naive_solver.
Qed.

Lemma placeWord_loop_spec g word x y dx dy size idxs :
  (dx, dy) ≠ (0, 0) → NoDup idxs →
  Forall (target_ok g word x y dx dy size) idxs →
  ∃ g', placeWord_loop g word x y dx dy idxs = Ok g' ∧ shape g' = shape g ∧
    (∀ i, i ∈ idxs →
       cell_at g' (x + Z.of_nat i * dx) (y + Z.of_nat i * dy)
       = Some (string_index word (Z.of_nat i))) ∧
    (∀ cx cy, (∀ i, i ∈ idxs → target x y dx dy i ≠ (cx, cy)) →
       cell_at g' cx cy = cell_at g cx cy).
Proof.
  intros Hd Hnd. revert g. induction Hnd as [|i rest Hi Hnd IH]; intros g Hok.
  { exists g. simpl. split; [done|]. split; [done|]. split; [|done].
    intros i Hi. by apply elem_of_nil in Hi. }
  apply Forall_cons in Hok as [Hoki Hok].
  assert (is_Some (cell_at g (x + Z.of_nat i * dx) (y + Z.of_nat i * dy))) as [c Hc].
  { destruct Hoki as [_ [->| ->]]; eauto. }
  destruct (grid_set_Ok g _ _ (string_index word (Z.of_nat i)) c Hc)
    as (g1 & Hset & Hsh1 & Hnew & Hold).
  assert (Hfar : ∀ j, j ∈ rest → target x y dx dy j ≠ target x y dx dy i).
  { intros j Hj E. apply (target_inj _ _ _ _ _ _ Hd) in E. by subst. }
  destruct (IH g1) as (g' & Hrun & Hsh & Hin & Hout).
  { apply Forall_forall. intros j Hj. rewrite Forall_forall in Hok.
    specialize (Hok j Hj). unfold target_ok in *. simpl in *.
    rewrite Hold; [done|]. apply (Hfar j Hj). }
  exists g'. simpl. rewrite Hset. split; [done|]. split; [congruence|]. split.
  - intros j Hj. apply elem_of_cons in Hj as [->|Hj]; [|by apply Hin].
    rewrite Hout; [done|]. intros k Hk. by apply Hfar.
  - intros cx cy Hne. rewrite Hout.
    + apply Hold. intros E. apply (Hne i); [left|by rewrite E].
    + intros k Hk. apply Hne. by right.
Qed.

Lemma placeWord_loop_preserved g g' word x y dx dy size idxs :
  (dx, dy) ≠ (0, 0) → NoDup idxs →
  Forall (target_ok g word x y dx dy size) idxs →
  placeWord_loop g word x y dx dy idxs = Ok g' →
  preserved g g'.
Proof.
  intros Hd Hnd Hok Hrun.
  destruct (placeWord_loop_spec g word x y dx dy size idxs Hd Hnd Hok)
    as (g2 & Hrun2 & _ & Hin & Hout).
  assert (g2 = g') by congruence. subst g2.
  intros cx cy v Hv Hne.
  destruct (decide (Exists (λ i, target x y dx dy i = (cx, cy)) idxs)) as [Hex|Hex].
  - apply Exists_exists in Hex as (i & Hi & [= <- <-]).
    rewrite Forall_forall in Hok. destruct (Hok i Hi) as [_ [E|E]];
      simpl in E; rewrite Hv in E; [congruence|].
    rewrite Hin by done. congruence.
  - rewrite Hout; [done|]. intros i Hi E. apply Hex. apply Exists_exists. eauto.
Qed.

(** A valid candidate can be written, and the word is then on the grid. *)
Lemma placeWord_after_check g word x y dx dy size :
  (dx, dy) ∈ directions →
  canPlaceWord g word x y dx dy size = Ok true →
  ∃ g', placeWord g word x y dx dy = Ok g' ∧ shape g' = shape g ∧
        preserved g g' ∧
        (∀ i : nat, (i < String.length word)%nat →
           cell_at g' (x + Z.of_nat i * dx) (y + Z.of_nat i * dy)
           = Some (string_index word (Z.of_nat i))) ∧
        (∀ cx cy, (∀ i : nat, (i < String.length word)%nat → target x y dx dy i ≠ (cx, cy)) →
           cell_at g' cx cy = cell_at g cx cy).
Proof.
  intros Hd Hcan. apply directions_nonzero in Hd.
  apply canPlaceWord_loop_true in Hcan; [|apply seq_lt_Forall].
  destruct (placeWord_loop_spec g word x y dx dy size _ Hd (NoDup_seq 0 _) Hcan)
    as (g' & Hrun & Hsh & Hin & Hout).
  exists g'. split; [done|]. split; [done|]. split; [|split].
  - exact (placeWord_loop_preserved g g' word x y dx dy size _ Hd (NoDup_seq 0 _) Hcan Hrun).
  - intros i Hi. apply Hin. apply elem_of_seq. lia.
  - intros cx cy Hne. apply Hout. intros i Hi. apply Hne. apply elem_of_seq in Hi. lia.
Qed.

Lemma placeWord_loop_app g word x y dx dy l1 l2 :
  placeWord_loop g word x y dx dy (l1 ++ l2) =
  match placeWord_loop g word x y dx dy l1 with
  | Ok g1 => placeWord_loop g1 word x y dx dy l2
  | Err e => Err e
  end.
Proof.
  revert g. induction l1 as [|i l1 IH]; intros g; [done|]. simpl.
  destruct (grid_set g _ _ _) as [g1|e]; [apply IH|done].
Qed.

(** The grid after the first [k] letters of a valid placement: it keeps what
    the grid held before, and the finished placement keeps what it holds. *)
Lemma placeWord_prefix_preserved g word x y dx dy size (k : nat) :
  (dx, dy) ∈ directions →
  canPlaceWord g word x y dx dy size = Ok true →
  (k <= String.length word)%nat →
  ∃ gk g', placeWord_loop g word x y dx dy (seq 0 k) = Ok gk ∧
           placeWord g word x y dx dy = Ok g' ∧
           preserved g gk ∧ preserved gk g'.
Proof.
  intros Hd Hcan Hk. apply directions_nonzero in Hd.
  apply canPlaceWord_loop_true in Hcan; [|apply seq_lt_Forall].
  unfold placeWord.
  replace (String.length word) with (k + (String.length word - k))%nat in Hcan |- * by lia.
  rewrite seq_app in Hcan |- *. simpl in Hcan |- *.
  apply Forall_app in Hcan as [Hok1 Hok2].
  destruct (placeWord_loop_spec g word x y dx dy size _ Hd (NoDup_seq 0 k) Hok1)
    as (gk & Hrun1 & _ & _ & Hout1).
  assert (Hok2' : Forall (target_ok gk word x y dx dy size) (seq k (String.length word - k))).
  { apply Forall_forall. intros j Hj. rewrite Forall_forall in Hok2.
    specialize (Hok2 j Hj). unfold target_ok in *. simpl in *.
    rewrite Hout1; [done|]. intros i Hi E.
    apply (target_inj _ _ _ _ _ _ Hd) in E. subst i.
    apply elem_of_seq in Hi. apply elem_of_seq in Hj. lia. }
  destruct (placeWord_loop_spec gk word x y dx dy size _ Hd (NoDup_seq k _) Hok2')
    as (g' & Hrun2 & _).
  exists gk, g'. rewrite placeWord_loop_app, Hrun1, Hrun2.
  split; [done|]. split; [done|]. split.
  - exact (placeWord_loop_preserved g gk word x y dx dy size _ Hd (NoDup_seq 0 k) Hok1 Hrun1).
  - exact (placeWord_loop_preserved gk g' word x y dx dy size _ Hd (NoDup_seq k _) Hok2' Hrun2).
Qed.

Lemma preserved_refl g : preserved g g.
Proof. by intros x y v. Qed.

Lemma preserved_trans g1 g2 g3 : preserved g1 g2 → preserved g2 g3 → preserved g1 g3.
Proof. intros H12 H23 x y v Hv Hne. apply H23; [|done]. by apply H12. Qed.

Lemma traceable_preserved size g g' word :
  preserved g g' → traceable size g word → traceable size g' word.
Proof.
  intros Hp (x & y & dx & dy & Hin & Hd & Hrun).
  exists x, y, dx, dy. split; [done|]. split; [done|].
  intros i Hi. apply Hp; [by apply Hrun|]. by apply string_index_nonempty.
Qed.

(** ** One placement attempt *)

Lemma tick_tick a b s : tick a (tick b s) = tick (b + a) s.
Proof. unfold tick. simpl. f_equal. lia. Qed.

Lemma tick_0 s : tick 0 s = s.
Proof. destruct s. unfold tick. simpl. f_equal. lia. Qed.

Lemma candidate_direction rnd size c :
  ∃ dx dy x y, candidate rnd size c = Some (dx, dy, x, y) ∧ (dx, dy) ∈ directions ∧
    x = Math_floor_mul (rnd (c + 1)%nat) size ∧ y = Math_floor_mul (rnd (c + 2)%nat) size.
Proof.
  unfold candidate.
  pose proof (Math_floor_mul_range (rnd c) (Z.of_nat (length directions)) eq_refl) as Hr.
  set (k := Math_floor_mul (rnd c) (Z.of_nat (length directions))) in *.
  destruct (lookup_lt_is_Some_2 directions (Z.to_nat k)) as [[dx dy] Hd]; [lia|].
  replace (js_index directions k) with (Some (dx, dy))
    by (symmetry; apply js_index_Some; split; [lia|done]).
  exists dx, dy. simpl. eexists _, _. split; [done|]. split; [|done].
  by eapply list_elem_of_lookup_2.
Qed.

Lemma candidate_in_bounds rnd size c dx dy x y :
  0 < size → candidate rnd size c = Some (dx, dy, x, y) → in_bounds size x y.
Proof.
  intros Hs H. unfold candidate in H. apply bind_Some in H as (d & _ & [= _ _ <- <-]).
  split; by apply Math_floor_mul_range.
Qed.

Lemma random_below_eq rnd n s :
  random_below rnd n s = Returned (Math_floor_mul (rnd (random_calls s)) n) (tick 1 s).
Proof. reflexivity. Qed.

Lemma Array_push_eq p word pw s :
  heap s !! p = Some pw →
  Array_push p word s = Returned tt (set_heap (<[p := pw ++ [word]]> (heap s)) s).
Proof.
  intros H. unfold Array_push, mbind, M_bind, array_read. by rewrite H.
Qed.

(** The first round of the [while] loop, by cases on its candidate. *)
Lemma attempt_loop_S rnd p size word n a g s :
  attempt_loop rnd p size word (S n) a g s =
  match candidate rnd size (random_calls s) with
  | None => Thrown TypeError (tick 1 s)
  | Some (dx, dy, x, y) =>
    match canPlaceWord g word x y dx dy size with
    | Err e => Thrown e (tick 3 s)
    | Ok false => attempt_loop rnd p size word n (a + 1) g (tick 3 s)
    | Ok true =>
      match placeWord g word x y dx dy with
      | Err e => Thrown e (tick 3 s)
      | Ok g' => (_ ← Array_push p word; mret (g', true, a + 1)) (tick 3 s)
      end
    end
  end.
Proof.
  unfold candidate. simpl attempt_loop.
  unfold mbind at 1. unfold M_bind at 1. rewrite random_below_eq.
  destruct (js_index directions _) as [[dx dy]|]; [|done]. simpl.
  unfold mbind at 1. unfold M_bind at 1. rewrite random_below_eq.
  unfold mbind at 1. unfold M_bind at 1. rewrite random_below_eq.
  rewrite !tick_tick. simpl.
  replace (random_calls s + 1 + 1)%nat with (random_calls s + 2)%nat by lia.
  unfold mbind at 1. unfold M_bind at 1.
  destruct (canPlaceWord _ _ _ _ _ _ _) as [[]|e]; simpl; [|done|done].
  unfold mbind at 1. unfold M_bind at 1.
  destruct (placeWord _ _ _ _ _ _) as [g'|e]; simpl; done.
Qed.

Lemma attempt_loop_spec rnd p size word pw n a g s :
  square size g → heap s !! p = Some pw →
  (∃ k dx dy x y g',
      (k < n)%nat ∧
      (∀ j, (j < k)%nat → valid_attempt rnd g word size (random_calls s + 3 * j) = false) ∧
      candidate rnd size (random_calls s + 3 * k) = Some (dx, dy, x, y) ∧
      (dx, dy) ∈ directions ∧
      canPlaceWord g word x y dx dy size = Ok true ∧
      placeWord g word x y dx dy = Ok g' ∧
      attempt_loop rnd p size word n a g s =
        Returned (g', true, a + Z.of_nat (S k))
                 (set_heap (<[p := pw ++ [word]]> (heap s)) (tick (3 * S k) s)))
  ∨ ((∀ j, (j < n)%nat → valid_attempt rnd g word size (random_calls s + 3 * j) = false) ∧
     attempt_loop rnd p size word n a g s =
       Returned (g, false, a + Z.of_nat n) (tick (3 * n) s)).
Proof.
  intros Hsq. revert a s. induction n as [|n IH]; intros a s Hp.
  { right. split; [lia|]. simpl. rewrite tick_0, Z.add_0_r. done. }
  rewrite attempt_loop_S.
  destruct (candidate_direction rnd size (random_calls s))
    as (dx & dy & x & y & Hc & Hd & _ & _).
  rewrite Hc.
  destruct (canPlaceWord_loop_square g word x y dx dy size
              (seq 0 (String.length word)) Hsq) as [b Hb].
  fold (canPlaceWord g word x y dx dy size) in Hb. rewrite Hb. destruct b.
  - left. destruct (placeWord_after_check g word x y dx dy size Hd Hb)
      as (g' & Hpl & _).
    exists 0%nat, dx, dy, x, y, g'. rewrite Hpl.
    rewrite Nat.mul_0_r, Nat.add_0_r. repeat (split; [done || lia|]).
    unfold mbind, M_bind. rewrite (Array_push_eq p word pw) by done.
    simpl. unfold mret, M_ret. done.
  - assert (Hv0 : valid_attempt rnd g word size (random_calls s) = false).
    { unfold valid_attempt. by rewrite Hc, Hb. }
    destruct (IH (a + 1) (tick 3 s) Hp)
      as [(k & dx' & dy' & x' & y' & g' & Hk & Hinv & Hc' & Hd' & Hcan & Hpl & Hrun)
         |[Hinv Hrun]].
    + left. exists (S k), dx', dy', x', y', g'. simpl random_calls in *.
      split; [lia|]. split.
      { intros [|j] Hj; [by rewrite Nat.mul_0_r, Nat.add_0_r|].
        replace (random_calls s + 3 * S j)%nat with (random_calls s + 3 + 3 * j)%nat by lia.
        apply Hinv. lia. }
      replace (random_calls s + 3 * S k)%nat with (random_calls s + 3 + 3 * k)%nat by lia.
      repeat (split; [done|]). rewrite Hrun, tick_tick. simpl heap.
      f_equal; [f_equal; lia|]. f_equal. f_equal. lia.
    + right. simpl random_calls in *. split.
      { intros [|j] Hj; [by rewrite Nat.mul_0_r, Nat.add_0_r|].
        replace (random_calls s + 3 * S j)%nat with (random_calls s + 3 + 3 * j)%nat by lia.
        apply Hinv. lia. }
      rewrite Hrun, tick_tick. f_equal; [f_equal; lia|]. f_equal. lia.
Qed.

Lemma place_one_step rnd p size g word s pw :
  square size g → heap s !! p = Some pw →
  ∃ g' s', place_one rnd p size g word s = Returned g' s' ∧
           word_step rnd p size g word s g' s'.
Proof.
  intros Hsq Hp. unfold place_one.
  destruct (Z.gtb_spec (word_length word) size) as [Hlen|Hlen].
  { eexists _, _. split; [reflexivity|]. apply step_too_long. lia. }
  unfold mbind at 1. unfold M_bind at 1.
  destruct (attempt_loop_spec rnd p size word pw (Z.to_nat (maxAttempts - 0)) 0 g s Hsq Hp)
    as [(k & dx & dy & x & y & g' & Hk & Hinv & Hc & Hd & Hcan & Hpl & Hrun)
       |[Hinv Hrun]]; rewrite Hrun; simpl.
  - eexists _, _. split; [reflexivity|].
    change (Z.to_nat (maxAttempts - 0)) with 100%nat in Hk.
    eapply step_placed; eauto.
  - eexists _, _. split; [reflexivity|].
    apply step_not_placed; [lia|done].
Qed.

(** ** The noise fill *)

Lemma fill_cell_spec rnd c s :
  ∃ c' k, fill_cell rnd c s = Returned c' (tick k s) ∧ filled c c'.
Proof.
  unfold fill_cell, filled. destruct (decide (c = Str "")) as [Hc|Hc].
  - rewrite bool_decide_eq_true_2 by done.
    exists (string_index letters (Math_floor_mul (rnd (random_calls s)) (word_length letters))), 1%nat.
    split; [reflexivity|]. apply letters_index_upper.
    by apply (Math_floor_mul_range _ 26).
  - rewrite bool_decide_eq_false_2 by done. exists c, 0%nat. by rewrite tick_0.
Qed.

Lemma fill_row_spec rnd row s :
  ∃ row' k, fill_row rnd row s = Returned row' (tick k s) ∧ Forall2 filled row row'.
Proof.
  revert s. induction row as [|c row IH]; intros s.
  { exists [], 0%nat. rewrite tick_0. by split; [|constructor]. }
  destruct (fill_cell_spec rnd c s) as (c' & k1 & Hc & Hf).
  destruct (IH (tick k1 s)) as (row' & k2 & Hr & Hfr).
  exists (c' :: row'), (k1 + k2)%nat. split; [|by constructor].
  simpl. unfold mbind, M_bind. rewrite Hc, Hr, tick_tick. done.
Qed.

Lemma fillEmptyCells_spec rnd g s :
  ∃ g' k, fillEmptyCells rnd g s = Returned g' (tick k s) ∧ Forall2 (Forall2 filled) g g'.
Proof.
  revert s. induction g as [|row g IH]; intros s.
  { exists [], 0%nat. rewrite tick_0. by split; [|constructor]. }
  destruct (fill_row_spec rnd row s) as (row' & k1 & Hc & Hf).
  destruct (IH (tick k1 s)) as (g' & k2 & Hr & Hfr).
  exists (row' :: g'), (k1 + k2)%nat. split; [|by constructor].
  simpl. unfold mbind, M_bind. rewrite Hc, Hr, tick_tick. done.
Qed.

Lemma filled_shape g g' : Forall2 (Forall2 filled) g g' → shape g' = shape g.
Proof.
  unfold shape. induction 1 as [|row row' g g' Hrow _ IH]; [done|].
  simpl. f_equal; [|done]. symmetry. by eapply Forall2_length.
Qed.

Lemma filled_cell_at g g' x y v :
  Forall2 (Forall2 filled) g g' → cell_at g x y = Some v →
  ∃ v', cell_at g' x y = Some v' ∧ filled v v'.
Proof.
  intros HF Hv. apply cell_at_Some in Hv as (row & Hy & Hr & Hx & Hc).
  destruct (Forall2_lookup_l _ _ _ _ _ HF Hr) as (row' & Hr' & HFr).
  destruct (Forall2_lookup_l _ _ _ _ _ HFr Hc) as (v' & Hc' & Hf).
  exists v'. split; [|done]. apply cell_at_Some. eauto 6.
Qed.

Lemma filled_preserved g g' : Forall2 (Forall2 filled) g g' → preserved g g'.
Proof.
  intros HF x y v Hv Hne.
  destruct (filled_cell_at g g' x y v HF Hv) as (v' & Hv' & Hf).
  unfold filled in Hf. rewrite decide_False in Hf by done. congruence.
Qed.

Lemma filled_all_letters g g' :
  Forall2 (Forall2 filled) g g' →
  Forall (Forall letter_or_empty) g →
  Forall (Forall (λ v, uppercase_letter v = true)) g'.
Proof.
  induction 1 as [|row row' g g' Hrow _ IH]; intros Hg; [constructor|].
  apply Forall_cons in Hg as [Hr Hg]. constructor; [|by apply IH].
  clear IH Hg. induction Hrow as [|c c' row row' Hc _ IH]; [constructor|].
  apply Forall_cons in Hr as [Hc0 Hr]. constructor; [|by apply IH].
  unfold filled in Hc. destruct (decide (c = Str "")); [done|].
  subst c'. by destruct Hc0.
Qed.

(** ** The loop over the words *)

Lemma word_step_shape rnd p size g word s g' s' :
  word_step rnd p size g word s g' s' → shape g' = shape g.
Proof.
  destruct 1 as [|k dx dy x y pw g' _ _ _ _ Hd Hcan Hpl _|]; try done.
  destruct (placeWord_after_check g word x y dx dy size Hd Hcan) as (g2 & Hpl2 & Hsh & _).
  congruence.
Qed.

Lemma word_step_preserved rnd p size g word s g' s' :
  word_step rnd p size g word s g' s' → preserved g g'.
Proof.
  destruct 1 as [|k dx dy x y pw g' _ _ _ _ Hd Hcan Hpl _|]; try apply preserved_refl.
  destruct (placeWord_after_check g word x y dx dy size Hd Hcan) as (g2 & Hpl2 & _ & Hp & _).
  assert (g2 = g') by congruence. by subst g2.
Qed.

(** The words a step appends to [placedWords]: none or the word itself. *)
Lemma word_step_heap rnd p size g word s g' s' pw :
  word_step rnd p size g word s g' s' → heap s !! p = Some pw →
  (heap s' = heap s ∧ console s' ≠ console s) ∨
  (heap s' = <[p := pw ++ [word]]> (heap s) ∧ console s' = console s ∧
   word_length word <= size ∧ (0 < size → traceable size g' word)).
Proof.
  destruct 1 as [|k dx dy x y pw' g' Hlen _ _ Hc Hd Hcan Hpl Hp|]; intros Hpw.
  - left. split; [done|]. simpl. intros E.
    apply (f_equal length) in E. rewrite length_app in E. simpl in E. lia.
  - right. simpl. assert (pw' = pw) by congruence. subst pw'.
    repeat (split; [done|]). intros Hsize.
    destruct (placeWord_after_check g word x y dx dy size Hd Hcan)
      as (g2 & Hpl2 & _ & _ & Hin & _).
    assert (g2 = g') by congruence. subst g2.
    exists x, y, dx, dy. split; [by eapply candidate_in_bounds|]. done.
  - left. split; [done|]. simpl. intros E.
    apply (f_equal length) in E. rewrite length_app in E. simpl in E. lia.
Qed.

Lemma place_words_run rnd p size ws g s pw :
  square size g → heap s !! p = Some pw →
  ∃ g' s', place_words rnd p size ws g s = Returned g' s' ∧
           words_run rnd p size g ws s g' s'.
Proof.
  revert g s pw. induction ws as [|w ws IH]; intros g s pw Hsq Hp.
  { exists g, s. split; [done|constructor]. }
  destruct (place_one_step rnd p size g w s pw Hsq Hp) as (g1 & s1 & H1 & Hstep).
  assert (Hsq1 : square size g1).
  { unfold square. by rewrite (word_step_shape _ _ _ _ _ _ _ _ Hstep). }
  assert (∃ pw1, heap s1 !! p = Some pw1) as [pw1 Hp1].
  { destruct (word_step_heap _ _ _ _ _ _ _ _ pw Hstep Hp) as [[-> _]|[-> _]]; [eauto|].
    exists (pw ++ [w]). apply list_lookup_insert_eq. by eapply lookup_lt_Some. }
  destruct (IH g1 s1 pw1 Hsq1 Hp1) as (g2 & s2 & H2 & Hrun).
  exists g2, s2. split; [|by econstructor].
  simpl. unfold mbind, M_bind. by rewrite H1.
Qed.

(** ** The whole generator *)

Lemma empty_grid_square size : square size (empty_grid size).
Proof.
  unfold square, shape, empty_grid. rewrite fmap_replicate. by rewrite length_replicate.
Qed.

Lemma generateWordSearch_eq rnd words size s ws :
  0 <= size < 2 ^ 32 → heap s !! words = Some ws →
  generateWordSearch rnd words size s =
  (g ← place_words rnd (length (heap s)) size (stable_sort by_length_desc ws) (empty_grid size);
   g ← fillEmptyCells rnd g;
   mret (g, length (heap s))) (loop_entry ws s).
Proof.
  intros Hsize Hw. unfold generateWordSearch, new_grid.
  replace ((size <? 0) || (2 ^ 32 <=? size)) with false
    by (symmetry; apply orb_false_iff; split; [apply Z.ltb_ge | apply Z.leb_gt]; lia).
  unfold mbind at 1. unfold M_bind at 1. unfold mret at 1. unfold M_ret at 1.
  unfold mbind at 1. unfold M_bind at 1. unfold array_new at 1.
  unfold mbind at 1. unfold M_bind at 1.
  assert (Hw1 : (heap s ++ [[]]) !! words = Some ws) by (by apply lookup_app_l_Some).
  assert (Hspread : spread words (set_heap (heap s ++ [[]]) s)
                    = Returned (S (length (heap s))) (set_heap ((heap s ++ [[]]) ++ [ws]) s)).
  { unfold spread, mbind, M_bind, array_read. simpl. rewrite Hw1.
    unfold array_new. simpl. rewrite length_app. simpl. f_equal. lia. }
  rewrite Hspread.
  unfold mbind at 1. unfold M_bind at 1.
  assert (Hlast : ∀ xs, ((heap s ++ [[]]) ++ [xs]) !! S (length (heap s)) = Some xs).
  { intros xs. rewrite lookup_app_r; rewrite length_app; simpl; [|lia].
    by replace (S (length (heap s)) - (length (heap s) + 1))%nat with 0%nat by lia. }
  assert (Hsort : Array_sort (λ a b : string, word_length b - word_length a) (S (length (heap s)))
                    (set_heap ((heap s ++ [[]]) ++ [ws]) s)
                  = Returned (S (length (heap s))) (loop_entry ws s)).
  { unfold Array_sort, mbind, M_bind, array_read. simpl. rewrite Hlast.
    unfold array_write, mret, M_ret, loop_entry, set_heap. simpl. do 2 f_equal.
    rewrite insert_app_r_alt; rewrite length_app; simpl; [|lia].
    by replace (S (length (heap s)) - (length (heap s) + 1))%nat with 0%nat by lia. }
  rewrite Hsort.
  unfold mbind at 1. unfold M_bind at 1. unfold array_read at 1.
  unfold loop_entry at 1. simpl heap. rewrite Hlast. done.
Qed.

Lemma loop_entry_placed ws s : heap (loop_entry ws s) !! length (heap s) = Some [].
Proof.
  unfold loop_entry. simpl. rewrite <- app_assoc. simpl. by apply list_lookup_middle.
Qed.

(** A run of the generator: the loop over the sorted words, then the fill. *)
Lemma generateWordSearch_run rnd words size s ws :
  0 <= size < 2 ^ 32 → heap s !! words = Some ws →
  ∃ g1 s1 g2 k,
    place_words rnd (length (heap s)) size (stable_sort by_length_desc ws)
                (empty_grid size) (loop_entry ws s) = Returned g1 s1 ∧
    words_run rnd (length (heap s)) size (empty_grid size)
              (stable_sort by_length_desc ws) (loop_entry ws s) g1 s1 ∧
    fillEmptyCells rnd g1 s1 = Returned g2 (tick k s1) ∧
    Forall2 (Forall2 filled) g1 g2 ∧
    generateWordSearch rnd words size s = Returned (g2, length (heap s)) (tick k s1).
Proof.
  intros Hsize Hw.
  destruct (place_words_run rnd (length (heap s)) size (stable_sort by_length_desc ws)
              (empty_grid size) (loop_entry ws s) [] (empty_grid_square size)
              (loop_entry_placed ws s)) as (g1 & s1 & Hrun & Hrel).
  destruct (fillEmptyCells_spec rnd g1 s1) as (g2 & k & Hfill & Hf).
  exists g1, s1, g2, k. repeat (split; [done|]).
  rewrite (generateWordSearch_eq rnd words size s ws Hsize Hw).
  unfold mbind, M_bind. by rewrite Hrun, Hfill.
Qed.

(** ** Invariants of the loop over the words *)

Lemma words_run_shape rnd p size g ws s g' s' :
  words_run rnd p size g ws s g' s' → shape g' = shape g.
Proof.
  induction 1 as [|g w ws s g1 s1 g2 s2 Hstep _ IH]; [done|].
  rewrite IH. by eapply word_step_shape.
Qed.

Lemma words_run_preserved rnd p size g ws s g' s' :
  words_run rnd p size g ws s g' s' → preserved g g'.
Proof.
  induction 1 as [|g w ws s g1 s1 g2 s2 Hstep _ IH]; [apply preserved_refl|].
  eapply preserved_trans; [|exact IH]. by eapply word_step_preserved.
Qed.

(** What a run appends to [placedWords]. *)
Lemma words_run_heap rnd p size g ws s g' s' pw :
  words_run rnd p size g ws s g' s' → heap s !! p = Some pw →
  ∃ added, heap s' = <[p := pw ++ added]> (heap s) ∧
           sublist added ws ∧
           Forall (λ w, word_length w <= size) added ∧
           (0 < size → Forall (traceable size g') added).
Proof.
  intros Hrun. revert pw.
  induction Hrun as [g s|g w ws s g1 s1 g2 s2 Hstep Hrun IH]; intros pw Hp.
  { exists []. rewrite app_nil_r, list_insert_id by done. by repeat split. }
  assert (Hlt : (p < length (heap s))%nat) by by eapply lookup_lt_Some.
  destruct (word_step_heap _ _ _ _ _ _ _ _ pw Hstep Hp)
    as [[Hh _]|(Hh & _ & Hlen & Htr)].
  - destruct (IH pw) as (added & Hh2 & Hsub & Hlens & Htrs); [by rewrite Hh|].
    exists added. rewrite Hh2, Hh. split; [done|]. split; [by apply sublist_cons|done].
  - destruct (IH (pw ++ [w])) as (added & Hh2 & Hsub & Hlens & Htrs).
    { rewrite Hh. by apply list_lookup_insert_eq. }
    exists (w :: added). rewrite Hh2, Hh, list_insert_insert_eq, <- app_assoc.
    split; [done|]. split; [by apply sublist_skip|]. split; [by constructor|].
    intros Hsize. constructor; [|by apply Htrs].
    eapply traceable_preserved; [|by apply Htr]. by eapply words_run_preserved.
Qed.

Lemma word_step_console rnd p size g word s g' s' :
  word_step rnd p size g word s g' s' →
  console s `prefix_of` console s' ∧
  (word_length word > size → WarnTooLong word ∈ console s').
Proof.
  destruct 1; simpl; (split; [done || by apply prefix_app_r|]); try lia.
  intros _. apply elem_of_app. right. by left.
Qed.

Lemma words_run_console rnd p size g ws s g' s' :
  words_run rnd p size g ws s g' s' →
  console s `prefix_of` console s' ∧
  ∀ w, w ∈ ws → word_length w > size → WarnTooLong w ∈ console s'.
Proof.
  induction 1 as [g s|g w ws s g1 s1 g2 s2 Hstep Hrun [IHp IH]].
  { split; [done|]. intros w Hw. by apply elem_of_nil in Hw. }
  destruct (word_step_console _ _ _ _ _ _ _ _ Hstep) as [Hp1 Hw1].
  split; [by etrans|]. intros w' Hin Hlen.
  apply elem_of_cons in Hin as [->|Hin]; [|by apply IH].
  destruct IHp as [more ->]. apply elem_of_app. left. by apply Hw1.
Qed.

(** Cells seen through [cell_at], and as lists. *)
Lemma all_cells_Forall (P : jsval → Prop) (g : grid) :
  Forall (Forall P) g ↔ ∀ x y v, cell_at g x y = Some v → P v.
Proof.
  split.
  - intros HF x y v Hv. apply cell_at_Some in Hv as (row & _ & Hr & _ & Hc).
    rewrite Forall_lookup in HF. specialize (HF _ _ Hr).
    rewrite Forall_lookup in HF. by apply (HF _ _ Hc).
  - intros H. apply Forall_lookup. intros i row Hr.
    apply Forall_lookup. intros j v Hc.
    apply (H (Z.of_nat j) (Z.of_nat i)). apply cell_at_Some.
    exists row. rewrite !Nat2Z.id. repeat split; (done || lia).
Qed.

Lemma word_step_letters rnd p size g word s g' s' :
  word_step rnd p size g word s g' s' →
  uppercase_word word = true →
  Forall (Forall letter_or_empty) g → Forall (Forall letter_or_empty) g'.
Proof.
  destruct 1 as [|k dx dy x y pw g' _ _ _ _ Hd Hcan Hpl _|]; try done.
  intros Hup Hg. rewrite all_cells_Forall in Hg. apply all_cells_Forall.
  destruct (placeWord_after_check g word x y dx dy size Hd Hcan)
    as (g2 & Hpl2 & _ & _ & Hin & Hout).
  assert (g2 = g') by congruence. subst g2. intros cx cy v Hv.
  destruct (decide (Exists (λ i, target x y dx dy i = (cx, cy))
                           (seq 0 (String.length word)))) as [Hex|Hex].
  - apply Exists_exists in Hex as (i & Hi & [= <- <-]).
    apply elem_of_seq in Hi. rewrite Hin in Hv by lia.
    injection Hv as <-. right. apply uppercase_word_index; [done|lia].
  - rewrite Hout in Hv; [by eapply Hg|].
    intros i Hi E. apply Hex. apply Exists_exists. exists i. split; [|done].
    apply elem_of_seq. lia.
Qed.

Lemma words_run_letters rnd p size g ws s g' s' :
  words_run rnd p size g ws s g' s' →
  Forall (λ w, uppercase_word w = true) ws →
  Forall (Forall letter_or_empty) g → Forall (Forall letter_or_empty) g'.
Proof.
  induction 1 as [|g w ws s g1 s1 g2 s2 Hstep _ IH]; [done|].
  intros Hws Hg. apply Forall_cons in Hws as [Hw Hws].
  apply IH; [done|]. by eapply word_step_letters.
Qed.

Lemma empty_grid_letters size : Forall (Forall letter_or_empty) (empty_grid size).
Proof.
  unfold empty_grid. apply Forall_replicate, Forall_replicate. by left.
Qed.

Lemma square_dims size g :
  0 <= size → square size g →
  Z.of_nat (length g) = size ∧ Forall (λ row, Z.of_nat (length row) = size) g.
Proof.
  intros Hs Hsq. unfold square, shape in Hsq. split.
  - apply (f_equal length) in Hsq. rewrite length_fmap, length_replicate in Hsq. lia.
  - apply Forall_lookup. intros i row Hr.
    apply (f_equal (λ l, l !! i)) in Hsq. rewrite list_lookup_fmap, Hr in Hsq.
    simpl in Hsq. symmetry in Hsq. apply lookup_replicate in Hsq as [Hsq _].
    lia.
Qed.

(** ** The sort *)

Section Sort.

Context {A : Type} (key : A → Z).

(** Sorting by descending key, as the comparator [(a, b) => key b - key a]
    does. *)
Let cmp (a b : A) : Z := key b - key a.

Lemma sort_insert_Permutation x l : sort_insert cmp x l ≡ₚ x :: l.
Proof.
  induction l as [|y l IH]; simpl; [done|].
  destruct (cmp x y <=? 0); [done|]. rewrite IH. apply Permutation_swap.
Qed.

Lemma stable_sort_Permutation l : stable_sort cmp l ≡ₚ l.
Proof.
  induction l as [|x l IH]; simpl; [done|].
  rewrite sort_insert_Permutation. by constructor.
Qed.

Lemma sort_insert_sorted x l :
  StronglySorted (descending key) l → StronglySorted (descending key) (sort_insert cmp x l).
Proof.
  induction 1 as [|y l Hl IH Hy]; simpl; [repeat constructor|].
  unfold cmp at 1. destruct (Z.leb_spec (key y - key x) 0) as [Hle|Hgt].
  - constructor; [by constructor|]. constructor; [unfold descending; lia|].
    eapply Forall_impl; [exact Hy|]. unfold descending. intros z Hz. lia.
  - constructor; [done|]. rewrite sort_insert_Permutation.
    constructor; [unfold descending; lia|done].
Qed.

Lemma stable_sort_sorted l : StronglySorted (descending key) (stable_sort cmp l).
Proof.
  induction l as [|x l IH]; simpl; [constructor|]. by apply sort_insert_sorted.
Qed.

(** Stability: the elements of equal key keep their order. *)
Lemma sort_insert_stable n x l :
  filter (λ a, key a = n) (sort_insert cmp x l) = filter (λ a, key a = n) (x :: l).
Proof.
  induction l as [|y l IH]; simpl; [done|].
  unfold cmp at 1. destruct (Z.leb_spec (key y - key x) 0) as [Hle|Hgt]; [done|].
  rewrite filter_cons, IH, !filter_cons.
  destruct (decide (key y = n)), (decide (key x = n)); (done || lia).
Qed.

Lemma stable_sort_stable n l :
  filter (λ a, key a = n) (stable_sort cmp l) = filter (λ a, key a = n) l.
Proof.
  induction l as [|x l IH]; simpl; [done|].
  rewrite sort_insert_stable, !filter_cons, IH. done.
Qed.

End Sort.

Lemma sorted_words_Permutation ws : stable_sort by_length_desc ws ≡ₚ ws.
Proof. apply (stable_sort_Permutation word_length). Qed.

(** ** Which words end up placed *)

Lemma word_step_placeable rnd p size g word s g' s' pw :
  word_step rnd p size g word s g' s' → heap s !! p = Some pw →
  heap s' = <[p := pw ++ (if placeable rnd g word size (random_calls s) then [word] else [])]> (heap s).
Proof.
  unfold placeable.
  destruct 1 as [Hlen|k dx dy x y pw' g' Hlen Hk _ Hc _ Hcan _ Hp|Hlen Hinv]; intros Hpw.
  - replace (word_length word <=? size) with false by (symmetry; apply Z.leb_gt; lia).
    simpl. by rewrite app_nil_r, list_insert_id.
  - replace (word_length word <=? size) with true by (symmetry; apply Z.leb_le; lia).
    assert (pw' = pw) by congruence. subst pw'.
    assert (Hex : existsb (λ j, valid_attempt rnd g word size (random_calls s + 3 * j))
                          (seq 0 100) = true).
    { apply existsb_exists. exists k. split; [apply in_seq; lia|].
      unfold valid_attempt. by rewrite Hc, Hcan. }
    by rewrite Hex, andb_true_l.
  - assert (Hex : existsb (λ j, valid_attempt rnd g word size (random_calls s + 3 * j))
                          (seq 0 100) = false).
    { apply not_true_is_false. intros Hex.
      apply existsb_exists in Hex as (j & Hj & Hv). apply in_seq in Hj.
      rewrite Hinv in Hv by lia. done. }
    rewrite Hex, andb_false_r. simpl. by rewrite app_nil_r, list_insert_id.
Qed.

Lemma place_words_placed rnd p size ws g s pw :
  square size g → heap s !! p = Some pw →
  ∃ g' s', place_words rnd p size ws g s = Returned g' s' ∧
           heap s' = <[p := pw ++ successfully_placed rnd p size ws g s]> (heap s).
Proof.
  revert g s pw. induction ws as [|w ws IH]; intros g s pw Hsq Hp.
  { exists g, s. split; [done|]. simpl. by rewrite app_nil_r, list_insert_id. }
  destruct (place_one_step rnd p size g w s pw Hsq Hp) as (g1 & s1 & H1 & Hstep).
  pose proof (word_step_placeable _ _ _ _ _ _ _ _ pw Hstep Hp) as Hh1.
  assert (Hlt : (p < length (heap s))%nat) by by eapply lookup_lt_Some.
  assert (Hsq1 : square size g1).
  { unfold square. by rewrite (word_step_shape _ _ _ _ _ _ _ _ Hstep). }
  destruct (IH g1 s1 (pw ++ (if placeable rnd g w size (random_calls s) then [w] else []))
              Hsq1) as (g2 & s2 & H2 & Hh2).
  { rewrite Hh1. by apply list_lookup_insert_eq. }
  exists g2, s2. simpl. unfold mbind, M_bind. rewrite H1. split; [done|].
  by rewrite Hh2, Hh1, list_insert_insert_eq, <- app_assoc.
Qed.

Lemma successfully_placed_sublist rnd p size ws g s :
  sublist (successfully_placed rnd p size ws g s) ws.
Proof.
  revert g s. induction ws as [|w ws IH]; intros g s; simpl; [done|].
  destruct (place_one rnd p size g w s) as [g' s'|e]; [|apply sublist_nil_l].
  destruct (placeable _ _ _ _ _); simpl; [by apply sublist_skip|by apply sublist_cons].
Qed.

Lemma place_words_app rnd p size ws1 ws2 g s :
  place_words rnd p size (ws1 ++ ws2) g s =
  (g1 ← place_words rnd p size ws1 g; place_words rnd p size ws2 g1) s.
Proof.
  revert g s. induction ws1 as [|w ws1 IH]; intros g s; [done|].
  simpl. unfold mbind, M_bind.
  destruct (place_one rnd p size g w s) as [g1 s1|e]; [|done]. apply IH.
Qed.

(** ** Runs in step *)

Lemma agree_bind {A B : Type} (R R' : state → state → Prop)
    (m1 m2 : M A) (f1 f2 : A → M B) s1 s2 :
  agree R (m1 s1) (m2 s2) →
  (∀ a s1' s2', R s1' s2' → agree R' (f1 a s1') (f2 a s2')) →
  agree R' ((m1 ≫= f1) s1) ((m2 ≫= f2) s2).
Proof.
  unfold mbind, M_bind, agree. intros Hm Hf.
  destruct (m1 s1) as [a1 s1'|e1 s1'], (m2 s2) as [a2 s2'|e2 s2']; try done.
  destruct Hm as [-> HR]. by apply Hf.
Qed.

Section InStep.

Variables rnd1 rnd2 : nat → unit_sample.
Variables p1 p2 : loc.
Variables b1 b2 : state.

Let R := in_step rnd1 rnd2 p1 p2 b1 b2.

Lemma in_step_tick s1 s2 k : R s1 s2 → R (tick k s1) (tick k s2).
Proof.
  intros [[Hs Hp] (d & w & Hd1 & Hd2 & Hc1 & Hc2)]. split; [split; [|done]|].
  - intros j. simpl. rewrite <- !Nat.add_assoc. apply Hs.
  - exists (d + k)%nat, w. simpl. repeat split; (done || lia).
Qed.

Lemma random_below_agree n s1 s2 :
  R s1 s2 → agree R (random_below rnd1 n s1) (random_below rnd2 n s2).
Proof.
  intros HR. rewrite !random_below_eq. split; [|by apply in_step_tick].
  apply Math_floor_mul_ext. destruct HR as [[Hs _] _].
  specialize (Hs 0%nat). by rewrite !Nat.add_0_r in Hs.
Qed.

Lemma lift_agree {A : Type} (r : result A) s1 s2 :
  R s1 s2 → agree R (lift r s1) (lift r s2).
Proof. intros HR. by destruct r. Qed.

Lemma console_warn_agree w s1 s2 :
  R s1 s2 → agree R (console_warn w s1) (console_warn w s2).
Proof.
  intros [Ha (d & ws & Hd1 & Hd2 & Hc1 & Hc2)]. split; [done|]. split; [done|].
  exists d, (ws ++ [w]). simpl. rewrite Hc1, Hc2, <- !app_assoc. done.
Qed.

Lemma Array_push_agree word s1 s2 :
  R s1 s2 → agree R (Array_push p1 word s1) (Array_push p2 word s2).
Proof.
  intros [[Hs (pw & H1 & H2)] He].
  rewrite (Array_push_eq p1 word pw), (Array_push_eq p2 word pw) by done.
  split; [done|]. split; [|done]. split; [done|]. exists (pw ++ [word]). simpl.
  split; apply list_lookup_insert_eq; by eapply lookup_lt_Some.
Qed.

Lemma attempt_loop_agree size word n a g s1 s2 :
  R s1 s2 →
  agree R (attempt_loop rnd1 p1 size word n a g s1)
          (attempt_loop rnd2 p2 size word n a g s2).
Proof.
  revert a s1 s2. induction n as [|n IH]; intros a s1 s2 HR; [by split|]. simpl.
  eapply agree_bind; [by apply random_below_agree|]. intros dirIndex t1 t2 HR1.
  destruct (js_index directions dirIndex) as [[dx dy]|]; [|done].
  eapply agree_bind; [by apply random_below_agree|]. intros startX u1 u2 HR2.
  eapply agree_bind; [by apply random_below_agree|]. intros startY v1 v2 HR3.
  eapply agree_bind; [by apply lift_agree|]. intros [] w1 w2 HR4; [|by apply IH].
  eapply agree_bind; [by apply lift_agree|]. intros g' x1 x2 HR5.
  eapply agree_bind; [by apply Array_push_agree|]. intros ? y1 y2 HR6. by split.
Qed.

Lemma place_one_agree size g word s1 s2 :
  R s1 s2 →
  agree R (place_one rnd1 p1 size g word s1) (place_one rnd2 p2 size g word s2).
Proof.
  intros HR. unfold place_one. destruct (word_length word >? size).
  { eapply agree_bind; [by apply console_warn_agree|]. intros ? t1 t2 HR1. by split. }
  eapply agree_bind; [by apply attempt_loop_agree|]. intros [[g' placed] a] t1 t2 HR1.
  destruct placed; simpl; [split; [done|exact HR1]|].
  split; [done|]. apply (console_warn_agree (WarnNotPlaced word maxAttempts) t1 t2 HR1).
Qed.

Lemma place_words_agree size ws g s1 s2 :
  R s1 s2 →
  agree R (place_words rnd1 p1 size ws g s1) (place_words rnd2 p2 size ws g s2).
Proof.
  revert g s1 s2. induction ws as [|w ws IH]; intros g s1 s2 HR; [by split|]. simpl.
  eapply agree_bind; [by apply place_one_agree|]. intros g' t1 t2 HR1. by apply IH.
Qed.

Lemma fill_cell_agree c s1 s2 :
  R s1 s2 → agree R (fill_cell rnd1 c s1) (fill_cell rnd2 c s2).
Proof.
  intros HR. unfold fill_cell. case_bool_decide; [|by split].
  eapply agree_bind; [by apply random_below_agree|]. intros i t1 t2 HR1. by split.
Qed.

Lemma fill_row_agree row s1 s2 :
  R s1 s2 → agree R (fill_row rnd1 row s1) (fill_row rnd2 row s2).
Proof.
  revert s1 s2. induction row as [|c row IH]; intros s1 s2 HR; [by split|]. simpl.
  eapply agree_bind; [by apply fill_cell_agree|]. intros c' t1 t2 HR1.
  eapply agree_bind; [by apply IH|]. intros row' u1 u2 HR2. by split.
Qed.

Lemma fillEmptyCells_agree g s1 s2 :
  R s1 s2 → agree R (fillEmptyCells rnd1 g s1) (fillEmptyCells rnd2 g s2).
Proof.
  revert s1 s2. induction g as [|row g IH]; intros s1 s2 HR; [by split|]. simpl.
  eapply agree_bind; [by apply fill_row_agree|]. intros row' t1 t2 HR1.
  eapply agree_bind; [by apply IH|]. intros g' u1 u2 HR2. by split.
Qed.

End InStep.

(** ** What the words leave in the cells *)

Lemma from_words_app_l ws1 ws2 v : from_words ws1 v → from_words (ws1 ++ ws2) v.
Proof.
  intros (word & i & Hin & Hi & ->). exists word, i.
  split; [apply elem_of_app; by left|done].
Qed.

Lemma word_step_provenance rnd p size g word s g' s' pw :
  word_step rnd p size g word s g' s' → heap s !! p = Some pw →
  (∀ x y v, cell_at g x y = Some v → v = Str "" ∨ from_words pw v) →
  ∃ added,
    heap s' = <[p := pw ++ added]> (heap s) ∧
    ∀ x y v, cell_at g' x y = Some v → v = Str "" ∨ from_words (pw ++ added) v.
Proof.
  destruct 1 as [Hlen|k dx dy x y pw' g' _ _ _ _ Hd Hcan Hpl Hp|Hlen _]; intros Hpw Hg.
  - exists []. simpl. by rewrite app_nil_r, list_insert_id.
  - assert (pw' = pw) by congruence. subst pw'. exists [word]. split; [done|].
    destruct (placeWord_after_check g word x y dx dy size Hd Hcan)
      as (g2 & Hpl2 & _ & _ & Hin & Hout).
    assert (g2 = g') by congruence. subst g2. intros cx cy v Hv.
    destruct (decide (Exists (λ i, target x y dx dy i = (cx, cy))
                             (seq 0 (String.length word)))) as [Hex|Hex].
    + apply Exists_exists in Hex as (i & Hi & [= <- <-]).
      apply elem_of_seq in Hi. rewrite Hin in Hv by lia.
      injection Hv as <-. right. exists word, i.
      split; [apply elem_of_app; right; by left|]. split; [lia|done].
    + rewrite Hout in Hv.
      * destruct (Hg _ _ _ Hv) as [?|?]; [by left|right; by apply from_words_app_l].
      * intros i Hi E. apply Hex. apply Exists_exists. exists i. split; [|done].
        apply elem_of_seq. lia.
  - exists []. simpl. by rewrite app_nil_r, list_insert_id.
Qed.

Lemma words_run_provenance rnd p size g ws s g' s' pw :
  words_run rnd p size g ws s g' s' → heap s !! p = Some pw →
  (∀ x y v, cell_at g x y = Some v → v = Str "" ∨ from_words pw v) →
  ∃ added,
    heap s' = <[p := pw ++ added]> (heap s) ∧
    ∀ x y v, cell_at g' x y = Some v → v = Str "" ∨ from_words (pw ++ added) v.
Proof.
  intros Hrun. revert pw.
  induction Hrun as [g s|g w ws s g1 s1 g2 s2 Hstep Hrun IH]; intros pw Hp Hg.
  { exists []. by rewrite app_nil_r, list_insert_id. }
  assert (Hlt : (p < length (heap s))%nat) by by eapply lookup_lt_Some.
  destruct (word_step_provenance _ _ _ _ _ _ _ _ pw Hstep Hp Hg) as (a1 & Hh1 & Hg1).
  destruct (IH (pw ++ a1)) as (a2 & Hh2 & Hg2); [|done|].
  { rewrite Hh1. by apply list_lookup_insert_eq. }
  exists (a1 ++ a2). rewrite Hh2, Hh1, list_insert_insert_eq, <- !app_assoc in *. done.
Qed.

Lemma filled_cell_at_r g g' x y v' :
  Forall2 (Forall2 filled) g g' → cell_at g' x y = Some v' →
  ∃ v, cell_at g x y = Some v ∧ filled v v'.
Proof.
  intros HF Hv. apply cell_at_Some in Hv as (row' & Hy & Hr & Hx & Hc).
  destruct (Forall2_lookup_r _ _ _ _ _ HF Hr) as (row & Hr' & HFr).
  destruct (Forall2_lookup_r _ _ _ _ _ HFr Hc) as (v & Hc' & Hf).
  exists v. split; [|done]. apply cell_at_Some. eauto 6.
Qed.

(** ** The column split *)

Lemma Math_ceil_div_2 (n : Z) : Math_ceil_div n 2 = (n + 1) / 2.
Proof. unfold Math_ceil_div. Z.div_mod_to_equations. lia. Qed.

Lemma split_columns (placedWords : list string) :
  let midPoint := Math_ceil_div (Z.of_nat (length placedWords)) 2 in
  Array_slice placedWords 0 (Some midPoint) = take (Z.to_nat midPoint) placedWords ∧
  Array_slice placedWords midPoint None = drop (Z.to_nat midPoint) placedWords ∧
  0 <= midPoint <= Z.of_nat (length placedWords).
Proof.
  intros midPoint.
  assert (Hmid : 0 <= midPoint <= Z.of_nat (length placedWords)).
  { unfold midPoint. rewrite Math_ceil_div_2. Z.div_mod_to_equations. lia. }
  unfold Array_slice, slice_bound. simpl (0 <? 0).
  destruct (Z.ltb_spec midPoint 0); [lia|].
  rewrite (Z.min_l midPoint) by lia. rewrite (Z.min_l 0) by lia.
  split; [|split; [|done]].
  - simpl. by rewrite Z.sub_0_r.
  - apply take_ge. rewrite length_drop. lia.
Qed.

(** ** Concrete runs *)

Example run_cat_dog :
  placed_of (generateWordSearch rnd16 0%nat 5 (initial_state ["CAT"; "DOG"]))
  = Some ["CAT"; "DOG"].
Proof. vm_compute. reflexivity. Qed.

Example run_cat_dog_grid :
  grid_of (generateWordSearch rnd16 0%nat 5 (initial_state ["CAT"; "DOG"]))
  = [ [Str "G"; Str "W"; Str "C"; Str "A"; Str "T"];
      [Str "O"; Str "I"; Str "T"; Str "E"; Str "Q"];
      [Str "D"; Str "B"; Str "N"; Str "Y"; Str "J"];
      [Str "V"; Str "G"; Str "R"; Str "D"; Str "O"];
      [Str "A"; Str "L"; Str "W"; Str "I"; Str "T"] ].
Proof. vm_compute. reflexivity. Qed.

Example run_longest_first :
  placed_of (generateWordSearch rnd16 0%nat 5 (initial_state ["DOG"; "AB"; "CAT"; "HORSE"]))
  = Some ["DOG"; "CAT"; "AB"].
Proof. vm_compute. reflexivity. Qed.

Example run_too_long :
  let o := generateWordSearch rnd16 0%nat 10 (initial_state ["SUPERCALIFRAGILISTIC"]) in
  placed_of o = Some [] ∧ warnings_of o = [WarnTooLong "SUPERCALIFRAGILISTIC"] ∧
  length (grid_of o) = 10%nat.
Proof. vm_compute. repeat split. Qed.

Example run_no_words :
  let o := generateWordSearch rnd16 0%nat default_size (initial_state []) in
  placed_of o = Some [] ∧ warnings_of o = [] ∧ length (grid_of o) = 15%nat.
Proof. vm_compute. repeat split. Qed.

Example run_crowded :
  let o := generateWordSearch rnd_zero 0%nat 3 (initial_state ["CAT"; "DOG"; "AB"]) in
  placed_of o = Some ["CAT"] ∧
  warnings_of o = [WarnNotPlaced "DOG" 100; WarnNotPlaced "AB" 100].
Proof. vm_compute. repeat split. Qed.

Example run_one_word :
  place_one rnd16 1%nat 5 (empty_grid 5) "CAT" (loop_entry demo_words (initial_state demo_words))
  = Returned
      [ [Str ""; Str ""; Str "C"; Str "A"; Str "T"];
        [Str ""; Str ""; Str ""; Str ""; Str ""];
        [Str ""; Str ""; Str ""; Str ""; Str ""];
        [Str ""; Str ""; Str ""; Str ""; Str ""];
        [Str ""; Str ""; Str ""; Str ""; Str ""] ]
      {| heap := [demo_words; ["CAT"]; ["ELEPHANT"; "HORSE"; "CAT"; "DOG"]];
         random_calls := 12; console := [] |}.
Proof. vm_compute. reflexivity. Qed.

Example run_not_only_letters :
  let o := generateWordSearch rnd_zero 0%nat 3 (initial_state ["A-1"]) in
  placed_of o = Some ["A-1"] ∧
  grid_of o = [ [Str "A"; Str "A"; Str "A"];
                [Str "-"; Str "A"; Str "A"];
                [Str "1"; Str "A"; Str "A"] ].
Proof. vm_compute. repeat split. Qed.

(** The product of a sample and an integer is rounded before the floor is
    taken: the double [0.7] is below seven tenths, and [0.7 * 10] is the
    double 7. *)
Example draw_seven_tenths :
  Math_floor_mul seven_tenths 10 = 7 ∧ num seven_tenths * 10 / den seven_tenths = 6.
Proof. vm_compute. repeat split. Qed.

Example draw_six_tenths :
  Math_floor_mul six_tenths 15 = 9 ∧ num six_tenths * 15 / den six_tenths = 8.
Proof. vm_compute. repeat split. Qed.

Example draw_almost_one :
  Math_floor_mul almost_one 26 = 25 ∧ Math_floor_mul almost_one 15 = 14 ∧
  Math_floor_mul almost_one (2 ^ 32 - 1) = 2 ^ 32 - 2.
Proof. vm_compute. repeat split. Qed.

Example run_negative_size :
  generateWordSearch rnd16 0%nat (-1) (initial_state ["CAT"])
  = Thrown RangeError (initial_state ["CAT"]).
Proof. reflexivity. Qed.

Example check_shared_letter :
  canPlaceWord [ [Str "C"; Str "A"; Str "T"]; [Str ""; Str ""; Str ""]; [Str ""; Str ""; Str ""] ]
               "TO" 2 0 0 1 3 = Ok true.
Proof. reflexivity. Qed.

Example check_other_letter :
  canPlaceWord [ [Str "C"; Str "A"; Str "T"]; [Str ""; Str ""; Str ""]; [Str ""; Str ""; Str ""] ]
               "DO" 2 0 0 1 3 = Ok false.
Proof. reflexivity. Qed.

Example check_leaves_grid :
  canPlaceWord (empty_grid 3) "HORSE" 0 0 1 1 3 = Ok false.
Proof. reflexivity. Qed.

Example columns_of_five :
  createPuzzleHTML_columns ["A"; "B"; "C"; "D"; "E"] = (["A"; "B"; "C"], ["D"; "E"]).
Proof. reflexivity. Qed.

(** ** What a returned run looks like *)

Lemma generateWordSearch_range rnd words size s :
  ¬ (0 <= size < 2 ^ 32) → generateWordSearch rnd words size s = Thrown RangeError s.
Proof.
  intros Hsize. unfold generateWordSearch, new_grid.
  replace ((size <? 0) || (2 ^ 32 <=? size)) with true; [done|].
  symmetry. apply orb_true_iff.
  destruct (Z.ltb_spec size 0); [by left|]. right. apply Z.leb_le. lia.
Qed.

Lemma generateWordSearch_inv rnd words size s ws g p s' :
  heap s !! words = Some ws →
  generateWordSearch rnd words size s = Returned (g, p) s' →
  0 <= size < 2 ^ 32 ∧ p = length (heap s) ∧
  ∃ g1 s1,
    place_words rnd p size (stable_sort by_length_desc ws)
                (empty_grid size) (loop_entry ws s) = Returned g1 s1 ∧
    words_run rnd p size (empty_grid size)
              (stable_sort by_length_desc ws) (loop_entry ws s) g1 s1 ∧
    fillEmptyCells rnd g1 s1 = Returned g s' ∧
    Forall2 (Forall2 filled) g1 g ∧ heap s' = heap s1 ∧ console s' = console s1.
Proof.
  intros Hw Hgen. destruct (decide (0 <= size < 2 ^ 32)) as [Hsize|Hsize].
  2:{ by rewrite generateWordSearch_range in Hgen. }
  destruct (generateWordSearch_run rnd words size s ws Hsize Hw)
    as (g1 & s1 & g2 & k & Hrun & Hrel & Hfill & Hf & Hgen2).
  rewrite Hgen2 in Hgen. injection Hgen as <- <- <-.
  split; [done|]. split; [done|]. exists g1, s1. done.
Qed.

Lemma words_run_placed_lookup rnd p size g ws s g' s' :
  words_run rnd p size g ws s g' s' → heap s !! p = Some [] →
  ∃ placed, heap s' !! p = Some placed ∧ sublist placed ws ∧
            Forall (λ w, word_length w <= size) placed ∧
            (0 < size → Forall (traceable size g') placed) ∧
            ∀ a, a ≠ p → heap s' !! a = heap s !! a.
Proof.
  intros Hrun Hp.
  destruct (words_run_heap _ _ _ _ _ _ _ _ [] Hrun Hp) as (added & Hheap & Hsub & Hlen & Htr).
  exists added. rewrite Hheap. split; [|split; [done|split; [done|split; [done|]]]].
  - apply list_lookup_insert_eq. by eapply lookup_lt_Some.
  - intros a Ha. by apply list_lookup_insert_ne.
Qed.

(** * Properties of the generator *)

(** C1. Every word of the [placedWords] list that [generateWordSearch]
    returns can be traced in the returned grid: there are a start cell inside
    the grid and one of the eight directions such that letter [i] of the word
    is in the cell [i] steps from the start in that direction.  The call
    returns for every positive [size] that is an array length. *)
Theorem placed_words_traceable rnd (words : loc) size s ws :
  0 < size → heap s !! words = Some ws →
  (size < 2 ^ 32 →
   ∃ g placedWords s', generateWordSearch rnd words size s = Returned (g, placedWords) s') ∧
  ∀ g placedWords s',
    generateWordSearch rnd words size s = Returned (g, placedWords) s' →
    ∃ placed,
      heap s' !! placedWords = Some placed ∧
      ∀ word, word ∈ placed →
        ∃ x y dx dy,
          in_bounds size x y ∧ (dx, dy) ∈ directions ∧
          ∀ i : nat, (i < String.length word)%nat →
            cell_at g (x + Z.of_nat i * dx) (y + Z.of_nat i * dy)
            = Some (string_index word (Z.of_nat i)).
Proof.
  intros Hsize Hw. split.
  { intros Hmax. destruct (generateWordSearch_run rnd words size s ws)
      as (g1 & s1 & g2 & k & _ & _ & _ & _ & Hgen); [lia|done|]. eauto. }
  intros g p s' Hgen.
  destruct (generateWordSearch_inv rnd words size s ws g p s' Hw Hgen)
    as (_ & -> & g1 & s1 & _ & Hrun & _ & Hf & Hheap & _).
  destruct (words_run_placed_lookup _ _ _ _ _ _ _ _ Hrun (loop_entry_placed ws s))
    as (placed & Hp & _ & _ & Htr & _).
  exists placed. rewrite Hheap. split; [done|].
  intros word Hin. specialize (Htr Hsize). rewrite Forall_forall in Htr.
  apply (traceable_preserved size g1 g word (filled_preserved _ _ Hf)). by apply Htr.
Qed.

Lemma placed_words_traceable_witness :
  0 < 5 ∧ heap (initial_state demo_words) !! 0%nat = Some demo_words ∧
  (5 < 2 ^ 32 →
   ∃ g placedWords s',
     generateWordSearch rnd16 0%nat 5 (initial_state demo_words)
     = Returned (g, placedWords) s') ∧
  ∀ g placedWords s',
    generateWordSearch rnd16 0%nat 5 (initial_state demo_words) = Returned (g, placedWords) s' →
    ∃ placed,
      heap s' !! placedWords = Some placed ∧
      ∀ word, word ∈ placed →
        ∃ x y dx dy,
          in_bounds 5 x y ∧ (dx, dy) ∈ directions ∧
          ∀ i : nat, (i < String.length word)%nat →
            cell_at g (x + Z.of_nat i * dx) (y + Z.of_nat i * dy)
            = Some (string_index word (Z.of_nat i)).
Proof.
  split; [lia|]. split; [reflexivity|].
  apply (placed_words_traceable rnd16 0%nat 5 (initial_state demo_words) demo_words);
    [lia | reflexivity].
Defined.

(** C2, as amended.  For every word list and every positive [size], the
    grid that [generateWordSearch] returns has [size] rows of [size] cells,
    and every cell holds exactly one character, none is left empty: an
    uppercase letter from A to Z, or a character of one of the words of the
    returned [placedWords].  When the words are made of the letters A to Z
    only, every cell holds an uppercase letter from A to Z.  The word list may
    be empty or hold only words that are too long.  The call returns for
    every positive [size] that is an array length. *)
Theorem grid_fully_lettered rnd (words : loc) size s ws :
  0 < size → heap s !! words = Some ws →
  (size < 2 ^ 32 →
   ∃ g placedWords s', generateWordSearch rnd words size s = Returned (g, placedWords) s') ∧
  ∀ g placedWords s',
    generateWordSearch rnd words size s = Returned (g, placedWords) s' →
    Z.of_nat (length g) = size ∧
    Forall (λ row, Z.of_nat (length row) = size) g ∧
    Forall (Forall (λ cell, ∃ c, cell = Str (String c EmptyString))) g ∧
    (∃ placed,
       heap s' !! placedWords = Some placed ∧
       Forall (Forall (λ cell, uppercase_letter cell = true ∨ from_words placed cell)) g) ∧
    (forallb uppercase_word ws = true →
     Forall (Forall (λ cell, uppercase_letter cell = true)) g).
Proof.
  intros Hsize Hw. split.
  { intros Hmax. destruct (generateWordSearch_run rnd words size s ws)
      as (g1 & s1 & g2 & k & _ & _ & _ & _ & Hgen); [lia|done|]. eauto. }
  intros g p s' Hgen.
  destruct (generateWordSearch_inv rnd words size s ws g p s' Hw Hgen)
    as (_ & -> & g1 & s1 & _ & Hrun & _ & Hf & Hheap & _).
  assert (Hsq : square size g).
  { unfold square. rewrite (filled_shape _ _ Hf), (words_run_shape _ _ _ _ _ _ _ _ Hrun).
    apply empty_grid_square. }
  destruct (square_dims size g ltac:(lia) Hsq) as [Hrows Hcols].
  destruct (words_run_provenance _ _ _ _ _ _ _ _ [] Hrun (loop_entry_placed ws s))
    as (placed & Hh1 & Hg1).
  { intros x y v Hv. left.
    apply cell_at_Some in Hv as (row & _ & Hr & _ & Hc). unfold empty_grid in Hr.
    apply lookup_replicate in Hr as [-> _]. by apply lookup_replicate in Hc as [-> _]. }
  assert (Hcells : ∀ x y v, cell_at g x y = Some v →
                     uppercase_letter v = true ∨ from_words placed v).
  { intros x y v' Hv'.
    destruct (filled_cell_at_r _ _ _ _ _ Hf Hv') as (v & Hv & Hfv).
    unfold filled in Hfv. destruct (decide (v = Str "")) as [->|Hne]; [by left|].
    subst v'. destruct (Hg1 _ _ _ Hv) as [?|Hfrom]; [done|]. by right. }
  split; [done|]. split; [done|]. split; [|split].
  - apply all_cells_Forall. intros x y v Hv.
    destruct (Hcells x y v Hv) as [Hup|(word & i & _ & Hi & ->)].
    + destruct v as [|[|c []]]; try done. by exists c.
    + destruct (string_index_lt word i Hi) as (c & _ & ->). by exists c.
  - exists placed. split; [|by apply all_cells_Forall].
    rewrite Hheap, Hh1. apply list_lookup_insert_eq.
    eapply lookup_lt_Some, loop_entry_placed.
  - intros Hup. apply (filled_all_letters g1 g Hf).
    eapply words_run_letters; [exact Hrun| |apply empty_grid_letters].
    rewrite sorted_words_Permutation. apply Forall_forall. intros w Hin.
    rewrite forallb_forall in Hup. apply Hup. by apply list_elem_of_In.
Qed.

Lemma grid_fully_lettered_witness :
  0 < 5 ∧ heap (initial_state ["CAT"; "R2D2"]) !! 0%nat = Some ["CAT"; "R2D2"] ∧
  (5 < 2 ^ 32 →
   ∃ g placedWords s',
     generateWordSearch rnd_zero 0%nat 5 (initial_state ["CAT"; "R2D2"])
     = Returned (g, placedWords) s') ∧
  ∀ g placedWords s',
    generateWordSearch rnd_zero 0%nat 5 (initial_state ["CAT"; "R2D2"])
      = Returned (g, placedWords) s' →
    Z.of_nat (length g) = 5 ∧
    Forall (λ row, Z.of_nat (length row) = 5) g ∧
    Forall (Forall (λ cell, ∃ c, cell = Str (String c EmptyString))) g ∧
    (∃ placed,
       heap s' !! placedWords = Some placed ∧
       Forall (Forall (λ cell, uppercase_letter cell = true ∨ from_words placed cell)) g) ∧
    (forallb uppercase_word ["CAT"; "R2D2"] = true →
     Forall (Forall (λ cell, uppercase_letter cell = true)) g).
Proof.
  split; [lia|]. split; [reflexivity|].
  apply (grid_fully_lettered rnd_zero 0%nat 5 (initial_state ["CAT"; "R2D2"])
           ["CAT"; "R2D2"]); [lia | reflexivity].
Defined.

(** The claim as it was stated fails for a word with a character that is not
    a letter.  The reader turns the line [r2d2] into the word [R2D2]; with a
    source that always returns 0 the word goes down the first column of the
    default grid from its top cell, and the second cell of that column holds
    the digit 2. *)
Lemma grid_fully_lettered_counterexample :
  readWordLists "r2d2" = Ok [["R2D2"]] ∧
  0 < default_size ∧
  heap (initial_state ["R2D2"]) !! 0%nat = Some ["R2D2"] ∧
  ∃ g placedWords s',
    generateWordSearch rnd_zero 0%nat default_size (initial_state ["R2D2"])
      = Returned (g, placedWords) s' ∧
    heap s' !! placedWords = Some ["R2D2"] ∧
    cell_at g 0 1 = Some (Str "2") ∧
    uppercase_letter (Str "2") = false ∧
    ¬ Forall (Forall (λ cell, uppercase_letter cell = true)) g.
Proof.
  split; [reflexivity|]. split; [reflexivity|]. split; [reflexivity|].
  eexists _, _, _. split; [vm_compute; reflexivity|].
  split; [reflexivity|]. split; [reflexivity|]. split; [reflexivity|].
  intros Hall. rewrite all_cells_Forall in Hall.
  by specialize (Hall 0 1 (Str "2") eq_refl).
Qed.

(** C3. Once a cell holds something other than the empty string it keeps
    that value for the rest of the run.  A placement that passed the validity
    check leaves every such cell as it was, after each of its letters, and
    so does the noise fill; in a run of the generator, the grid reached after
    any number of words is kept by the grid after all the words and by the
    returned grid. *)
Theorem letters_never_overwritten rnd (words : loc) size s ws :
  heap s !! words = Some ws →
  (∀ (g : grid) word x y dx dy sz,
     (dx, dy) ∈ directions →
     canPlaceWord g word x y dx dy sz = Ok true →
     ∃ g', placeWord g word x y dx dy = Ok g' ∧ preserved g g' ∧
           ∀ k : nat, (k <= String.length word)%nat →
             ∃ gk, placeWord_loop g word x y dx dy (seq 0 k) = Ok gk ∧
                   preserved g gk ∧ preserved gk g') ∧
  (∀ (g : grid) s0,
     ∃ g' s', fillEmptyCells rnd g s0 = Returned g' s' ∧ preserved g g') ∧
  (0 <= size < 2 ^ 32 →
   ∃ g placedWords s', generateWordSearch rnd words size s = Returned (g, placedWords) s') ∧
  (∀ g3 placedWords s3 ws1 ws2,
     generateWordSearch rnd words size s = Returned (g3, placedWords) s3 →
     stable_sort by_length_desc ws = ws1 ++ ws2 →
     ∃ g1 s1 g2 s2,
       place_words rnd placedWords size ws1 (empty_grid size) (loop_entry ws s)
         = Returned g1 s1 ∧
       place_words rnd placedWords size ws2 g1 s1 = Returned g2 s2 ∧
       fillEmptyCells rnd g2 s2 = Returned g3 s3 ∧
       preserved (empty_grid size) g1 ∧
       preserved g1 g2 ∧ preserved g2 g3 ∧ preserved g1 g3).
Proof.
  intros Hw. split; [|split; [|split]].
  - intros g word x y dx dy sz Hd Hcan.
    destruct (placeWord_after_check g word x y dx dy sz Hd Hcan) as (g' & Hpl & _ & Hp & _).
    exists g'. split; [done|]. split; [done|]. intros k Hk.
    destruct (placeWord_prefix_preserved g word x y dx dy sz k Hd Hcan Hk)
      as (gk & g2 & Hrun & Hpl2 & H1 & H2).
    assert (g2 = g') by congruence. subst g2. eauto.
  - intros g s0. destruct (fillEmptyCells_spec rnd g s0) as (g' & k & Hfill & Hf).
    exists g', (tick k s0). split; [done|]. by apply filled_preserved.
  - intros Hsize. destruct (generateWordSearch_run rnd words size s ws)
      as (g1 & s1 & g2 & k & _ & _ & _ & _ & Hgen); [lia|done|]. eauto.
  - intros g3 p s3 ws1 ws2 Hgen Hsplit.
    destruct (generateWordSearch_inv rnd words size s ws g3 p s3 Hw Hgen)
      as (_ & -> & g2 & s2 & Hall & _ & Hfill & Hf & _).
    set (p := length (heap s)) in *.
    destruct (place_words_run rnd p size ws1 (empty_grid size) (loop_entry ws s) []
                (empty_grid_square size) (loop_entry_placed ws s))
      as (g1 & s1 & Hrun1 & Hrel1).
    rewrite Hsplit, place_words_app in Hall.
    unfold mbind, M_bind in Hall. rewrite Hrun1 in Hall.
    destruct (words_run_placed_lookup _ _ _ _ _ _ _ _ Hrel1 (loop_entry_placed ws s))
      as (placed & Hp1 & _).
    assert (Hsq1 : square size g1).
    { unfold square. rewrite (words_run_shape _ _ _ _ _ _ _ _ Hrel1).
      apply empty_grid_square. }
    destruct (place_words_run rnd p size ws2 g1 s1 placed Hsq1 Hp1)
      as (g2' & s2' & Hrun2 & Hrel2).
    rewrite Hrun2 in Hall. injection Hall as -> ->.
    exists g1, s1, g2, s2.
    pose proof (words_run_preserved _ _ _ _ _ _ _ _ Hrel1) as H01.
    pose proof (words_run_preserved _ _ _ _ _ _ _ _ Hrel2) as H12.
    pose proof (filled_preserved _ _ Hf) as H23.
    repeat (split; [done|]). by eapply preserved_trans.
Qed.

Lemma letters_never_overwritten_witness :
  heap (initial_state demo_words) !! 0%nat = Some demo_words ∧
  (0 <= 5 < 2 ^ 32 →
   ∃ g placedWords s',
     generateWordSearch rnd16 0%nat 5 (initial_state demo_words)
     = Returned (g, placedWords) s') ∧
  (∀ g3 placedWords s3 ws1 ws2,
     generateWordSearch rnd16 0%nat 5 (initial_state demo_words)
       = Returned (g3, placedWords) s3 →
     stable_sort by_length_desc demo_words = ws1 ++ ws2 →
     ∃ g1 s1 g2 s2,
       place_words rnd16 placedWords 5 ws1 (empty_grid 5)
                   (loop_entry demo_words (initial_state demo_words)) = Returned g1 s1 ∧
       place_words rnd16 placedWords 5 ws2 g1 s1 = Returned g2 s2 ∧
       fillEmptyCells rnd16 g2 s2 = Returned g3 s3 ∧
       preserved (empty_grid 5) g1 ∧
       preserved g1 g2 ∧ preserved g2 g3 ∧ preserved g1 g3).
Proof.
  split; [reflexivity|].
  apply (letters_never_overwritten rnd16 0%nat 5 (initial_state demo_words) demo_words).
  reflexivity.
Defined.

(** C4. The validity check succeeds exactly when every letter of the word
    has its target cell inside the grid, empty or already holding that letter.
    It answers [false] at the first letter whose target is outside the grid or
    holds another value, whatever comes after; on a square grid it always
    answers. *)
Theorem canPlaceWord_valid_iff (g : grid) word startX startY dx dy size :
  (canPlaceWord g word startX startY dx dy size = Ok true ↔
   ∀ i : nat, (i < String.length word)%nat →
     in_bounds size (startX + Z.of_nat i * dx) (startY + Z.of_nat i * dy) ∧
     (cell_at g (startX + Z.of_nat i * dx) (startY + Z.of_nat i * dy) = Some (Str "") ∨
      cell_at g (startX + Z.of_nat i * dx) (startY + Z.of_nat i * dy)
      = Some (string_index word (Z.of_nat i)))) ∧
  (∀ i : nat, (i < String.length word)%nat →
     (∀ j : nat, (j < i)%nat → target_ok g word startX startY dx dy size j) →
     (¬ in_bounds size (startX + Z.of_nat i * dx) (startY + Z.of_nat i * dy) ∨
      ∃ c, cell_at g (startX + Z.of_nat i * dx) (startY + Z.of_nat i * dy) = Some c ∧
           c ≠ Str "" ∧ c ≠ string_index word (Z.of_nat i)) →
     canPlaceWord g word startX startY dx dy size = Ok false) ∧
  (square size g → ∃ b, canPlaceWord g word startX startY dx dy size = Ok b).
Proof.
  split; [|split].
  - unfold canPlaceWord. rewrite canPlaceWord_loop_true by apply seq_lt_Forall.
    rewrite Forall_forall. split.
    + intros H i Hi. apply (H i). apply elem_of_seq. lia.
    + intros H i Hi. apply elem_of_seq in Hi. apply (H i). lia.
  - intros i Hi Hbefore Hbad. unfold canPlaceWord.
    replace (String.length word) with (i + S (String.length word - S i))%nat by lia.
    rewrite seq_app. simpl.
    apply canPlaceWord_loop_false; [| |exact Hbad].
    + apply Forall_forall. intros j Hj. apply elem_of_seq in Hj. lia.
    + apply Forall_forall. intros j Hj. apply elem_of_seq in Hj. apply Hbefore. lia.
  - apply canPlaceWord_loop_square.
Qed.

(** C5. A word longer than [size] is skipped with a warning: the loop goes
    on with the remaining words on the same grid, and the word is not in the
    returned [placedWords] list, all of whose words fit the grid. *)
Theorem too_long_words_skipped rnd (words : loc) size s ws :
  heap s !! words = Some ws →
  (∀ placedWords g word rest s0,
     word_length word > size →
     place_words rnd placedWords size (word :: rest) g s0
     = place_words rnd placedWords size rest g (log (WarnTooLong word) s0)) ∧
  (0 <= size < 2 ^ 32 →
   ∃ g placedWords s', generateWordSearch rnd words size s = Returned (g, placedWords) s') ∧
  ∀ g placedWords s',
    generateWordSearch rnd words size s = Returned (g, placedWords) s' →
    ∃ placed,
      heap s' !! placedWords = Some placed ∧
      (∀ word, word ∈ placed → word_length word <= size) ∧
      (∀ word, word ∈ ws → word_length word > size →
         (word ∉ placed) ∧ WarnTooLong word ∈ console s').
Proof.
  intros Hw. split; [|split].
  { intros p g word rest s0 Hlen. simpl. unfold mbind, M_bind, place_one.
    destruct (Z.gtb_spec (word_length word) size); [done|lia]. }
  { intros Hsize. destruct (generateWordSearch_run rnd words size s ws)
      as (g1 & s1 & g2 & k & _ & _ & _ & _ & Hgen); [lia|done|]. eauto. }
  intros g p s' Hgen.
  destruct (generateWordSearch_inv rnd words size s ws g p s' Hw Hgen)
    as (_ & -> & g1 & s1 & _ & Hrun & _ & _ & Hheap & Hcons).
  destruct (words_run_placed_lookup _ _ _ _ _ _ _ _ Hrun (loop_entry_placed ws s))
    as (placed & Hp & _ & Hlens & _).
  destruct (words_run_console _ _ _ _ _ _ _ _ Hrun) as [_ Hwarn].
  rewrite Forall_forall in Hlens.
  exists placed. rewrite Hheap, Hcons. split; [done|]. split; [exact Hlens|].
  intros word Hin Hlen. split.
  - intros Hpl. specialize (Hlens word Hpl). simpl in Hlens. lia.
  - apply Hwarn; [|done]. by rewrite sorted_words_Permutation.
Qed.

Lemma too_long_words_skipped_witness :
  heap (initial_state demo_words) !! 0%nat = Some demo_words ∧
  (0 <= 5 < 2 ^ 32 →
   ∃ g placedWords s',
     generateWordSearch rnd16 0%nat 5 (initial_state demo_words)
     = Returned (g, placedWords) s') ∧
  ∀ g placedWords s',
    generateWordSearch rnd16 0%nat 5 (initial_state demo_words) = Returned (g, placedWords) s' →
    ∃ placed,
      heap s' !! placedWords = Some placed ∧
      (∀ word, word ∈ placed → word_length word <= 5) ∧
      (∀ word, word ∈ demo_words → word_length word > 5 →
         (word ∉ placed) ∧ WarnTooLong word ∈ console s').
Proof.
  split; [reflexivity|].
  apply (too_long_words_skipped rnd16 0%nat 5 (initial_state demo_words) demo_words).
  reflexivity.
Defined.

(** C6. For a word that fits the grid the loop makes between 1 and 100
    attempts of three draws each: a direction among the eight and a start cell
    inside the grid.  Every attempt but the last fails the validity check.
    Either the last one passes: then the word is written, letter by letter
    along its run from the start cell, every other cell and the size of the
    grid stay as they were, the word is pushed on [placedWords] and nothing
    is printed.  Or all 100 attempts fail: then the grid and [placedWords]
    stay as they were and a warning is printed.
    A draw [Math.floor(Math.random() * n)] is below [n], every value below
    [n] is the draw of some sample, and the samples [u] that give the draw
    [i] are those between [i / n] and [(i + 1) / n], up to the rounding of
    the product [u * n] to a double: one part in [2 ^ 53].  The product with
    8 is exact, so the eight directions are the eight equal parts of the
    unit interval.
    From every state of the loop, the loop over the remaining words and the
    fill return; so does the generator, for every [size] that is an array
    length. *)
Theorem bounded_retry rnd (words : loc) size s ws :
  0 < size → heap s !! words = Some ws →
  (∀ placedWords (g : grid) word s0 pw,
     square size g → heap s0 !! placedWords = Some pw → word_length word <= size →
     ∃ g' s' (k : nat),
       place_one rnd placedWords size g word s0 = Returned g' s' ∧
       (1 <= k <= 100)%nat ∧
       random_calls s' = (random_calls s0 + 3 * k)%nat ∧
       square size g' ∧
       (∀ j, (j < k)%nat → ∃ dx dy x y,
          candidate rnd size (random_calls s0 + 3 * j) = Some (dx, dy, x, y) ∧
          (dx, dy) ∈ directions ∧ in_bounds size x y) ∧
       (∀ j, (S j < k)%nat →
          valid_attempt rnd g word size (random_calls s0 + 3 * j) = false) ∧
       ((∃ dx dy x y,
           candidate rnd size (random_calls s0 + 3 * (k - 1)) = Some (dx, dy, x, y) ∧
           canPlaceWord g word x y dx dy size = Ok true ∧
           placeWord g word x y dx dy = Ok g' ∧
           (∀ i : nat, (i < String.length word)%nat →
              cell_at g' (x + Z.of_nat i * dx) (y + Z.of_nat i * dy)
              = Some (string_index word (Z.of_nat i))) ∧
           (∀ cx cy,
              (∀ i : nat, (i < String.length word)%nat →
                 (x + Z.of_nat i * dx, y + Z.of_nat i * dy) ≠ (cx, cy)) →
              cell_at g' cx cy = cell_at g cx cy) ∧
           heap s' = <[placedWords := pw ++ [word]]> (heap s0) ∧
           console s' = console s0)
        ∨ (k = 100%nat ∧
           valid_attempt rnd g word size (random_calls s0 + 3 * 99) = false ∧
           g' = g ∧ heap s' = heap s0 ∧
           console s' = console s0 ++ [WarnNotPlaced word maxAttempts]))) ∧
  (∀ (u : unit_sample) (n : Z),
     0 < n <= 2 ^ 32 →
     0 <= Math_floor_mul u n < n ∧
     num u * n < (Math_floor_mul u n + 1) * den u ∧
     2 ^ 53 * (Math_floor_mul u n * den u) <= (2 ^ 53 + 1) * (num u * n)) ∧
  (∀ u : unit_sample,
     Math_floor_mul u (Z.of_nat (length directions))
     = num u * Z.of_nat (length directions) / den u) ∧
  (∀ n i : Z, 0 < n <= 2 ^ 32 → 0 <= i < n → ∃ u, Math_floor_mul u n = i) ∧
  (∀ placedWords (g : grid) remaining s0 pw,
     square size g → heap s0 !! placedWords = Some pw →
     ∃ g1 s1 g2 s2,
       place_words rnd placedWords size remaining g s0 = Returned g1 s1 ∧
       fillEmptyCells rnd g1 s1 = Returned g2 s2) ∧
  (size < 2 ^ 32 →
   ∃ g placedWords s', generateWordSearch rnd words size s = Returned (g, placedWords) s').
Proof.
  intros Hsize Hw. split; [|split; [|split; [|split; [|split]]]].
  - intros p g word s0 pw Hsq Hp Hlen.
    assert (Hcand : ∀ c, ∃ dx dy x y,
              candidate rnd size c = Some (dx, dy, x, y) ∧
              (dx, dy) ∈ directions ∧ in_bounds size x y).
    { intros c. destruct (candidate_direction rnd size c) as (dx & dy & x & y & Hc & Hd & _).
      exists dx, dy, x, y. split; [done|]. split; [done|].
      eapply candidate_in_bounds; [lia|done]. }
    destruct (place_one_step rnd p size g word s0 pw Hsq Hp) as (g' & s' & Hrun & Hstep).
    assert (Hsq' : square size g').
    { unfold square. by rewrite (word_step_shape _ _ _ _ _ _ _ _ Hstep). }
    destruct Hstep as [Hlong|k dx dy x y pw' g' _ Hk Hinv Hc Hd Hcan Hpl Hpw|_ Hinv]; [lia| |].
    + assert (pw' = pw) by congruence. subst pw'.
      destruct (placeWord_after_check g word x y dx dy size Hd Hcan)
        as (g2 & Hpl2 & _ & _ & Hin & Hout).
      assert (g2 = g') by congruence. subst g2.
      eexists g', _, (S k). split; [exact Hrun|]. split; [lia|]. split; [done|].
      split; [done|].
      split; [intros j _; apply Hcand|]. split; [intros j Hj; apply Hinv; lia|].
      left. exists dx, dy, x, y. replace (S k - 1)%nat with k by lia. done.
    + eexists g, _, 100%nat. split; [exact Hrun|]. split; [lia|]. split; [done|].
      split; [done|].
      split; [intros j _; apply Hcand|]. split; [intros j Hj; apply Hinv; lia|].
      right. split; [done|]. split; [apply Hinv; lia|]. done.
  - intros u n Hn. split; [apply Math_floor_mul_range; lia|].
    apply Math_floor_mul_near. lia.
  - intros u. apply (Math_floor_mul_pow2 u 3). lia.
  - intros n i Hn Hi. apply Math_floor_mul_onto; lia.
  - intros p g remaining s0 pw Hsq Hp.
    destruct (place_words_run rnd p size remaining g s0 pw Hsq Hp) as (g1 & s1 & Hrun & _).
    destruct (fillEmptyCells_spec rnd g1 s1) as (g2 & k & Hfill & _).
    exists g1, s1, g2, (tick k s1). done.
  - intros Hmax. destruct (generateWordSearch_run rnd words size s ws)
      as (g1 & s1 & g2 & k & _ & _ & _ & _ & Hgen); [lia|done|]. eauto.
Qed.

Lemma bounded_retry_witness :
  let s0 := loop_entry demo_words (initial_state demo_words) in
  0 < 5 ∧ heap (initial_state demo_words) !! 0%nat = Some demo_words ∧
  square 5 (empty_grid 5) ∧ heap s0 !! 1%nat = Some [] ∧ word_length "CAT" <= 5 ∧
  (∃ g' s' (k : nat),
     place_one rnd16 1%nat 5 (empty_grid 5) "CAT" s0 = Returned g' s' ∧
     (1 <= k <= 100)%nat ∧
     random_calls s' = (random_calls s0 + 3 * k)%nat ∧
     square 5 g' ∧
     (∀ j, (j < k)%nat → ∃ dx dy x y,
        candidate rnd16 5 (random_calls s0 + 3 * j) = Some (dx, dy, x, y) ∧
        (dx, dy) ∈ directions ∧ in_bounds 5 x y) ∧
     (∀ j, (S j < k)%nat →
        valid_attempt rnd16 (empty_grid 5) "CAT" 5 (random_calls s0 + 3 * j) = false) ∧
     ((∃ dx dy x y,
         candidate rnd16 5 (random_calls s0 + 3 * (k - 1)) = Some (dx, dy, x, y) ∧
         canPlaceWord (empty_grid 5) "CAT" x y dx dy 5 = Ok true ∧
         placeWord (empty_grid 5) "CAT" x y dx dy = Ok g' ∧
         (∀ i : nat, (i < String.length "CAT")%nat →
            cell_at g' (x + Z.of_nat i * dx) (y + Z.of_nat i * dy)
            = Some (string_index "CAT" (Z.of_nat i))) ∧
         (∀ cx cy,
            (∀ i : nat, (i < String.length "CAT")%nat →
               (x + Z.of_nat i * dx, y + Z.of_nat i * dy) ≠ (cx, cy)) →
            cell_at g' cx cy = cell_at (empty_grid 5) cx cy) ∧
         heap s' = <[1%nat := [] ++ ["CAT"]]> (heap s0) ∧
         console s' = console s0)
      ∨ (k = 100%nat ∧
         valid_attempt rnd16 (empty_grid 5) "CAT" 5 (random_calls s0 + 3 * 99) = false ∧
         g' = empty_grid 5 ∧ heap s' = heap s0 ∧
         console s' = console s0 ++ [WarnNotPlaced "CAT" maxAttempts]))) ∧
  (0 < 10 <= 2 ^ 32 ∧ 0 <= Math_floor_mul seven_tenths 10 < 10) ∧
  ∃ g placedWords s',
    generateWordSearch rnd16 0%nat 5 (initial_state demo_words) = Returned (g, placedWords) s'.
Proof.
  intros s0.
  split; [lia|]. split; [reflexivity|]. split; [reflexivity|]. split; [reflexivity|].
  split; [vm_compute; discriminate|].
  destruct (bounded_retry rnd16 0%nat 5 (initial_state demo_words) demo_words)
    as (Hword & Hdraw & _ & _ & _ & Hrun); [lia | reflexivity |].
  split; [|split; [|apply Hrun; lia]].
  - apply (Hword 1%nat (empty_grid 5) "CAT" s0 []);
      [reflexivity | reflexivity | vm_compute; discriminate].
  - split; [lia|]. apply (Hdraw seven_tenths 10). lia.
Defined.

(** C7. The loop runs over the words sorted by descending length, words of
    equal length in their input order, and the returned [placedWords] list is
    the list of the words placed successfully, in that processing order.  The
    array [sortedWords] still holds the sorted words when the call returns. *)
Theorem placed_in_processing_order rnd (words : loc) size s ws :
  heap s !! words = Some ws →
  let sortedWords := stable_sort by_length_desc ws in
  let loop_state := loop_entry ws s in
  sortedWords ≡ₚ ws ∧
  StronglySorted (descending word_length) sortedWords ∧
  (∀ n, filter (λ w, word_length w = n) sortedWords = filter (λ w, word_length w = n) ws) ∧
  (0 <= size < 2 ^ 32 →
   generateWordSearch rnd words size s =
     (g ← place_words rnd (length (heap s)) size sortedWords (empty_grid size);
      g ← fillEmptyCells rnd g;
      mret (g, length (heap s))) loop_state) ∧
  (0 <= size < 2 ^ 32 →
   ∃ g placedWords s', generateWordSearch rnd words size s = Returned (g, placedWords) s') ∧
  ∀ g placedWords s',
    generateWordSearch rnd words size s = Returned (g, placedWords) s' →
    ∃ placed,
      heap s' !! placedWords = Some placed ∧
      placed = successfully_placed rnd placedWords size sortedWords
                 (empty_grid size) loop_state ∧
      sublist placed sortedWords ∧
      heap s' !! S placedWords = Some sortedWords.
Proof.
  intros Hw sortedWords loop_state.
  split; [apply sorted_words_Permutation|].
  split; [apply (stable_sort_sorted word_length)|].
  split; [intros n; apply (stable_sort_stable word_length)|].
  split; [intros Hsize; by apply generateWordSearch_eq|]. split.
  { intros Hsize. destruct (generateWordSearch_run rnd words size s ws)
      as (g1 & s1 & g2 & k & _ & _ & _ & _ & Hgen); [lia|done|]. eauto. }
  intros g p s' Hgen.
  destruct (generateWordSearch_inv rnd words size s ws g p s' Hw Hgen)
    as (_ & -> & g1 & s1 & Hrun & Hrel & _ & _ & Hheap & _).
  set (p := length (heap s)) in *.
  destruct (place_words_placed rnd p size sortedWords (empty_grid size) loop_state []
              (empty_grid_square size) (loop_entry_placed ws s)) as (g1' & s1' & Hrun' & Hh).
  fold sortedWords in Hrun. fold loop_state in Hrun. rewrite Hrun in Hrun'.
  injection Hrun' as <- <-.
  exists (successfully_placed rnd p size sortedWords (empty_grid size) loop_state).
  rewrite Hheap, Hh. split; [|split; [done|split; [apply successfully_placed_sublist|]]].
  - apply list_lookup_insert_eq. eapply lookup_lt_Some, loop_entry_placed.
  - rewrite list_lookup_insert_ne by lia. unfold loop_state, loop_entry. simpl.
    rewrite lookup_app_r; rewrite length_app; simpl; [|lia].
    by replace (S p - (length (heap s) + 1))%nat with 0%nat by lia.
Qed.

Lemma placed_in_processing_order_witness :
  heap (initial_state demo_words) !! 0%nat = Some demo_words ∧
  (0 <= 5 < 2 ^ 32 →
   ∃ g placedWords s',
     generateWordSearch rnd16 0%nat 5 (initial_state demo_words)
     = Returned (g, placedWords) s') ∧
  ∀ g placedWords s',
    generateWordSearch rnd16 0%nat 5 (initial_state demo_words) = Returned (g, placedWords) s' →
    ∃ placed,
      heap s' !! placedWords = Some placed ∧
      placed = successfully_placed rnd16 placedWords 5 ["ELEPHANT"; "HORSE"; "CAT"; "DOG"]
                 (empty_grid 5) (loop_entry demo_words (initial_state demo_words)) ∧
      sublist placed ["ELEPHANT"; "HORSE"; "CAT"; "DOG"] ∧
      heap s' !! S placedWords = Some ["ELEPHANT"; "HORSE"; "CAT"; "DOG"].
Proof.
  split; [reflexivity|].
  apply (placed_in_processing_order rnd16 0%nat 5 (initial_state demo_words) demo_words).
  reflexivity.
Defined.

(** C8. What a run returns is fixed by the words, the size and the random
    values it is given.  Take two runs on the same words and the same size,
    started in any two states: the word list may sit in different arrays
    among different other arrays, other warnings may have been printed
    before, and each random source may be at any point of its sequence, as
    long as the two sources return the same values, call by call, from there
    on.  For a [size] that is an array length both runs return, with the same
    grid and the same words in [placedWords], after printing the same
    warnings and taking the same number of draws.  For any other [size] both
    throw the same [RangeError], before anything is drawn or printed. *)
Theorem generateWordSearch_deterministic
    rnd1 rnd2 (words1 words2 : loc) size s1 s2 ws :
  heap s1 !! words1 = Some ws → heap s2 !! words2 = Some ws →
  same_stream rnd1 (random_calls s1) rnd2 (random_calls s2) →
  (0 <= size < 2 ^ 32 ∧
   ∃ g placed warns (draws : nat) placedWords1 placedWords2 s1' s2',
     generateWordSearch rnd1 words1 size s1 = Returned (g, placedWords1) s1' ∧
     generateWordSearch rnd2 words2 size s2 = Returned (g, placedWords2) s2' ∧
     heap s1' !! placedWords1 = Some placed ∧
     heap s2' !! placedWords2 = Some placed ∧
     console s1' = console s1 ++ warns ∧ console s2' = console s2 ++ warns ∧
     random_calls s1' = (random_calls s1 + draws)%nat ∧
     random_calls s2' = (random_calls s2 + draws)%nat)
  ∨ (¬ (0 <= size < 2 ^ 32) ∧
     generateWordSearch rnd1 words1 size s1 = Thrown RangeError s1 ∧
     generateWordSearch rnd2 words2 size s2 = Thrown RangeError s2).
Proof.
  intros Hw1 Hw2 Hs. destruct (decide (0 <= size < 2 ^ 32)) as [Hsize|Hsize].
  2:{ right. split; [done|]. split; by apply generateWordSearch_range. }
  left. split; [done|].
  set (p1 := length (heap s1)). set (p2 := length (heap s2)).
  assert (HR : in_step rnd1 rnd2 p1 p2 s1 s2 (loop_entry ws s1) (loop_entry ws s2)).
  { split; [split; [done|]|].
    - exists []. split; apply loop_entry_placed.
    - exists 0%nat, []. simpl. by rewrite !Nat.add_0_r, !app_nil_r. }
  destruct (generateWordSearch_run rnd1 words1 size s1 ws Hsize Hw1)
    as (g1 & t1 & g2 & k1 & Hrun1 & _ & Hfill1 & _ & Hgen1).
  destruct (generateWordSearch_run rnd2 words2 size s2 ws Hsize Hw2)
    as (h1 & u1 & h2 & k2 & Hrun2 & _ & Hfill2 & _ & Hgen2).
  pose proof (place_words_agree rnd1 rnd2 p1 p2 s1 s2 size (stable_sort by_length_desc ws)
                (empty_grid size) _ _ HR) as Hag.
  fold p1 in Hrun1. fold p2 in Hrun2. rewrite Hrun1, Hrun2 in Hag.
  destruct Hag as [<- HR1].
  pose proof (fillEmptyCells_agree rnd1 rnd2 p1 p2 s1 s2 g1 _ _ HR1) as Hag.
  rewrite Hfill1, Hfill2 in Hag.
  destruct Hag as [<- [[_ (placed & Hp1 & Hp2)] (draws & warns & Hd1 & Hd2 & Hc1 & Hc2)]].
  exists g2, placed, warns, draws, p1, p2, (tick k1 t1), (tick k2 u1). done.
Qed.

Lemma generateWordSearch_deterministic_witness :
  heap (initial_state demo_words) !! 0%nat = Some demo_words ∧
  heap later_state !! 1%nat = Some demo_words ∧
  same_stream rnd16 (random_calls (initial_state demo_words))
              (reseeded rnd16 7) (random_calls later_state) ∧
  ∃ g placed warns (draws : nat) placedWords1 placedWords2 s1' s2',
    generateWordSearch rnd16 0%nat 5 (initial_state demo_words)
      = Returned (g, placedWords1) s1' ∧
    generateWordSearch (reseeded rnd16 7) 1%nat 5 later_state
      = Returned (g, placedWords2) s2' ∧
    heap s1' !! placedWords1 = Some placed ∧
    heap s2' !! placedWords2 = Some placed ∧
    console s1' = console (initial_state demo_words) ++ warns ∧
    console s2' = console later_state ++ warns ∧
    random_calls s1' = (random_calls (initial_state demo_words) + draws)%nat ∧
    random_calls s2' = (random_calls later_state + draws)%nat.
Proof.
  assert (Hs : same_stream rnd16 (random_calls (initial_state demo_words))
                           (reseeded rnd16 7) (random_calls later_state)).
  { intros k. unfold reseeded. simpl random_calls.
    by replace (7 + k - 7)%nat with (0 + k)%nat by lia. }
  split; [reflexivity|]. split; [reflexivity|]. split; [exact Hs|].
  destruct (generateWordSearch_deterministic rnd16 (reseeded rnd16 7) 0%nat 1%nat 5
              (initial_state demo_words) later_state demo_words)
    as [[_ Hsame]|[Hsize _]]; [reflexivity | reflexivity | exact Hs | exact Hsame |].
  exfalso. apply Hsize. lia.
Defined.

(** C9. The renderers split a list of [n] placed words at [ceil(n / 2)]: the
    left column has [ceil(n / 2)] words, the right column [floor(n / 2)], the
    left column followed by the right one is the list again, and the three
    places that split the list compute the same columns. *)
Theorem column_split (placedWords : list string) :
  let n := Z.of_nat (length placedWords) in
  let '(leftColumnWords, rightColumnWords) := createPuzzleHTML_columns placedWords in
  Z.of_nat (length leftColumnWords) = Math_ceil_div n 2 ∧
  Z.of_nat (length rightColumnWords) = n / 2 ∧
  leftColumnWords ++ rightColumnWords = placedWords ∧
  createPDFDirectly_columns placedWords = (leftColumnWords, rightColumnWords) ∧
  createHTMLFile_columns placedWords = (leftColumnWords, rightColumnWords).
Proof.
  intros n. unfold createPuzzleHTML_columns, createPDFDirectly_columns, createHTMLFile_columns.
  destruct (split_columns placedWords) as (-> & -> & Hmid). fold n in Hmid |- *.
  rewrite length_take, length_drop, take_drop.
  assert (Hhalf : Math_ceil_div n 2 + n / 2 = n).
  { rewrite Math_ceil_div_2. Z.div_mod_to_equations. lia. }
  repeat split; lia.
Qed.

(** C10. [generateWordSearch] leaves its argument alone: when the call
    ends, returning or throwing, the array [words] holds the same words in the
    same order, as does every other array that existed before the call; the
    returned [placedWords] is a new array. *)
Theorem words_argument_unchanged rnd (words : loc) size s ws :
  heap s !! words = Some ws →
  let s' := final_state (generateWordSearch rnd words size s) in
  heap s' !! words = Some ws ∧
  (∀ (a : loc) xs, heap s !! a = Some xs → heap s' !! a = Some xs) ∧
  (∀ g placedWords s'',
     generateWordSearch rnd words size s = Returned (g, placedWords) s'' →
     heap s !! placedWords = None).
Proof.
  intros Hw s'.
  assert (Hframe : ∀ (a : loc) xs, heap s !! a = Some xs → heap s' !! a = Some xs).
  { unfold s'. destruct (decide (0 <= size < 2 ^ 32)) as [Hsize|Hsize].
    2:{ by rewrite generateWordSearch_range. }
    destruct (generateWordSearch_run rnd words size s ws Hsize Hw)
      as (g1 & s1 & g2 & k & _ & Hrun & _ & _ & Hgen).
    rewrite Hgen. simpl.
    destruct (words_run_placed_lookup _ _ _ _ _ _ _ _ Hrun (loop_entry_placed ws s))
      as (placed & _ & _ & _ & _ & Hother).
    intros a xs Ha. pose proof (lookup_lt_Some _ _ _ Ha) as Hlt.
    rewrite Hother by lia. unfold loop_entry. simpl. by do 2 apply lookup_app_l_Some. }
  split; [by apply Hframe|]. split; [done|].
  intros g p s'' Hgen.
  destruct (generateWordSearch_inv rnd words size s ws g p s'' Hw Hgen) as (_ & -> & _).
  by apply lookup_ge_None.
Qed.

Lemma words_argument_unchanged_witness :
  heap (initial_state demo_words) !! 0%nat = Some demo_words ∧
  let s' := final_state (generateWordSearch rnd16 0%nat 5 (initial_state demo_words)) in
  heap s' !! 0%nat = Some demo_words ∧
  (∀ (a : loc) xs, heap (initial_state demo_words) !! a = Some xs → heap s' !! a = Some xs) ∧
  (∀ g placedWords s'',
     generateWordSearch rnd16 0%nat 5 (initial_state demo_words) = Returned (g, placedWords) s'' →
     heap (initial_state demo_words) !! placedWords = None).
Proof.
  split; [reflexivity|].
  apply (words_argument_unchanged rnd16 0%nat 5 (initial_state demo_words) demo_words).
  reflexivity.
Defined.

(** * Further properties of the generator *)

(** ** Accounting for the words *)

Lemma word_step_account rnd p size g word s g' s' pw :
  word_step rnd p size g word s g' s' → heap s !! p = Some pw →
  ∃ added warns,
    heap s' = <[p := pw ++ added]> (heap s) ∧
    console s' = console s ++ warns ∧
    added ++ (warned_word <$> warns) = [word] ∧
    Forall (warning_fits size) warns.
Proof.
  destruct 1 as [Hlen|k dx dy x y pw' g' Hlen _ _ _ _ _ _ Hp|Hlen _]; intros Hpw.
  - exists [], [WarnTooLong word]. simpl. rewrite app_nil_r, list_insert_id by done.
    repeat split. by repeat constructor.
  - assert (pw' = pw) by congruence. subst pw'.
    exists [word], []. simpl. rewrite app_nil_r. repeat split. constructor.
  - exists [], [WarnNotPlaced word maxAttempts]. simpl.
    rewrite app_nil_r, list_insert_id by done. repeat split. by repeat constructor.
Qed.

Lemma words_run_account rnd p size g ws s g' s' pw :
  words_run rnd p size g ws s g' s' → heap s !! p = Some pw →
  ∃ added warns,
    heap s' = <[p := pw ++ added]> (heap s) ∧
    console s' = console s ++ warns ∧
    added ++ (warned_word <$> warns) ≡ₚ ws ∧
    Forall (warning_fits size) warns.
Proof.
  intros Hrun. revert pw.
  induction Hrun as [g s|g w ws s g1 s1 g2 s2 Hstep Hrun IH]; intros pw Hp.
  { exists [], []. rewrite !app_nil_r, list_insert_id by done. by repeat split. }
  assert (Hlt : (p < length (heap s))%nat) by by eapply lookup_lt_Some.
  destruct (word_step_account _ _ _ _ _ _ _ _ pw Hstep Hp)
    as (a1 & w1 & Hh1 & Hc1 & Hone & Hf1).
  destruct (IH (pw ++ a1)) as (a2 & w2 & Hh2 & Hc2 & Hperm & Hf2).
  { rewrite Hh1. by apply list_lookup_insert_eq. }
  exists (a1 ++ a2), (w1 ++ w2).
  rewrite Hh2, Hh1, list_insert_insert_eq, Hc2, Hc1, <- !app_assoc.
  split; [done|]. split; [done|]. split; [|by apply Forall_app].
  rewrite fmap_app. change (w :: ws) with ([w] ++ ws). rewrite <- Hone, <- Hperm.
  rewrite <- !app_assoc. f_equiv. rewrite !app_assoc. f_equiv.
  apply Permutation_app_comm.
Qed.

(** X1. Every input word is accounted for exactly once: the returned
    [placedWords] together with the words of the warnings printed during the
    call are the input words, each warning of the kind that matches the
    length of its word. *)
Theorem every_word_placed_or_warned rnd (words : loc) size s ws :
  0 <= size < 2 ^ 32 → heap s !! words = Some ws →
  ∃ g placedWords s' placed warns,
    generateWordSearch rnd words size s = Returned (g, placedWords) s' ∧
    heap s' !! placedWords = Some placed ∧
    console s' = console s ++ warns ∧
    placed ++ (warned_word <$> warns) ≡ₚ ws ∧
    (length placed + length warns = length ws)%nat ∧
    Forall (warning_fits size) warns.
Proof.
  intros Hsize Hw.
  destruct (generateWordSearch_run rnd words size s ws Hsize Hw)
    as (g1 & s1 & g2 & k & _ & Hrun & _ & _ & Hgen).
  destruct (words_run_account _ _ _ _ _ _ _ _ [] Hrun (loop_entry_placed ws s))
    as (placed & warns & Hheap & Hcons & Hperm & Hfits).
  exists g2, (length (heap s)), (tick k s1), placed, warns.
  split; [done|]. simpl. rewrite Hheap, Hcons. split; [|split; [done|]].
  { apply list_lookup_insert_eq. eapply lookup_lt_Some, loop_entry_placed. }
  rewrite sorted_words_Permutation in Hperm. split; [done|]. split; [|done].
  apply Permutation_length in Hperm. by rewrite length_app, length_fmap in Hperm.
Qed.

Lemma every_word_placed_or_warned_witness :
  0 <= 5 < 2 ^ 32 ∧ heap (initial_state demo_words) !! 0%nat = Some demo_words ∧
  ∃ g placedWords s' placed warns,
    generateWordSearch rnd16 0%nat 5 (initial_state demo_words) = Returned (g, placedWords) s' ∧
    heap s' !! placedWords = Some placed ∧
    console s' = console (initial_state demo_words) ++ warns ∧
    placed ++ (warned_word <$> warns) ≡ₚ demo_words ∧
    (length placed + length warns = length demo_words)%nat ∧
    Forall (warning_fits 5) warns.
Proof.
  split; [lia|]. split; [reflexivity|].
  apply (every_word_placed_or_warned rnd16 0%nat 5 (initial_state demo_words) demo_words);
    [lia | reflexivity].
Defined.

(** ** The number of random draws *)

Lemma word_step_draws rnd p size g word s g' s' :
  word_step rnd p size g word s g' s' →
  (word_length word > size ∧ random_calls s' = random_calls s) ∨
  (word_length word <= size ∧
   (random_calls s + 3 <= random_calls s' <= random_calls s + 300)%nat).
Proof.
  destruct 1 as [Hlen|k dx dy x y pw' g' Hlen Hk _ _ _ _ _ _|Hlen _]; simpl.
  - by left.
  - right. split; [done|lia].
  - right. split; [done|lia].
Qed.

Lemma words_run_draws rnd p size g ws s g' s' :
  words_run rnd p size g ws s g' s' →
  (random_calls s + 3 * length (fitting size ws) <= random_calls s'
   <= random_calls s + 300 * length (fitting size ws))%nat.
Proof.
  unfold fitting. induction 1 as [g s|g w ws s g1 s1 g2 s2 Hstep Hrun IH]; [simpl; lia|].
  rewrite filter_cons.
  destruct (word_step_draws _ _ _ _ _ _ _ _ Hstep) as [[Hlen Hc]|[Hlen Hc]].
  - rewrite decide_False by lia. lia.
  - rewrite decide_True by done. simpl length. lia.
Qed.

Lemma fill_cell_draws rnd c s :
  ∃ c', fill_cell rnd c s = Returned c' (tick (empty_in_row [c]) s) ∧ filled c c'.
Proof.
  unfold fill_cell, filled, empty_in_row. rewrite filter_cons, filter_nil.
  destruct (decide (c = Str "")) as [Hc|Hc].
  - rewrite bool_decide_eq_true_2 by done.
    exists (string_index letters (Math_floor_mul (rnd (random_calls s)) (word_length letters))).
    split; [reflexivity|]. apply letters_index_upper.
    by apply (Math_floor_mul_range _ 26).
  - rewrite bool_decide_eq_false_2 by done. exists c. simpl. by rewrite tick_0.
Qed.

Lemma fill_row_draws rnd row s :
  ∃ row', fill_row rnd row s = Returned row' (tick (empty_in_row row) s) ∧
          Forall2 filled row row'.
Proof.
  revert s. induction row as [|c row IH]; intros s.
  { exists []. unfold empty_in_row. simpl. rewrite tick_0. by split; [|constructor]. }
  destruct (fill_cell_draws rnd c s) as (c' & Hc & Hf).
  destruct (IH (tick (empty_in_row [c]) s)) as (row' & Hr & Hfr).
  exists (c' :: row'). split; [|by constructor].
  simpl. unfold mbind, M_bind. rewrite Hc, Hr, tick_tick.
  unfold mret, M_ret. do 2 f_equal. unfold empty_in_row.
  change (c :: row) with ([c] ++ row). by rewrite filter_app, length_app.
Qed.

Lemma fillEmptyCells_draws rnd g s :
  ∃ g', fillEmptyCells rnd g s = Returned g' (tick (empty_cells g) s) ∧
        Forall2 (Forall2 filled) g g'.
Proof.
  revert s. induction g as [|row g IH]; intros s.
  { exists []. unfold empty_cells. simpl. rewrite tick_0. by split; [|constructor]. }
  destruct (fill_row_draws rnd row s) as (row' & Hc & Hf).
  destruct (IH (tick (empty_in_row row) s)) as (g' & Hr & Hfr).
  exists (row' :: g'). split; [|by constructor].
  simpl. unfold mbind, M_bind. by rewrite Hc, Hr, tick_tick.
Qed.

Lemma empty_cells_le g : (empty_cells g <= sum_list (shape g))%nat.
Proof.
  unfold empty_cells, shape, empty_in_row. induction g as [|row g IH]; csimpl; [lia|].
  pose proof (length_filter (λ c, c = Str "") row). lia.
Qed.

Lemma filled_nonempty c c' : filled c c' → c' ≠ Str "".
Proof.
  unfold filled. destruct (decide (c = Str "")); [|congruence].
  intros Hup ->. discriminate.
Qed.

Lemma filled_no_empty g g' : Forall2 (Forall2 filled) g g' → empty_cells g' = 0%nat.
Proof.
  unfold empty_cells. induction 1 as [|row row' g g' Hrow _ IH]; [done|].
  csimpl. rewrite IH. rewrite Nat.add_0_r. clear IH.
  unfold empty_in_row. induction Hrow as [|c c' row row' Hc _ IH]; [done|].
  rewrite filter_cons, decide_False by by eapply filled_nonempty. done.
Qed.

Lemma fill_row_full rnd row s :
  empty_in_row row = 0%nat → fill_row rnd row s = Returned row s.
Proof.
  unfold empty_in_row. revert s. induction row as [|c row IH]; intros s H; [done|].
  rewrite filter_cons in H. destruct (decide (c = Str "")) as [|Hc]; [done|].
  simpl. unfold mbind, M_bind, fill_cell. rewrite bool_decide_eq_false_2 by done.
  unfold mret at 1. unfold M_ret at 1. by rewrite IH.
Qed.

Lemma fillEmptyCells_full rnd g s :
  empty_cells g = 0%nat → fillEmptyCells rnd g s = Returned g s.
Proof.
  unfold empty_cells. revert s. induction g as [|row g IH]; intros s H; [done|].
  csimpl in H. simpl. unfold mbind, M_bind.
  rewrite fill_row_full by lia. by rewrite IH by lia.
Qed.

(** X2. A call draws at least 3 and at most 300 random numbers for each word
    that fits the grid, none for a word that is too long, and at most one per
    cell for the fill. *)
Theorem draw_budget rnd (words : loc) size s ws :
  0 <= size < 2 ^ 32 → heap s !! words = Some ws →
  ∃ g placedWords s',
    generateWordSearch rnd words size s = Returned (g, placedWords) s' ∧
    (random_calls s + 3 * length (fitting size ws) <= random_calls s'
     <= random_calls s + 300 * length (fitting size ws)
        + Z.to_nat size * Z.to_nat size)%nat.
Proof.
  intros Hsize Hw.
  destruct (generateWordSearch_run rnd words size s ws Hsize Hw)
    as (g1 & s1 & g2 & k & _ & Hrun & Hfill & _ & Hgen).
  destruct (fillEmptyCells_draws rnd g1 s1) as (g2' & Hfill' & _).
  rewrite Hfill' in Hfill.
  apply (f_equal (λ o, random_calls (final_state o))) in Hfill. simpl in Hfill.
  exists g2, (length (heap s)), (tick k s1). split; [done|].
  pose proof (words_run_draws _ _ _ _ _ _ _ _ Hrun) as Hd.
  assert (Hfit : length (fitting size (stable_sort by_length_desc ws))
                 = length (fitting size ws)).
  { unfold fitting. apply Permutation_length. f_equiv. apply sorted_words_Permutation. }
  rewrite Hfit in Hd. simpl random_calls in *.
  pose proof (empty_cells_le g1) as Hle.
  rewrite (words_run_shape _ _ _ _ _ _ _ _ Hrun) in Hle.
  rewrite (empty_grid_square size), sum_list_replicate in Hle.
  lia.
Qed.

Lemma draw_budget_witness :
  0 <= 5 < 2 ^ 32 ∧ heap (initial_state demo_words) !! 0%nat = Some demo_words ∧
  ∃ g placedWords s',
    generateWordSearch rnd16 0%nat 5 (initial_state demo_words) = Returned (g, placedWords) s' ∧
    (random_calls (initial_state demo_words) + 3 * length (fitting 5 demo_words)
     <= random_calls s'
     <= random_calls (initial_state demo_words) + 300 * length (fitting 5 demo_words)
        + Z.to_nat 5 * Z.to_nat 5)%nat.
Proof.
  split; [lia|]. split; [reflexivity|].
  apply (draw_budget rnd16 0%nat 5 (initial_state demo_words) demo_words);
    [lia | reflexivity].
Defined.

(** X3. The fill draws exactly one random number per empty cell and leaves
    no empty cell, so filling again draws nothing and changes nothing; it
    never touches the arrays of words or the console. *)
Theorem fill_once_is_enough rnd (g : grid) s :
  ∃ g',
    fillEmptyCells rnd g s = Returned g' (tick (empty_cells g) s) ∧
    shape g' = shape g ∧
    empty_cells g' = 0%nat ∧
    ∀ s2, fillEmptyCells rnd g' s2 = Returned g' s2.
Proof.
  destruct (fillEmptyCells_draws rnd g s) as (g' & Hfill & Hf).
  exists g'. split; [done|]. split; [by apply filled_shape|].
  pose proof (filled_no_empty _ _ Hf) as H0. split; [done|].
  intros s2. by apply fillEmptyCells_full.
Qed.

(** ** Placements *)

Lemma grid_set_same (g : grid) x y v :
  cell_at g x y = Some v → grid_set g x y v = Ok g.
Proof.
  intros H. apply cell_at_Some in H as (row & Hy & Hr & Hx & Hc).
  pose proof (lookup_lt_Some _ _ _ Hc) as Hlx.
  unfold grid_set. replace (js_index g y) with (Some row)
    by (symmetry; apply js_index_Some; auto).
  replace ((0 <=? x) && (x <? Z.of_nat (length row))) with true
    by (symmetry; apply andb_true_iff; split; [apply Z.leb_le | apply Z.ltb_lt]; lia).
  by rewrite (list_insert_id row), (list_insert_id g).
Qed.

Lemma placeWord_loop_same (g : grid) word x y dx dy idxs :
  (∀ i, i ∈ idxs →
     cell_at g (x + Z.of_nat i * dx) (y + Z.of_nat i * dy)
     = Some (string_index word (Z.of_nat i))) →
  placeWord_loop g word x y dx dy idxs = Ok g.
Proof.
  induction idxs as [|i idxs IH]; intros H; [done|]. simpl.
  rewrite grid_set_same by (apply H; by left).
  apply IH. intros j Hj. apply H. by right.
Qed.

(** X4. A placement that passed the validity check writes the word along
    its run and nothing else: the grid keeps its shape, the cells of the run
    hold the letters of the word, and every other cell is as it was. *)
Theorem placement_is_local (g : grid) word x y dx dy size :
  (dx, dy) ∈ directions →
  canPlaceWord g word x y dx dy size = Ok true →
  ∃ g', placeWord g word x y dx dy = Ok g' ∧
        shape g' = shape g ∧
        (∀ i : nat, (i < String.length word)%nat →
           cell_at g' (x + Z.of_nat i * dx) (y + Z.of_nat i * dy)
           = Some (string_index word (Z.of_nat i))) ∧
        (∀ cx cy,
           (∀ i : nat, (i < String.length word)%nat →
              (x + Z.of_nat i * dx, y + Z.of_nat i * dy) ≠ (cx, cy)) →
           cell_at g' cx cy = cell_at g cx cy).
Proof.
  intros Hd Hcan.
  destruct (placeWord_after_check g word x y dx dy size Hd Hcan)
    as (g' & Hpl & Hsh & _ & Hin & Hout).
  exists g'. repeat (split; [done|]). exact Hout.
Qed.

Lemma placement_is_local_witness :
  (0, 1) ∈ directions ∧ canPlaceWord (empty_grid 3) "CAT" 1 0 0 1 3 = Ok true ∧
  ∃ g', placeWord (empty_grid 3) "CAT" 1 0 0 1 = Ok g' ∧
        shape g' = shape (empty_grid 3) ∧
        (∀ i : nat, (i < String.length "CAT")%nat →
           cell_at g' (1 + Z.of_nat i * 0) (0 + Z.of_nat i * 1)
           = Some (string_index "CAT" (Z.of_nat i))) ∧
        (∀ cx cy,
           (∀ i : nat, (i < String.length "CAT")%nat →
              (1 + Z.of_nat i * 0, 0 + Z.of_nat i * 1) ≠ (cx, cy)) →
           cell_at g' cx cy = cell_at (empty_grid 3) cx cy).
Proof.
  split; [unfold directions; repeat constructor|].
  split; [reflexivity|].
  apply (placement_is_local (empty_grid 3) "CAT" 1 0 0 1 3);
    [unfold directions; repeat constructor | reflexivity].
Defined.

(** X5. Placing a word where it already stands is allowed and changes
    nothing: after a valid placement the same candidate passes the check
    again, and writing it again gives the same grid. *)
Theorem placement_is_idempotent (g : grid) word x y dx dy size :
  (dx, dy) ∈ directions →
  canPlaceWord g word x y dx dy size = Ok true →
  ∃ g', placeWord g word x y dx dy = Ok g' ∧
        canPlaceWord g' word x y dx dy size = Ok true ∧
        placeWord g' word x y dx dy = Ok g'.
Proof.
  intros Hd Hcan.
  destruct (placeWord_after_check g word x y dx dy size Hd Hcan)
    as (g' & Hpl & _ & _ & Hin & _).
  exists g'. split; [done|]. split.
  - unfold canPlaceWord. apply canPlaceWord_loop_true; [apply seq_lt_Forall|].
    apply canPlaceWord_loop_true in Hcan; [|apply seq_lt_Forall].
    rewrite Forall_forall in Hcan |- *. intros i Hi.
    destruct (Hcan i Hi) as [Hb _]. split; [exact Hb|]. right. simpl.
    apply Hin. apply elem_of_seq in Hi. lia.
  - unfold placeWord. apply placeWord_loop_same.
    intros i Hi. apply Hin. apply elem_of_seq in Hi. lia.
Qed.

Lemma placement_is_idempotent_witness :
  (0, 1) ∈ directions ∧ canPlaceWord (empty_grid 3) "CAT" 1 0 0 1 3 = Ok true ∧
  ∃ g', placeWord (empty_grid 3) "CAT" 1 0 0 1 = Ok g' ∧
        canPlaceWord g' "CAT" 1 0 0 1 3 = Ok true ∧
        placeWord g' "CAT" 1 0 0 1 = Ok g'.
Proof.
  split; [unfold directions; repeat constructor|]. split; [reflexivity|].
  apply (placement_is_idempotent (empty_grid 3) "CAT" 1 0 0 1 3);
    [unfold directions; repeat constructor | reflexivity].
Defined.

(** ** The check on an empty grid *)

Lemma cell_at_empty_grid size x y :
  in_bounds size x y → cell_at (empty_grid size) x y = Some (Str "").
Proof.
  intros [Hx Hy]. apply cell_at_Some.
  exists (replicate (Z.to_nat size) (Str "")). unfold empty_grid.
  split; [lia|]. split; [apply lookup_replicate_2; lia|].
  split; [lia|]. apply lookup_replicate_2. lia.
Qed.

Lemma canPlaceWord_empty_grid word x y dx dy size :
  canPlaceWord (empty_grid size) word x y dx dy size = Ok true ↔
  ∀ i : nat, (i < String.length word)%nat →
    in_bounds size (x + Z.of_nat i * dx) (y + Z.of_nat i * dy).
Proof.
  unfold canPlaceWord. rewrite canPlaceWord_loop_true by apply seq_lt_Forall.
  rewrite Forall_forall. split.
  - intros H i Hi. apply (H i). apply elem_of_seq. lia.
  - intros H i Hi. apply elem_of_seq in Hi. split; [apply H; lia|].
    left. apply cell_at_empty_grid. apply H. lia.
Qed.

Lemma between_ends (a d i n size : Z) :
  0 <= i <= n → 0 <= a < size → 0 <= a + n * d < size → 0 <= a + i * d < size.
Proof.
  intros Hi Ha Hn. destruct (Z.le_gt_cases 0 d) as [Hd|Hd].
  - assert (0 <= i * d) by (apply Z.mul_nonneg_nonneg; lia).
    assert (i * d <= n * d) by (apply Z.mul_le_mono_nonneg_r; lia). lia.
  - assert (i * d <= 0) by (apply Z.mul_nonneg_nonpos; lia).
    assert (n * d <= i * d) by (apply Z.mul_le_mono_nonpos_r; lia). lia.
Qed.

Lemma run_in_bounds_ends (n : nat) x y dx dy size :
  (∀ i : nat, (i < S n)%nat → in_bounds size (x + Z.of_nat i * dx) (y + Z.of_nat i * dy)) ↔
  in_bounds size x y ∧ in_bounds size (x + Z.of_nat n * dx) (y + Z.of_nat n * dy).
Proof.
  unfold in_bounds. split.
  - intros H. pose proof (H 0%nat ltac:(lia)) as H0. pose proof (H n ltac:(lia)) as Hn.
    simpl in H0. rewrite !Z.add_0_r in H0. done.
  - intros [[Hx Hy] [Hxn Hyn]] i Hi.
    assert (0 <= Z.of_nat i <= Z.of_nat n) by lia.
    split; by apply (between_ends _ _ _ (Z.of_nat n)).
Qed.

(** X6. On an empty grid the validity check depends only on the two ends of
    the run: a word of at least one letter passes exactly when the cells of
    its first and of its last letter are inside the grid, whatever the step
    [(dx, dy)]. *)
Theorem check_on_empty_grid word x y dx dy size :
  (0 < String.length word)%nat →
  canPlaceWord (empty_grid size) word x y dx dy size = Ok true ↔
  in_bounds size x y ∧
  in_bounds size (x + (word_length word - 1) * dx) (y + (word_length word - 1) * dy).
Proof.
  intros Hlen. rewrite canPlaceWord_empty_grid. unfold word_length.
  destruct (String.length word) as [|n]; [lia|].
  rewrite run_in_bounds_ends.
  by replace (Z.of_nat (S n) - 1) with (Z.of_nat n) by lia.
Qed.

Lemma check_on_empty_grid_witness :
  (0 < String.length "CAT")%nat ∧
  (canPlaceWord (empty_grid 5) "CAT" 4 4 (-1) (-1) 5 = Ok true ↔
   in_bounds 5 4 4 ∧
   in_bounds 5 (4 + (word_length "CAT" - 1) * -1) (4 + (word_length "CAT" - 1) * -1)).
Proof.
  split; [simpl; lia|].
  apply (check_on_empty_grid "CAT" 4 4 (-1) (-1) 5). simpl. lia.
Defined.

(** X7. The skip of the words that are too long loses nothing: a word longer
    than [size] fails the validity check on every grid, from every start and
    in each of the eight directions, while a word that is not longer passes it
    on the empty grid from the corner cell. *)
Theorem too_long_guard_is_exact word size :
  0 <= size →
  (word_length word > size →
   ∀ (g : grid) x y dx dy,
     (dx, dy) ∈ directions → canPlaceWord g word x y dx dy size ≠ Ok true) ∧
  (word_length word <= size →
   canPlaceWord (empty_grid size) word 0 0 0 1 size = Ok true).
Proof.
  intros Hsize. unfold word_length. split.
  - intros Hlen g x y dx dy Hd Hcan.
    apply canPlaceWord_loop_true in Hcan; [|apply seq_lt_Forall].
    rewrite Forall_forall in Hcan.
    destruct (String.length word) as [|n] eqn:Hn; [lia|].
    destruct (Hcan 0%nat) as [[Hx0 Hy0] _]; [apply elem_of_seq; lia|].
    destruct (Hcan n) as [[Hxn Hyn] _]; [apply elem_of_seq; lia|].
    simpl in *. unfold directions in Hd. rewrite !elem_of_cons, elem_of_nil in Hd.
    destruct Hd as [Hd|[Hd|[Hd|[Hd|[Hd|[Hd|[Hd|[Hd|[]]]]]]]]];
      injection Hd as -> ->; lia.
  - intros Hlen. apply canPlaceWord_empty_grid. intros i Hi. unfold in_bounds. lia.
Qed.

Lemma too_long_guard_is_exact_witness :
  0 <= 5 ∧
  (word_length "ELEPHANT" > 5 →
   ∀ (g : grid) x y dx dy,
     (dx, dy) ∈ directions → canPlaceWord g "ELEPHANT" x y dx dy 5 ≠ Ok true) ∧
  (word_length "HORSE" <= 5 →
   canPlaceWord (empty_grid 5) "HORSE" 0 0 0 1 5 = Ok true).
Proof.
  split; [lia|]. split.
  - apply (too_long_guard_is_exact "ELEPHANT" 5). lia.
  - apply (too_long_guard_is_exact "HORSE" 5). lia.
Defined.

(** X8. A word exactly as long as the grid, of two letters or more, fits an
    empty grid only along a full row, a full column or a full diagonal: the
    start must be on the edge the direction leaves from, in each coordinate
    that moves. *)
Theorem word_as_long_as_grid word x y dx dy size :
  2 <= size → word_length word = size → (dx, dy) ∈ directions →
  canPlaceWord (empty_grid size) word x y dx dy size = Ok true ↔
  in_bounds size x y ∧
  (dx = 1 → x = 0) ∧ (dx = -1 → x = size - 1) ∧
  (dy = 1 → y = 0) ∧ (dy = -1 → y = size - 1).
Proof.
  intros Hsize Hlen Hd. unfold word_length in Hlen.
  rewrite canPlaceWord_empty_grid.
  destruct (String.length word) as [|n]; [lia|].
  rewrite run_in_bounds_ends. unfold in_bounds.
  unfold directions in Hd. rewrite !elem_of_cons, elem_of_nil in Hd.
  destruct Hd as [Hd|[Hd|[Hd|[Hd|[Hd|[Hd|[Hd|[Hd|[]]]]]]]]];
    injection Hd as -> ->; lia.
Qed.

Lemma word_as_long_as_grid_witness :
  2 <= 5 ∧ word_length "HORSE" = 5 ∧ (1, -1) ∈ directions ∧
  (canPlaceWord (empty_grid 5) "HORSE" 0 4 1 (-1) 5 = Ok true ↔
   in_bounds 5 0 4 ∧
   (1 = 1 → 0 = 0) ∧ (1 = -1 → 0 = 5 - 1) ∧
   (-1 = 1 → 4 = 0) ∧ (-1 = -1 → 4 = 5 - 1)).
Proof.
  split; [lia|]. split; [reflexivity|]. split; [unfold directions; repeat constructor|].
  apply (word_as_long_as_grid "HORSE" 0 4 1 (-1) 5);
    [lia | reflexivity | unfold directions; repeat constructor].
Defined.

(** ** The empty word *)

Lemma place_one_empty_word rnd p size (g : grid) s pw :
  0 <= size → heap s !! p = Some pw →
  place_one rnd p size g "" s
  = Returned g (set_heap (<[p := pw ++ [""]]> (heap s)) (tick 3 s)).
Proof.
  intros Hsize Hp. unfold place_one.
  destruct (Z.gtb_spec (word_length "") size) as [Hlen|_];
    [change (word_length "") with 0 in Hlen; lia|].
  unfold mbind at 1. unfold M_bind at 1.
  change (Z.to_nat (maxAttempts - 0)) with (S 99). rewrite attempt_loop_S.
  destruct (candidate_direction rnd size (random_calls s))
    as (dx & dy & x & y & -> & _).
  change (canPlaceWord g "" x y dx dy size) with (@Ok bool true).
  change (placeWord g "" x y dx dy) with (Ok g).
  unfold mbind, M_bind. rewrite (Array_push_eq p "" pw) by done. done.
Qed.

Lemma words_run_empty_word rnd p size g ws s g' s' :
  0 <= size → words_run rnd p size g ws s g' s' → "" ∈ ws →
  is_Some (heap s !! p) →
  ∃ placed, heap s' !! p = Some placed ∧ "" ∈ placed.
Proof.
  intros Hsize Hrun. induction Hrun as [g s|g w ws s g1 s1 g2 s2 Hstep Hrun IH];
    intros Hin [pw Hp]; [by apply elem_of_nil in Hin|].
  assert (Hlt : (p < length (heap s))%nat) by by eapply lookup_lt_Some.
  apply elem_of_cons in Hin as [<-|Hin].
  - destruct Hstep as [Hlen|k dx dy x y pw' g' _ _ _ _ _ _ _ Hp'|_ Hinv].
    + change (word_length "") with 0 in Hlen. lia.
    + assert (pw' = pw) by congruence. subst pw'.
      assert (Hp1 : heap (set_heap (<[p := pw ++ [""]]> (heap s)) (tick (3 * S k) s)) !! p
                    = Some (pw ++ [""])) by (by apply list_lookup_insert_eq).
      destruct (words_run_heap _ _ _ _ _ _ _ _ _ Hrun Hp1) as (added & Hh2 & _).
      exists ((pw ++ [""]) ++ added). split.
      * rewrite Hh2. apply list_lookup_insert_eq. simpl. by rewrite length_insert.
      * apply elem_of_app. left. apply elem_of_app. right. by left.
    + specialize (Hinv 0%nat ltac:(lia)). unfold valid_attempt in Hinv.
      destruct (candidate_direction rnd size (random_calls s + 3 * 0))
        as (dx & dy & x & y & Hc & _). by rewrite Hc in Hinv.
  - apply IH; [done|].
    destruct (word_step_heap _ _ _ _ _ _ _ _ pw Hstep Hp) as [[Hh _]|(Hh & _)];
      rewrite Hh; [eauto|].
    exists (pw ++ [w]). by apply list_lookup_insert_eq.
Qed.

(** X9. The empty word is always placed: its first attempt passes the
    check, the grid stays as it is, and the word is pushed on [placedWords]
    after three draws.  A word list that holds an empty word therefore gets
    it back among the placed words. *)
Theorem empty_word_is_placed rnd (words : loc) size s ws :
  0 <= size < 2 ^ 32 → heap s !! words = Some ws →
  (∀ placedWords (g : grid) s0 pw,
     heap s0 !! placedWords = Some pw →
     place_one rnd placedWords size g "" s0
     = Returned g (set_heap (<[placedWords := pw ++ [""]]> (heap s0)) (tick 3 s0))) ∧
  ("" ∈ ws →
   ∃ g placedWords s' placed,
     generateWordSearch rnd words size s = Returned (g, placedWords) s' ∧
     heap s' !! placedWords = Some placed ∧ "" ∈ placed).
Proof.
  intros Hsize Hw. split.
  { intros p g s0 pw Hp. apply place_one_empty_word; [lia|done]. }
  intros Hin.
  destruct (generateWordSearch_run rnd words size s ws Hsize Hw)
    as (g1 & s1 & g2 & k & _ & Hrun & _ & _ & Hgen).
  assert (Hsize0 : 0 <= size) by lia.
  destruct (words_run_empty_word _ _ _ _ _ _ _ _ Hsize0 Hrun) as (placed & Hp & Hpl).
  { by rewrite sorted_words_Permutation. }
  { rewrite loop_entry_placed. eauto. }
  exists g2, (length (heap s)), (tick k s1), placed. done.
Qed.

Lemma empty_word_is_placed_witness :
  0 <= 0 < 2 ^ 32 ∧ heap (initial_state ["A"; ""]) !! 0%nat = Some ["A"; ""] ∧
  ("" ∈ ["A"; ""] →
   ∃ g placedWords s' placed,
     generateWordSearch rnd16 0%nat 0 (initial_state ["A"; ""]) = Returned (g, placedWords) s' ∧
     heap s' !! placedWords = Some placed ∧ "" ∈ placed).
Proof.
  split; [lia|]. split; [reflexivity|].
  apply (empty_word_is_placed rnd16 0%nat 0 (initial_state ["A"; ""]) ["A"; ""]);
    [lia | reflexivity].
Defined.

(** ** Where the cells come from *)

(** X10. Whatever the words are made of, every cell of the returned grid
    holds either one uppercase letter from A to Z or a letter of one of the
    words of the returned [placedWords]: nothing of a word that was not placed
    gets into the grid. *)
Theorem grid_cells_come_from_placed_words rnd (words : loc) size s ws :
  0 <= size < 2 ^ 32 → heap s !! words = Some ws →
  ∃ g placedWords s' placed,
    generateWordSearch rnd words size s = Returned (g, placedWords) s' ∧
    heap s' !! placedWords = Some placed ∧
    ∀ x y v, cell_at g x y = Some v →
      uppercase_letter v = true ∨
      ∃ word (i : nat), word ∈ placed ∧ (i < String.length word)%nat ∧
                        v = string_index word (Z.of_nat i).
Proof.
  intros Hsize Hw.
  destruct (generateWordSearch_run rnd words size s ws Hsize Hw)
    as (g1 & s1 & g2 & k & _ & Hrun & _ & Hf & Hgen).
  destruct (words_run_provenance _ _ _ _ _ _ _ _ [] Hrun (loop_entry_placed ws s))
    as (placed & Hheap & Hg1).
  { intros x y v Hv. left.
    apply cell_at_Some in Hv as (row & _ & Hr & _ & Hc). unfold empty_grid in Hr.
    apply lookup_replicate in Hr as [-> _]. by apply lookup_replicate in Hc as [-> _]. }
  exists g2, (length (heap s)), (tick k s1), placed. split; [done|]. split.
  { simpl. rewrite Hheap. apply list_lookup_insert_eq.
    eapply lookup_lt_Some, loop_entry_placed. }
  intros x y v' Hv'.
  destruct (filled_cell_at_r _ _ _ _ _ Hf Hv') as (v & Hv & Hfv).
  unfold filled in Hfv. destruct (decide (v = Str "")) as [->|Hne]; [by left|].
  subst v'. destruct (Hg1 _ _ _ Hv) as [?|Hfrom]; [done|]. by right.
Qed.

Lemma grid_cells_come_from_placed_words_witness :
  0 <= 5 < 2 ^ 32 ∧ heap (initial_state ["cat"; "D-G"]) !! 0%nat = Some ["cat"; "D-G"] ∧
  ∃ g placedWords s' placed,
    generateWordSearch rnd16 0%nat 5 (initial_state ["cat"; "D-G"])
      = Returned (g, placedWords) s' ∧
    heap s' !! placedWords = Some placed ∧
    ∀ x y v, cell_at g x y = Some v →
      uppercase_letter v = true ∨
      ∃ word (i : nat), word ∈ placed ∧ (i < String.length word)%nat ∧
                        v = string_index word (Z.of_nat i).
Proof.
  split; [lia|]. split; [reflexivity|].
  apply (grid_cells_come_from_placed_words rnd16 0%nat 5
           (initial_state ["cat"; "D-G"]) ["cat"; "D-G"]); [lia | reflexivity].
Defined.

(** ** Runs in different states *)

(** X11. A puzzle depends only on the words, the size and the random
    numbers it is given: two calls with the same words whose random sources
    continue alike return the same grid and the same placed words, whatever
    else the two states hold (other arrays, earlier warnings), and leave the
    sources in step for the calls that follow. *)
Theorem puzzle_depends_only_on_words_and_draws
    rnd1 rnd2 (words1 words2 : loc) size s1 s2 ws :
  0 <= size < 2 ^ 32 →
  heap s1 !! words1 = Some ws → heap s2 !! words2 = Some ws →
  same_stream rnd1 (random_calls s1) rnd2 (random_calls s2) →
  ∃ g placed placedWords1 placedWords2 s1' s2',
    generateWordSearch rnd1 words1 size s1 = Returned (g, placedWords1) s1' ∧
    generateWordSearch rnd2 words2 size s2 = Returned (g, placedWords2) s2' ∧
    heap s1' !! placedWords1 = Some placed ∧
    heap s2' !! placedWords2 = Some placed ∧
    same_stream rnd1 (random_calls s1') rnd2 (random_calls s2').
Proof.
  intros Hsize Hw1 Hw2 Hs.
  set (p1 := length (heap s1)). set (p2 := length (heap s2)).
  assert (HR : in_step rnd1 rnd2 p1 p2 s1 s2 (loop_entry ws s1) (loop_entry ws s2)).
  { split; [split; [done|]|].
    - exists []. split; apply loop_entry_placed.
    - exists 0%nat, []. simpl. by rewrite !Nat.add_0_r, !app_nil_r. }
  destruct (generateWordSearch_run rnd1 words1 size s1 ws Hsize Hw1)
    as (g1 & t1 & g2 & k1 & Hrun1 & _ & Hfill1 & _ & Hgen1).
  destruct (generateWordSearch_run rnd2 words2 size s2 ws Hsize Hw2)
    as (h1 & u1 & h2 & k2 & Hrun2 & _ & Hfill2 & _ & Hgen2).
  pose proof (place_words_agree rnd1 rnd2 p1 p2 s1 s2 size (stable_sort by_length_desc ws)
                (empty_grid size) _ _ HR) as Hag.
  fold p1 in Hrun1. fold p2 in Hrun2. rewrite Hrun1, Hrun2 in Hag.
  destruct Hag as [<- HR1].
  pose proof (fillEmptyCells_agree rnd1 rnd2 p1 p2 s1 s2 g1 _ _ HR1) as Hag.
  rewrite Hfill1, Hfill2 in Hag. destruct Hag as [<- [[Hs2 (placed & Hp1 & Hp2)] _]].
  exists g2, placed, p1, p2, (tick k1 t1), (tick k2 u1). done.
Qed.

Lemma puzzle_depends_only_on_words_and_draws_witness :
  0 <= 5 < 2 ^ 32 ∧
  heap (initial_state demo_words) !! 0%nat = Some demo_words ∧
  heap (log (WarnTooLong "X") (set_heap [["OLD"]; demo_words] (initial_state []))) !! 1%nat
    = Some demo_words ∧
  ∃ g placed placedWords1 placedWords2 s1' s2',
    generateWordSearch rnd16 0%nat 5 (initial_state demo_words)
      = Returned (g, placedWords1) s1' ∧
    generateWordSearch rnd32 1%nat 5
      (log (WarnTooLong "X") (set_heap [["OLD"]; demo_words] (initial_state [])))
      = Returned (g, placedWords2) s2' ∧
    heap s1' !! placedWords1 = Some placed ∧
    heap s2' !! placedWords2 = Some placed ∧
    same_stream rnd16 (random_calls s1') rnd32 (random_calls s2').
Proof.
  split; [lia|]. split; [reflexivity|]. split; [reflexivity|].
  apply (puzzle_depends_only_on_words_and_draws rnd16 rnd32 0%nat 1%nat 5
           (initial_state demo_words)
           (log (WarnTooLong "X") (set_heap [["OLD"]; demo_words] (initial_state [])))
           demo_words); [lia | reflexivity | reflexivity |].
  intros k. unfold den. by rewrite rnd32_rnd16.
Defined.

(** * Properties of the reader *)

(** ** Characters *)

Lemma string_forall_mono (P Q : ascii → bool) s :
  (∀ c, P c = true → Q c = true) → string_forall P s = true → string_forall Q s = true.
Proof.
  intros HPQ. induction s as [|c s IH]; [done|]. simpl.
  rewrite !andb_true_iff. intros [Hc Hs]. auto.
Qed.

Lemma string_forall_app (P : ascii → bool) a b :
  string_forall P (a +:+ b) = string_forall P a && string_forall P b.
Proof.
  induction a as [|c a IH]; [done|]. simpl. by rewrite IH, andb_assoc.
Qed.

Ltac by_ascii_cases c :=
  destruct c as [[] [] [] [] [] [] [] []]; vm_compute; (done || auto).

Lemma upper_char_whitespace c : js_whitespace (upper_char c) = js_whitespace c.
Proof. by_ascii_cases c. Qed.

Lemma upper_char_idemp c : upper_char (upper_char c) = upper_char c.
Proof. by_ascii_cases c. Qed.

Lemma upper_char_ascii c :
  (N_of_ascii c <? 128)%N = true → (N_of_ascii (upper_char c) <? 128)%N = true.
Proof. by_ascii_cases c. Qed.

Lemma upper_char_comma c : Ascii.eqb (upper_char c) comma = Ascii.eqb c comma.
Proof. by_ascii_cases c. Qed.

Lemma upper_char_newline c : Ascii.eqb (upper_char c) newline = Ascii.eqb c newline.
Proof. by_ascii_cases c. Qed.

Lemma whitespace_not_comma c : js_whitespace c = true → Ascii.eqb c comma = false.
Proof. by_ascii_cases c. Qed.

(** ** Splitting *)

Lemma String_split_not_nil sep s : String_split sep s ≠ [].
Proof.
  destruct s as [|c s]; simpl; [done|].
  destruct (Ascii.eqb c sep); [done|]. by destruct (String_split sep s).
Qed.

Lemma String_split_cons sep c s :
  Ascii.eqb c sep = false →
  ∃ piece pieces, String_split sep s = piece :: pieces ∧
                  String_split sep (String c s) = String c piece :: pieces.
Proof.
  intros Hc. simpl. rewrite Hc.
  destruct (String_split sep s) as [|piece pieces] eqn:E;
    [by apply String_split_not_nil in E|]. eauto.
Qed.

(** The pieces hold the characters of the string, the separators apart. *)
Lemma String_split_forall (P : ascii → bool) sep s :
  string_forall (λ c, Ascii.eqb c sep || P c) s = true →
  Forall (λ piece, string_forall P piece = true) (String_split sep s).
Proof.
  induction s as [|c s IH]; [by repeat constructor|].
  simpl string_forall. rewrite andb_true_iff. intros [Hc Hs]. specialize (IH Hs).
  destruct (Ascii.eqb c sep) eqn:E.
  - simpl. rewrite E. by constructor.
  - destruct (String_split_cons sep c s E) as (piece & pieces & Hsp & ->).
    rewrite Hsp in IH. apply Forall_cons in IH as [Hp Hps].
    constructor; [|done]. simpl. by rewrite Hp, andb_true_r.
Qed.

Lemma String_split_lacks sep s :
  Forall (λ piece, lacks sep piece = true) (String_split sep s).
Proof.
  apply String_split_forall. induction s as [|c s IH]; [done|].
  simpl. rewrite IH, andb_true_r. by destruct (Ascii.eqb c sep).
Qed.

Lemma String_split_keeps (P : ascii → bool) sep s :
  string_forall P s = true →
  Forall (λ piece, string_forall P piece = true) (String_split sep s).
Proof.
  intros H. apply String_split_forall. revert H. apply string_forall_mono.
  intros c ->. apply orb_true_r.
Qed.

(** A separator between two texts separates their pieces. *)
Lemma String_split_app sep a b :
  String_split sep (a +:+ String sep b) = String_split sep a ++ String_split sep b.
Proof.
  induction a as [|c a IH].
  - simpl. by rewrite Ascii.eqb_refl.
  - destruct (Ascii.eqb c sep) eqn:E.
    + simpl. by rewrite E, IH.
    + destruct (String_split_cons sep c a E) as (piece & pieces & Hsp & ->).
      change (String c a +:+ String sep b) with (String c (a +:+ String sep b)).
      destruct (String_split_cons sep c (a +:+ String sep b) E)
        as (piece' & pieces' & Hsp' & ->).
      rewrite IH, Hsp in Hsp'. injection Hsp' as <- <-. done.
Qed.

Lemma String_split_single sep s : lacks sep s = true → String_split sep s = [s].
Proof.
  unfold lacks. induction s as [|c s IH]; [done|]. simpl.
  rewrite andb_true_iff, negb_true_iff. intros [Hc Hs]. by rewrite Hc, IH.
Qed.

(** Splitting what was joined gives the pieces back. *)
Lemma String_split_concat sep pieces :
  pieces ≠ [] → Forall (λ piece, lacks sep piece = true) pieces →
  String_split sep (String.concat (String sep EmptyString) pieces) = pieces.
Proof.
  induction pieces as [|p pieces IH]; [done|]. intros _ Hall.
  apply Forall_cons in Hall as [Hp Hall].
  destruct pieces as [|q pieces]; [by apply String_split_single|].
  change (String.concat (String sep EmptyString) (p :: q :: pieces))
    with (p +:+ String sep (String.concat (String sep EmptyString) (q :: pieces))).
  rewrite String_split_app, String_split_single, IH by done. done.
Qed.

(** ** Trimming and upper case *)

Lemma trimStart_blank s : blank (String_trimStart s) = blank s.
Proof.
  unfold blank. induction s as [|c s IH]; [done|]. simpl.
  destruct (js_whitespace c) eqn:E; [done|]. simpl. by rewrite E.
Qed.

Lemma trimEnd_empty s : String_trimEnd s = EmptyString ↔ blank s = true.
Proof.
  unfold blank. induction s as [|c s IH]; [done|]. simpl.
  rewrite andb_true_iff, <- IH.
  destruct (String_trimEnd s); destruct (js_whitespace c); naive_solver.
Qed.

Lemma trim_empty s : String_trim s = EmptyString ↔ blank s = true.
Proof. unfold String_trim. by rewrite trimEnd_empty, trimStart_blank. Qed.

Lemma trimStart_starts_clean s : starts_clean (String_trimStart s).
Proof.
  induction s as [|c s IH]; [done|]. simpl.
  by destruct (js_whitespace c) eqn:E.
Qed.

Lemma trimStart_id s : starts_clean s → String_trimStart s = s.
Proof. destruct s as [|c s]; [done|]. simpl. by intros ->. Qed.

Lemma trimEnd_starts_clean s : starts_clean s → starts_clean (String_trimEnd s).
Proof.
  destruct s as [|c s]; [done|]. simpl. intros Hc.
  destruct (String_trimEnd s); [by rewrite Hc|done].
Qed.

Lemma trimEnd_idemp s : String_trimEnd (String_trimEnd s) = String_trimEnd s.
Proof.
  induction s as [|c s IH]; [done|]. simpl.
  destruct (String_trimEnd s) as [|d t] eqn:E.
  - destruct (js_whitespace c) eqn:Hc; [done|]. simpl. by rewrite Hc.
  - simpl in *. by rewrite IH.
Qed.

Lemma trim_idemp s : String_trim (String_trim s) = String_trim s.
Proof.
  unfold String_trim.
  rewrite (trimStart_id (String_trimEnd _))
    by apply trimEnd_starts_clean, trimStart_starts_clean.
  apply trimEnd_idemp.
Qed.

Lemma trimStart_forall (P : ascii → bool) s :
  string_forall P s = true → string_forall P (String_trimStart s) = true.
Proof.
  induction s as [|c s IH]; [done|]. simpl.
  destruct (js_whitespace c); [|done]. rewrite andb_true_iff. intros [_ Hs]. auto.
Qed.

Lemma trimEnd_forall (P : ascii → bool) s :
  string_forall P s = true → string_forall P (String_trimEnd s) = true.
Proof.
  induction s as [|c s IH]; [done|]. simpl.
  rewrite andb_true_iff. intros [Hc Hs]. specialize (IH Hs).
  destruct (String_trimEnd s) as [|d t].
  - destruct (js_whitespace c); [done|]. simpl. by rewrite Hc.
  - simpl in *. by rewrite Hc, IH.
Qed.

Lemma trim_forall (P : ascii → bool) s :
  string_forall P s = true → string_forall P (String_trim s) = true.
Proof. intros H. by apply trimEnd_forall, trimStart_forall. Qed.

Lemma upper_trimStart s :
  String_trimStart (String_toUpperCase s) = String_toUpperCase (String_trimStart s).
Proof.
  induction s as [|c s IH]; [done|]. simpl. rewrite upper_char_whitespace.
  by destruct (js_whitespace c).
Qed.

Lemma upper_trimEnd s :
  String_trimEnd (String_toUpperCase s) = String_toUpperCase (String_trimEnd s).
Proof.
  induction s as [|c s IH]; [done|]. simpl. rewrite IH, upper_char_whitespace.
  destruct (String_trimEnd s); [|done]. by destruct (js_whitespace c).
Qed.

Lemma upper_trim s :
  String_trim (String_toUpperCase s) = String_toUpperCase (String_trim s).
Proof. unfold String_trim. by rewrite upper_trimStart, upper_trimEnd. Qed.

Lemma upper_idemp s :
  String_toUpperCase (String_toUpperCase s) = String_toUpperCase s.
Proof.
  induction s as [|c s IH]; [done|]. simpl. by rewrite IH, upper_char_idemp.
Qed.

Lemma upper_forall (P : ascii → bool) s :
  (∀ c, P c = true → P (upper_char c) = true) →
  string_forall P s = true → string_forall P (String_toUpperCase s) = true.
Proof.
  intros HP. induction s as [|c s IH]; [done|]. simpl.
  rewrite !andb_true_iff. intros [Hc Hs]. auto.
Qed.

Lemma upper_lacks_comma s : lacks comma (String_toUpperCase s) = lacks comma s.
Proof.
  unfold lacks. induction s as [|c s IH]; [done|]. simpl.
  by rewrite IH, upper_char_comma.
Qed.

Lemma upper_lacks_newline s : lacks newline (String_toUpperCase s) = lacks newline s.
Proof.
  unfold lacks. induction s as [|c s IH]; [done|]. simpl.
  by rewrite IH, upper_char_newline.
Qed.

(** ** The words of a line *)

Lemma line_words_clean line :
  ascii_text line = true → lacks newline line = true →
  Forall (λ word, clean_word word = true) (line_words line).
Proof.
  intros Hascii Hnl. apply Forall_forall. intros word Hin.
  unfold line_words in Hin. apply list_elem_of_filter in Hin as [Hne Hin].
  apply list_elem_of_fmap in Hin as (piece & -> & Hin).
  pose proof (String_split_keeps _ comma line Hascii) as Ha.
  pose proof (String_split_keeps _ comma line Hnl) as Hn.
  pose proof (String_split_lacks comma line) as Hc.
  rewrite Forall_forall in Ha, Hn, Hc.
  specialize (Ha _ Hin). specialize (Hn _ Hin). specialize (Hc _ Hin). simpl in *.
  unfold clean_word. repeat (apply andb_true_iff; split).
  - apply negb_true_iff, String.eqb_neq. exact Hne.
  - apply upper_forall; [apply upper_char_ascii|]. by apply trim_forall.
  - apply String.eqb_eq. by rewrite upper_trim, trim_idemp.
  - apply String.eqb_eq. apply upper_idemp.
  - rewrite upper_lacks_comma. by apply trim_forall.
  - rewrite upper_lacks_newline. by apply trim_forall.
Qed.

(** X12. Every word that [readWordLists] returns is clean: it is not empty,
    has no white space at either end, no lower-case letter, no comma and no
    line feed.  The reader returns for every ASCII text. *)
Theorem readWordLists_words_are_clean fileContent :
  ascii_text fileContent = true →
  ∃ lists,
    readWordLists fileContent = Ok lists ∧
    ∀ words word, words ∈ lists → word ∈ words →
      word ≠ EmptyString ∧
      String_trim word = word ∧
      String_toUpperCase word = word ∧
      lacks comma word = true ∧ lacks newline word = true ∧
      ascii_text word = true.
Proof.
  intros Hascii. unfold readWordLists. rewrite Hascii. eexists. split; [reflexivity|].
  intros words word Hws Hw.
  apply list_elem_of_fmap in Hws as (line & -> & Hline).
  apply list_elem_of_filter in Hline as [_ Hline].
  pose proof (String_split_keeps _ newline fileContent Hascii) as Ha.
  pose proof (String_split_lacks newline fileContent) as Hn.
  rewrite Forall_forall in Ha, Hn.
  pose proof (line_words_clean line (Ha _ Hline) (Hn _ Hline)) as Hclean.
  rewrite Forall_forall in Hclean. specialize (Hclean _ Hw).
  unfold clean_word in Hclean. rewrite !andb_true_iff in Hclean.
  destruct Hclean as [[[[[H1 H2] H3] H4] H5] H6].
  apply negb_true_iff, String.eqb_neq in H1.
  apply String.eqb_eq in H3. apply String.eqb_eq in H4. done.
Qed.

Lemma readWordLists_words_are_clean_witness :
  ascii_text " cat, Dog ,,bird " = true ∧
  ∃ lists,
    readWordLists " cat, Dog ,,bird " = Ok lists ∧
    ∀ words word, words ∈ lists → word ∈ words →
      word ≠ EmptyString ∧
      String_trim word = word ∧
      String_toUpperCase word = word ∧
      lacks comma word = true ∧ lacks newline word = true ∧
      ascii_text word = true.
Proof.
  split; [reflexivity|].
  apply (readWordLists_words_are_clean " cat, Dog ,,bird "). reflexivity.
Defined.

(** ** Blank text *)

Lemma blank_split s :
  blank s = true ↔ Forall (λ line, blank line = true) (String_split newline s).
Proof.
  unfold blank. induction s as [|c s IH]; [by split; [repeat constructor|]|].
  simpl string_forall. rewrite andb_true_iff, IH.
  destruct (Ascii.eqb c newline) eqn:E.
  - simpl. rewrite E. apply Ascii.eqb_eq in E as ->.
    rewrite Forall_cons. naive_solver.
  - destruct (String_split_cons newline c s E) as (piece & pieces & -> & ->).
    rewrite !Forall_cons. simpl. rewrite andb_true_iff. naive_solver.
Qed.

Lemma filter_nil_Forall {A : Type} (P : A → Prop) `{∀ x, Decision (P x)} (l : list A) :
  filter P l = [] ↔ Forall (λ x, ¬ P x) l.
Proof.
  induction l as [|x l IH]; [by split; [constructor|]|].
  rewrite filter_cons, Forall_cons. destruct (decide (P x)); naive_solver.
Qed.

(** X13. [readWordLists] returns no list at all exactly for a text of white
    space only (the empty text included): blank lines give no puzzle, and any
    line with something else on it gives one. *)
Theorem readWordLists_empty_iff_blank fileContent :
  ascii_text fileContent = true →
  readWordLists fileContent = Ok [] ↔ blank fileContent = true.
Proof.
  intros Hascii. unfold readWordLists. rewrite Hascii.
  rewrite blank_split. split.
  - intros [= H]. apply fmap_nil_inv in H. apply filter_nil_Forall in H.
    eapply Forall_impl; [exact H|]. intros line Hline. simpl in Hline.
    apply trim_empty. by destruct (decide (String_trim line = EmptyString)).
  - intros H. f_equal. replace (filter _ _) with (@nil string); [done|].
    symmetry. apply filter_nil_Forall. eapply Forall_impl; [exact H|].
    intros line Hline Hne. apply Hne. by apply trim_empty.
Qed.

Lemma readWordLists_empty_iff_blank_witness :
  ascii_text "     " = true ∧
  (readWordLists "     " = Ok [] ↔ blank "     " = true).
Proof.
  split; [reflexivity|].
  apply (readWordLists_empty_iff_blank "     "). reflexivity.
Defined.

(** ** Line by line *)

(** X14. The file is read line by line: the lists of a text, a line feed
    and another text are the lists of the first text followed by the lists of
    the second. *)
Theorem readWordLists_line_by_line a b la lb :
  readWordLists a = Ok la → readWordLists b = Ok lb →
  readWordLists (a +:+ String newline b) = Ok (la ++ lb).
Proof.
  unfold readWordLists, ascii_text.
  change (String newline b) with (String newline EmptyString +:+ b) at 1.
  rewrite !string_forall_app.
  destruct (string_forall _ a); [|done]. destruct (string_forall _ b); [|done].
  intros [= <-] [= <-]. simpl andb.
  change (String newline EmptyString +:+ b) with (String newline b).
  by rewrite String_split_app, filter_app, fmap_app.
Qed.

Lemma readWordLists_line_by_line_witness :
  readWordLists "cat,dog" = Ok [["CAT"; "DOG"]] ∧
  readWordLists " bird " = Ok [["BIRD"]] ∧
  readWordLists ("cat,dog" +:+ String newline " bird ")
  = Ok ([["CAT"; "DOG"]] ++ [["BIRD"]]).
Proof.
  split; [reflexivity|]. split; [reflexivity|].
  apply (readWordLists_line_by_line "cat,dog" " bird "); reflexivity.
Defined.

(** ** Lines of commas *)

Lemma comma_or_space_split line :
  string_forall comma_or_space line = true →
  Forall (λ piece, blank piece = true) (String_split comma line).
Proof.
  intros H. apply String_split_forall. revert H. apply string_forall_mono.
  intros c. unfold comma_or_space. rewrite !orb_true_iff, andb_true_iff. naive_solver.
Qed.

Lemma line_words_blank_pieces line :
  Forall (λ piece, blank piece = true) (String_split comma line) → line_words line = [].
Proof.
  unfold line_words. intros H. apply filter_nil_Forall, Forall_fmap.
  eapply Forall_impl; [exact H|]. intros piece Hb. simpl.
  apply trim_empty in Hb. rewrite Hb. naive_solver.
Qed.

(** X15. A line that holds a comma and otherwise only commas and white space
    is not dropped as a blank line is: it gives an empty word list, and so a
    puzzle without words. *)
Theorem readWordLists_line_of_commas line :
  ascii_text line = true →
  string_forall comma_or_space line = true → lacks comma line = false →
  readWordLists line = Ok [[]].
Proof.
  intros Hascii Hcs Hcomma. unfold readWordLists. rewrite Hascii.
  assert (Hnl : lacks newline line = true).
  { revert Hcs. apply string_forall_mono. intros c. unfold comma_or_space.
    rewrite orb_true_iff, andb_true_iff. intros [Hc|[_ Hc]]; [|done].
    apply Ascii.eqb_eq in Hc as ->. done. }
  rewrite (String_split_single newline line Hnl).
  assert (Hnb : String_trim line ≠ EmptyString).
  { rewrite trim_empty. intros Hb.
    assert (lacks comma line = true); [|congruence].
    revert Hb. apply string_forall_mono. intros c Hc.
    by rewrite (whitespace_not_comma c Hc). }
  rewrite filter_cons, decide_True, filter_nil by done. simpl.
  by rewrite (line_words_blank_pieces line (comma_or_space_split line Hcs)).
Qed.

Lemma readWordLists_line_of_commas_witness :
  ascii_text " , ,, " = true ∧ string_forall comma_or_space " , ,, " = true ∧
  lacks comma " , ,, " = false ∧ readWordLists " , ,, " = Ok [[]].
Proof.
  split; [reflexivity|]. split; [reflexivity|]. split; [reflexivity|].
  apply (readWordLists_line_of_commas " , ,, "); reflexivity.
Defined.

(** ** Writing the lists out and reading them back *)

Lemma clean_word_spec w :
  clean_word w = true ↔
  w ≠ EmptyString ∧ ascii_text w = true ∧ String_trim w = w ∧
  String_toUpperCase w = w ∧ lacks comma w = true ∧ lacks newline w = true.
Proof.
  unfold clean_word. rewrite !andb_true_iff, negb_true_iff, String.eqb_neq, !String.eqb_eq.
  naive_solver.
Qed.

Lemma concat_forall (P : ascii → bool) sep pieces :
  P sep = true → Forall (λ piece, string_forall P piece = true) pieces →
  string_forall P (String.concat (String sep EmptyString) pieces) = true.
Proof.
  intros Hsep. induction 1 as [|p pieces Hp _ IH]; [done|].
  destruct pieces as [|q pieces]; [done|].
  change (String.concat (String sep EmptyString) (p :: q :: pieces))
    with (p +:+ String sep (String.concat (String sep EmptyString) (q :: pieces))).
  rewrite string_forall_app, Hp. cbn [string_forall]. by rewrite Hsep, IH.
Qed.

Lemma line_words_concat words :
  Forall (λ w, clean_word w = true) words →
  words ≠ [] →
  line_words (String.concat (String comma EmptyString) words) = words.
Proof.
  intros Hclean Hne. unfold line_words.
  rewrite String_split_concat; [|done|].
  2:{ eapply Forall_impl; [exact Hclean|]. intros w Hw.
      apply clean_word_spec in Hw. naive_solver. }
  clear Hne. induction Hclean as [|w words Hw _ IH]; [done|].
  apply clean_word_spec in Hw as (Hne & _ & Ht & Hu & _).
  rewrite fmap_cons, Ht, Hu, filter_cons, decide_True by done. by rewrite IH.
Qed.

Lemma clean_line_not_blank words :
  Forall (λ w, clean_word w = true) words → words ≠ [] →
  String_trim (String.concat (String comma EmptyString) words) ≠ EmptyString.
Proof.
  intros Hclean Hne. rewrite trim_empty. intros Hb.
  destruct words as [|w words]; [done|]. apply Forall_cons in Hclean as [Hw _].
  apply clean_word_spec in Hw as (Hw & _ & Ht & _).
  assert (Hbw : blank w = true).
  { destruct words as [|q words]; [done|].
    change (String.concat (String comma EmptyString) (w :: q :: words))
      with (w +:+ String comma (String.concat (String comma EmptyString) (q :: words))) in Hb.
    unfold blank in Hb. rewrite string_forall_app in Hb.
    by apply andb_true_iff in Hb as [Hb _]. }
  apply trim_empty in Hbw. congruence.
Qed.

Lemma clean_lists_spec lists :
  clean_lists lists = true ↔
  Forall (λ l, l ≠ [] ∧ Forall (λ w, clean_word w = true) l) lists.
Proof.
  unfold clean_lists. rewrite forallb_forall, Forall_forall. split.
  - intros H l Hl. apply list_elem_of_In, H in Hl.
    apply andb_true_iff in Hl as [Hne Hws]. rewrite negb_true_iff in Hne.
    apply bool_decide_eq_false in Hne. split; [done|].
    apply Forall_forall. intros w Hw. rewrite forallb_forall in Hws.
    apply Hws. by apply list_elem_of_In.
  - intros H l Hl. apply list_elem_of_In, H in Hl as [Hne Hws].
    apply andb_true_iff. split.
    + by apply negb_true_iff, bool_decide_eq_false.
    + apply forallb_forall. intros w Hw. rewrite Forall_forall in Hws.
      apply Hws. by apply list_elem_of_In.
Qed.

(** X16. Writing lists of clean words out, one line per list with commas
    between the words, and reading the text back gives the same lists, as
    long as no list is empty. *)
Theorem readWordLists_of_joined lists :
  clean_lists lists = true → readWordLists (joined lists) = Ok lists.
Proof.
  intros Hclean. apply clean_lists_spec in Hclean.
  assert (Hlines : Forall (λ line, ascii_text line = true ∧ lacks newline line = true)
                     (String.concat (String comma EmptyString) <$> lists)).
  { apply Forall_fmap. eapply Forall_impl; [exact Hclean|]. intros l [_ Hws]. simpl.
    split; (apply concat_forall; [done|]); (eapply Forall_impl; [exact Hws|]);
      intros w Hw; apply clean_word_spec in Hw; naive_solver. }
  unfold readWordLists, joined.
  replace (ascii_text _) with true.
  2:{ symmetry. apply concat_forall; [done|].
      eapply Forall_impl; [exact Hlines|]. naive_solver. }
  f_equal. destruct lists as [|l lists]; [done|].
  rewrite String_split_concat; [|done|].
  2:{ eapply Forall_impl; [exact Hlines|]. naive_solver. }
  clear Hlines. induction Hclean as [|l' lists' [Hne Hws] _ IH]; [done|].
  rewrite fmap_cons, filter_cons, decide_True by by apply clean_line_not_blank.
  rewrite fmap_cons, line_words_concat by done. by rewrite IH.
Qed.

Lemma readWordLists_of_joined_witness :
  clean_lists [["CAT"; "DOG"]; ["ICE-CREAM"]; ["A B"; "X"]] = true ∧
  readWordLists (joined [["CAT"; "DOG"]; ["ICE-CREAM"]; ["A B"; "X"]])
  = Ok [["CAT"; "DOG"]; ["ICE-CREAM"]; ["A B"; "X"]].
Proof.
  split; [reflexivity|].
  apply (readWordLists_of_joined [["CAT"; "DOG"]; ["ICE-CREAM"]; ["A B"; "X"]]).
  reflexivity.
Defined.

(** * Properties of a batch of puzzles *)

Lemma generateWordSearch_frame rnd words size s ws :
  0 <= size < 2 ^ 32 → heap s !! words = Some ws →
  ∃ g s',
    generateWordSearch rnd words size s = Returned (g, length (heap s)) s' ∧
    square size g ∧
    length (heap s') = (length (heap s) + 2)%nat ∧
    kept s s'.
Proof.
  intros Hsize Hw.
  destruct (generateWordSearch_run rnd words size s ws Hsize Hw)
    as (g1 & s1 & g2 & k & _ & Hrun & _ & Hf & Hgen).
  destruct (words_run_heap _ _ _ _ _ _ _ _ [] Hrun (loop_entry_placed ws s))
    as (added & Hheap & _).
  exists g2, (tick k s1). split; [done|]. split; [|split].
  - unfold square. rewrite (filled_shape _ _ Hf), (words_run_shape _ _ _ _ _ _ _ _ Hrun).
    apply empty_grid_square.
  - simpl. rewrite Hheap, length_insert. unfold loop_entry. simpl.
    rewrite !length_app. simpl. lia.
  - intros a xs Ha. simpl. rewrite Hheap.
    pose proof (lookup_lt_Some _ _ _ Ha) as Hlt.
    rewrite list_lookup_insert_ne by lia.
    unfold loop_entry. simpl. by do 2 apply lookup_app_l_Some.
Qed.

Lemma kept_trans s1 s2 s3 : kept s1 s2 → kept s2 s3 → kept s1 s3.
Proof. intros H12 H23 a xs Ha. by apply H23, H12. Qed.

Lemma kept_length s s' : kept s s' → (length (heap s) <= length (heap s'))%nat.
Proof.
  intros Hk. destruct (heap s) as [|x h] eqn:E using rev_ind; [simpl; lia|].
  clear IHh. specialize (Hk (length h) x). rewrite E in Hk.
  rewrite length_app. simpl.
  assert (H : (h ++ [x]) !! length h = Some x) by by apply list_lookup_middle.
  apply Hk, lookup_lt_Some in H. lia.
Qed.

Lemma generate_each_spec rnd wordLists s :
  forallb (λ words, words <? length (heap s))%nat wordLists = true →
  ∃ puzzles s',
    generate_each rnd wordLists s = Returned puzzles s' ∧
    length puzzles = length wordLists ∧
    length (heap s') = (length (heap s) + 2 * length wordLists)%nat ∧
    kept s s' ∧
    Forall (λ puzzle, square default_size puzzle.1 ∧
                      (length (heap s) <= puzzle.2 < length (heap s'))%nat) puzzles ∧
    NoDup (puzzles.*2).
Proof.
  revert s. induction wordLists as [|words rest IH]; intros s Hin.
  { exists [], s. simpl. split; [done|]. split; [done|]. split; [lia|].
    split; [by intros a xs|]. split; constructor. }
  simpl in Hin. apply andb_true_iff in Hin as [Hw Hrest].
  apply Nat.ltb_lt in Hw. destruct (lookup_lt_is_Some_2 _ _ Hw) as [ws Hws].
  destruct (generateWordSearch_frame rnd words default_size s ws ltac:(done) Hws)
    as (g & s1 & Hgen & Hsq & Hlen & Hk).
  destruct (IH s1) as (puzzles & s' & Hrun & Hn & Hlen' & Hk' & Hall & Hnd).
  { apply forallb_forall. intros a Ha. rewrite forallb_forall in Hrest.
    specialize (Hrest a Ha). apply Nat.ltb_lt in Hrest. apply Nat.ltb_lt. lia. }
  exists ((g, length (heap s)) :: puzzles), s'.
  simpl. unfold mbind, M_bind. rewrite Hgen, Hrun.
  split; [done|]. split; [by rewrite Hn|]. split; [lia|].
  split; [by eapply kept_trans|]. split.
  - constructor; [simpl; split; [done|lia]|].
    eapply Forall_impl; [exact Hall|]. intros [g' p'] [? ?]. simpl in *. split; [done|lia].
  - constructor; [|done]. intros Hin.
    apply list_elem_of_fmap in Hin as ([g' p'] & Hp & Hin). simpl in Hp. subst p'.
    rewrite Forall_forall in Hall. destruct (Hall _ Hin) as [_ Hr]. simpl in Hr. lia.
Qed.

Lemma generate_each_app rnd l1 l2 s :
  generate_each rnd (l1 ++ l2) s =
  (puzzles1 ← generate_each rnd l1;
   puzzles2 ← generate_each rnd l2;
   mret (puzzles1 ++ puzzles2)) s.
Proof.
  revert s. induction l1 as [|words l1 IH]; intros s.
  - simpl. unfold mbind, M_bind, mret, M_ret.
    by destruct (generate_each rnd l2 s).
  - simpl. unfold mbind, M_bind.
    destruct (generateWordSearch rnd words default_size s) as [puzzle s1|e s1]; [|done].
    rewrite IH. unfold mbind, M_bind.
    destruct (generate_each rnd l1 s1) as [puzzles1 s2|e s2]; [|done].
    unfold mret, M_ret. by destruct (generate_each rnd l2 s2).
Qed.

(** X17. A batch of puzzles, as both renderers generate it, gives one
    15 by 15 puzzle per word list.  Every array that exists before the batch,
    the word lists among them, is unchanged after it; each puzzle has a
    [placedWords] array of its own, new and different from those of the
    other puzzles; and the later calls of a batch leave the arrays of the
    earlier puzzles as they were. *)
Theorem batch_puzzles_are_separate rnd wordLists s :
  forallb (λ words, words <? length (heap s))%nat wordLists = true →
  ∃ puzzles s',
    generate_each rnd wordLists s = Returned puzzles s' ∧
    length puzzles = length wordLists ∧
    kept s s' ∧
    Forall (λ puzzle, square default_size puzzle.1 ∧
                      heap s !! puzzle.2 = None ∧ is_Some (heap s' !! puzzle.2)) puzzles ∧
    NoDup (puzzles.*2) ∧
    ∀ l1 l2, wordLists = l1 ++ l2 →
      ∃ puzzles1 s1 puzzles2,
        generate_each rnd l1 s = Returned puzzles1 s1 ∧
        generate_each rnd l2 s1 = Returned puzzles2 s' ∧
        puzzles = puzzles1 ++ puzzles2 ∧ kept s1 s'.
Proof.
  intros Hin.
  destruct (generate_each_spec rnd wordLists s Hin)
    as (puzzles & s' & Hrun & Hn & Hlen & Hk & Hall & Hnd).
  exists puzzles, s'. split; [done|]. split; [done|]. split; [done|]. split; [|split; [done|]].
  - eapply Forall_impl; [exact Hall|]. intros [g p] [Hsq Hr]. simpl in *.
    split; [done|]. split; [apply lookup_ge_None; lia|apply lookup_lt_is_Some_2; lia].
  - intros l1 l2 ->. rewrite forallb_app in Hin. apply andb_true_iff in Hin as [H1 H2].
    destruct (generate_each_spec rnd l1 s H1)
      as (puzzles1 & s1 & Hrun1 & _ & _ & Hk1 & _).
    destruct (generate_each_spec rnd l2 s1) as (puzzles2 & s2 & Hrun2 & _ & _ & Hk2 & _).
    { pose proof (kept_length _ _ Hk1). apply forallb_forall. intros a Ha.
      rewrite forallb_forall in H2. specialize (H2 a Ha).
      apply Nat.ltb_lt in H2. apply Nat.ltb_lt. lia. }
    rewrite generate_each_app in Hrun. unfold mbind, M_bind in Hrun.
    rewrite Hrun1, Hrun2 in Hrun. injection Hrun as <- <-.
    exists puzzles1, s1, puzzles2. done.
Qed.

Lemma batch_puzzles_are_separate_witness :
  forallb (λ words, words <? length (heap (set_heap [["CAT"; "DOG"]; ["BIRD"]] (initial_state []))))%nat
          [0%nat; 1%nat; 0%nat] = true ∧
  ∃ puzzles s',
    generate_each rnd16 [0%nat; 1%nat; 0%nat]
                  (set_heap [["CAT"; "DOG"]; ["BIRD"]] (initial_state []))
      = Returned puzzles s' ∧
    length puzzles = length [0%nat; 1%nat; 0%nat] ∧
    kept (set_heap [["CAT"; "DOG"]; ["BIRD"]] (initial_state [])) s' ∧
    NoDup (puzzles.*2).
Proof.
  split; [reflexivity|].
  destruct (batch_puzzles_are_separate rnd16 [0%nat; 1%nat; 0%nat]
              (set_heap [["CAT"; "DOG"]; ["BIRD"]] (initial_state [])))
    as (puzzles & s' & Hrun & Hn & Hk & _ & Hnd & _); [reflexivity|].
  exists puzzles, s'. exact (conj Hrun (conj Hn (conj Hk Hnd))).
Defined.
